(** * Nearest-neighbour matching on document arrays

    A shallow embedding of [DocumentArrayNeuralOpsMixin] from
    [jina/types/arrays/neural_ops.py]: the entry point [match], the
    in-memory matcher [_match], the batched matcher [_match_online] and the
    loop that writes the ranked match lists back onto the left-hand
    documents; further [_get_embeddings], the layout computed by
    [plot_image_sprites] and the colour numbers of [plot_embeddings].

    Modelling conventions.
    - A Python float is a rational ([Q]); the accumulator of the batched
      matcher also holds [np.inf], so its entries are of type [score]
      (a rational or [Inf]).  Rounding and NaN are not modelled.
    - A numpy matrix is a list of rows; every numpy operation used by the
      source works row by row ([axis=1] / [axis=-1]).  [np.argsort] is taken
      to be stable.
    - Documents live in a store ([heap]) addressed by locations; a
      [DocumentArray] is a list of locations, so that two arrays (or one
      array used on both sides) can share documents.
    - The distance provider is pairwise: entry [(i, j)] of [cdist X Y name]
      depends on row [i] of [X] and row [j] of [Y] only.
    - A document may lack an embedding (the id-only stand-ins do); a
      matcher needs the embeddings of both arrays, and a call that does not
      find them raises before anything is written.
    - [traversal_ldarray], [traversal_rdarray], [filter_fn], [use_scipy] and
      [is_sparse] are left at their defaults.  [limit] is an integer or a
      float, hence a rational, which the source cuts with [int] after the
      check; [batch_size] is an integer, and the batch size the batched
      matcher receives is a natural number ([match] hands it a positive one).
    - The scores of a document are a mapping from metric names to scores,
      kept as an association list in insertion order.
    - [top_k], [minmax_normalize] and [update_rows_x_mat_best] are imported
      by the source from [jina/math/helper.py]; their definitions here follow
      the specification. *)

From Stdlib Require Import QArith Qminmax Lqa Lia String.
From stdpp Require Import base list sorting strings.

Local Open Scope nat_scope.

(** ** Floats *)

Inductive score : Type :=
| Fin (q : Q)
| Inf.

Definition score_leb (a b : score) : bool :=
  match a, b with
  | _, Inf => true
  | Inf, Fin _ => false
  | Fin x, Fin y => Qle_bool x y
  end.

Definition score_eq (a b : score) : Prop :=
  match a, b with
  | Fin x, Fin y => (x == y)%Q
  | Inf, Inf => True
  | _, _ => False
  end.

Definition score_ltb (a b : score) : bool := negb (score_leb b a).

Definition is_finite (a : score) : bool :=
  match a with Fin _ => true | Inf => false end.

Definition finite_key {I : Type} (p : score * I) : Prop := is_finite p.1 = true.

Abbreviation matrix V := (list (list V)).

(** ** Sorting, as numpy's stable [argsort] does it *)

Section Sort.
Context {A : Type} (leb : A → A → bool).

Fixpoint ins (x : A) (l : list A) : list A :=
  match l with
  | [] => [x]
  | y :: l' => if leb x y then x :: l else y :: ins x l'
  end.

Fixpoint isort (l : list A) : list A :=
  match l with
  | [] => []
  | x :: l' => ins x (isort l')
  end.
End Sort.

(** The [k] smallest entries of a list, ascending. *)
Definition smallest {A : Type} (leb : A → A → bool) (k : nat) (l : list A) : list A :=
  take k (isort leb l).

(** Insert, then keep the first [k]: one step of a running selection. *)
Definition keep {A : Type} (leb : A → A → bool) (k : nat) (x : A) (acc : list A) : list A :=
  take k (ins leb x acc).

(** A running selection fed with one list of candidates after the other. *)
Definition running {A : Type} (leb : A → A → bool) (k : nat)
    (best : list A) (locs : list (list A)) : list A :=
  foldl (λ best loc, smallest leb k (best ++ loc)) best locs.

(** Two entries that compare equal, and lists that do so position by
    position. *)
Definition eqv {A : Type} (leb : A → A → bool) (x y : A) : Prop :=
  leb x y = true ∧ leb y x = true.

Definition keq {A : Type} (leb : A → A → bool) (l1 l2 : list A) : Prop :=
  Forall2 (eqv leb) l1 l2.

Definition le_of {A : Type} (leb : A → A → bool) (x y : A) : Prop :=
  leb x y = true.

(** Entries paired with their column; compared on the value only. *)
Definition by_key {V I : Type} (leb : V → V → bool) (p q : V * I) : bool :=
  leb p.1 q.1.

Definition enumerate {V : Type} (row : list V) : list (V * nat) :=
  zip row (seq 0 (length row)).

(** [np.argsort(row)]: the columns of [row] in ascending order of their
    entries, equal entries in column order. *)
Definition argsort_row {V : Type} (leb : V → V → bool) (row : list V) : list nat :=
  (isort (by_key leb) (enumerate row)).*2.

Definition argsort {V : Type} (leb : V → V → bool) (m : matrix V) : matrix nat :=
  argsort_row leb <$> m.

(** [np.take_along_axis(m, permutation, axis=1)]. *)
Definition take_along_axis {V : Type} (d : V) (m : matrix V) (perm : matrix nat) : matrix V :=
  zip_with (λ row p, (λ j, nth j row d) <$> p) m perm.

(** ** Helpers of [jina/math/helper.py] *)

(** Modelled from the spec: [top_k] lives in [jina/math/helper.py], which is
    not part of the sources at hand.  Section 4.2: for each row, the [k]
    smallest values and their original column positions, sorted ascending by
    value, ties broken by original column order; [k] is clamped to the number
    of columns. *)
Definition top_k_row {V : Type} (leb : V → V → bool) (row : list V) (k : nat)
  : list (V * nat) :=
  take k (isort (by_key leb) (enumerate row)).

(** Modelled from the spec: [top_k] on a matrix, row by row, returning the
    values and the column positions as two matrices. *)
Definition top_k {V : Type} (leb : V → V → bool) (values : matrix V) (k : nat)
  : matrix V * matrix nat :=
  ((λ row, (top_k_row leb row k).*1) <$> values,
   (λ row, (top_k_row leb row k).*2) <$> values).

(** Modelled from the spec: [minmax_normalize] lives in
    [jina/math/helper.py].  Section 4.3: the linear map
    [v' = lo + (v - min_obs) * (hi - lo) / (max_obs - min_obs)]; when the
    observed range is not supplied it is taken from the values themselves,
    row by row; a row with [max_obs == min_obs] is mapped to [lo]. *)
Definition rescale (t_range : Q * Q) (min_obs max_obs v : Q) : Q :=
  if Qeq_bool max_obs min_obs then t_range.1
  else (t_range.1 + (v - min_obs) * (t_range.2 - t_range.1) / (max_obs - min_obs))%Q.

Definition row_min (row : list Q) : Q :=
  match row with
  | [] => 0%Q
  | x :: r => foldl Qmin x r
  end.

Definition row_max (row : list Q) : Q :=
  match row with
  | [] => 0%Q
  | x :: r => foldl Qmax x r
  end.

(** Modelled from the spec: [minmax_normalize] on a matrix, with the
    observed range given per row or taken from each row. *)
Definition minmax_normalize (x : matrix Q) (t_range : Q * Q)
    (x_range : option (list Q * list Q)) : matrix Q :=
  let min_d := match x_range with Some r => r.1 | None => row_min <$> x end in
  let max_d := match x_range with Some r => r.2 | None => row_max <$> x end in
  zip_with (λ row r, rescale t_range r.1 r.2 <$> row) x (zip min_d max_d).

(** Modelled from the spec: [update_rows_x_mat_best] lives in
    [jina/math/helper.py].  Section 4.5, step 4: row by row, concatenate the
    running best with the new candidates along the candidate axis and
    re-select the [k] smallest.  The order inside the selection is left open
    by the spec; the model keeps it ascending. *)
Definition update_row (best_d : list score) (best_i : list nat)
    (d : list score) (i : list nat) (k : nat) : list (score * nat) :=
  take k (isort (by_key score_leb) (zip (best_d ++ d) (best_i ++ i))).

(** Modelled from the spec: [update_rows_x_mat_best] on the two running
    matrices and the two matrices of new candidates. *)
Definition update_rows_x_mat_best (x_mat_best : matrix score) (x_inds_best : matrix nat)
    (x_mat : matrix score) (x_inds : matrix nat) (k : nat)
  : matrix score * matrix nat :=
  let rows :=
    zip_with (λ b c, update_row b.1 b.2 c.1 c.2 k)
      (zip x_mat_best x_inds_best) (zip x_mat x_inds) in
  ((λ r, r.*1) <$> rows, (λ r, r.*2) <$> rows).

(** ** Documents and the store *)

Definition loc : Type := nat.

Section Model.
Context {E : Type}.

(** The library's distance provider, by metric name (pairwise). *)
Context (library_dist : string → E → E → Q).

#[local] Unset Elimination Schemes.
Inductive Document : Type := mkDoc {
  id : string;
  embedding : option E;
  scores : list (string * score);
  matches : list Document
}.
#[local] Set Elimination Schemes.

Definition heap : Type := loc → Document.

Definition upd (h : heap) (l : loc) (d : Document) : heap :=
  λ l', if decide (l' = l) then d else h l'.

Definition set_matches (d : Document) (ms : list Document) : Document :=
  mkDoc (id d) (embedding d) (scores d) ms.

(** [DocumentArray.embeddings]: the embeddings stacked as rows; it needs
    every document to carry one. *)
Definition embeddings (h : heap) (da : list loc) : option (list E) :=
  mapM (λ l, embedding (h l)) da.

(** [doc_id in da]. *)
Definition contains (h : heap) (da : list loc) (i : string) : bool :=
  bool_decide (i ∈ (λ l, id (h l)) <$> da).

(** The [metric] argument: a name, a callable (with its [__name__]), or
    anything else. *)
Inductive Metric : Type :=
| MetricName (name : string)
| MetricCallable (name : string) (f : string → E → E → Q)
| MetricOther.

Definition cdist_of (dist : string → E → E → Q)
    (x_mat y_mat : list E) (metric_name : string) : matrix Q :=
  (λ x, dist metric_name x <$> y_mat) <$> x_mat.

(** *** [_match]

    [x_mat] and [y_mat] stand for [self.embeddings] and [darray.embeddings],
    which [match] reads from the store. *)

Definition _match (x_mat y_mat : list E)
    (cdist : list E → list E → string → matrix Q)
    (limit : nat) (normalization : option (Q * Q)) (metric_name : string)
  : matrix Q * matrix nat :=
  let dists := cdist x_mat y_mat metric_name in
  let '(dist, idx) := top_k Qle_bool dists (limit `min` length y_mat) in
  match normalization with
  | Some t_range =>
      let min_d := row_min <$> dists in
      let max_d := row_max <$> dists in
      (minmax_normalize dist t_range (Some (min_d, max_d)), idx)
  | None => (dist, idx)
  end.

(** *** Exceptions and outcomes *)

Inductive exn : Type := ValueError | TypeError | IndexError | InvalidEmbedding.

Inductive outcome : Type := Returned | Raised (e : exn).

(** *** [_match_online] *)

(** [range(0, len(y_darray), n_batch)] with the slice taken at each start;
    [length y_darray] steps are enough for a positive [n_batch]. *)
Fixpoint batch_generator_from (fuel : nat) (y_darray : list E) (n_batch i : nat)
  : list (list E * nat) :=
  match fuel with
  | 0 => []
  | S fuel' =>
      if length y_darray <=? i then []
      else (take n_batch (drop i y_darray), i)
             :: batch_generator_from fuel' y_darray n_batch (i + n_batch)
  end.

(** The batches of a positive [n_batch]. *)
Definition batches (y_darray : list E) (n_batch : nat) : list (list E * nat) :=
  batch_generator_from (length y_darray) y_darray n_batch 0.

(** [range] raises [ValueError] on a step of zero, when the generator is
    first advanced. *)
Definition batch_generator (y_darray : list E) (n_batch : nat)
  : exn + list (list E * nat) :=
  if n_batch =? 0 then inl ValueError else inr (batches y_darray n_batch).

Definition online_step (x_mat : list E)
    (cdist : list E → list E → string → matrix Q)
    (limit : nat) (normalization : option (Q * Q)) (metric_name : string)
    (top : matrix score * matrix nat) (batch : list E * nat)
  : matrix score * matrix nat :=
  let '(y_batch, y_batch_start_pos) := batch in
  let distances := cdist x_mat y_batch metric_name in
  let '(dists, inds) := top_k Qle_bool distances limit in
  let dists :=
    match normalization with
    | Some t_range => minmax_normalize dists t_range None
    | None => dists
    end in
  let inds := (λ r : list nat, (λ j, y_batch_start_pos + j) <$> r) <$> inds in
  update_rows_x_mat_best top.1 top.2 ((λ r : list Q, Fin <$> r) <$> dists) inds limit.

(** [darray[0]] in the opening assertion raises [IndexError] on an empty
    target; the embeddings read are arrays by construction. *)
Definition _match_online (x_mat y_darray : list E)
    (cdist : list E → list E → string → matrix Q)
    (limit : nat) (normalization : option (Q * Q)) (metric_name : string)
    (batch_size : nat) : exn + matrix score * matrix nat :=
  match y_darray with
  | [] => inl IndexError
  | _ :: _ =>
      let n_x := length x_mat in
      let top_dists := replicate n_x (replicate limit Inf) in
      let top_inds := replicate n_x (replicate limit 0) in
      match batch_generator y_darray batch_size with
      | inl e => inl e
      | inr y_batch_generator =>
          let '(top_dists, top_inds) :=
            foldl (online_step x_mat cdist limit normalization metric_name)
              (top_dists, top_inds) y_batch_generator in
          let permutation := argsort score_leb top_dists in
          let dist := take_along_axis Inf top_dists permutation in
          let idx := take_along_axis 0 top_inds permutation in
          inr (dist, idx)
      end
  end.

(** *** The two matchers, one query at a time

    Both matchers treat the rows of [x_mat] independently; these are the
    rows they compute for a query [x] (proved below). *)

Definition match_row (dist : string → E → E → Q) (limit : nat)
    (normalization : option (Q * Q)) (metric_name : string)
    (y_mat : list E) (x : E) : list Q * list nat :=
  let dists := dist metric_name x <$> y_mat in
  let tk := top_k_row Qle_bool dists (limit `min` length y_mat) in
  (match normalization with
   | Some t_range => rescale t_range (row_min dists) (row_max dists) <$> tk.*1
   | None => tk.*1
   end, tk.*2).

Definition batch_row (dist : string → E → E → Q) (limit : nat)
    (normalization : option (Q * Q)) (metric_name : string)
    (x : E) (batch : list E * nat) : list (score * nat) :=
  let tk := top_k_row Qle_bool (dist metric_name x <$> batch.1) limit in
  let d :=
    match normalization with
    | Some t_range => rescale t_range (row_min tk.*1) (row_max tk.*1) <$> tk.*1
    | None => tk.*1
    end in
  zip (Fin <$> d) ((λ j, batch.2 + j) <$> tk.*2).

Definition online_row (dist : string → E → E → Q) (limit : nat)
    (normalization : option (Q * Q)) (metric_name : string)
    (y_darray : list E) (batch_size : nat) (x : E) : list (score * nat) :=
  running (by_key score_leb) limit (replicate limit (Inf, 0))
    (batch_row dist limit normalization metric_name x
       <$> batches y_darray batch_size).

(** All candidates of a query: distance and target position. *)
Definition candidates (dist : string → E → E → Q) (metric_name : string)
    (y_mat : list E) (x : E) : list (score * nat) :=
  enumerate (Fin <$> (dist metric_name x <$> y_mat)).

(** *** [match] *)

(** The document handed to [append]: the target at position [_id], or an
    id-only stand-in. *)
Definition resolve (h : heap) (rhv : list loc) (only_id : bool) (_id : nat) : Document :=
  let d := h (nth _id rhv 0) in
  if only_id then mkDoc (id d) None [] [] else d.

(** [scores[metric_name] = _dist] on the mapping from metric names to
    scores: the entry of a name already present is replaced where it is, a new
    name goes last. *)
Fixpoint set_score (metric_name : string) (_dist : score)
    (sc : list (string * score)) : list (string * score) :=
  match sc with
  | [] => [(metric_name, _dist)]
  | (k, v) :: rest =>
      if bool_decide (k = metric_name) then (k, _dist) :: rest
      else (k, v) :: set_score metric_name _dist rest
  end.

(** Modelled from the spec: [_q.matches.append(d, scores={metric_name: _dist})]
    is a method of the match array, which is not part of the sources at hand.
    Section 3 and section 4.6, step 6: a match references the resolved record
    and carries a mapping from metric name to score, with the distance under
    [metric_name].  The match is a copy of [d]: it keeps the mapping [d]
    carries, with the entry for [metric_name] set. *)
Definition append_match (h : heap) (_q : loc) (d : Document)
    (metric_name : string) (_dist : score) : heap :=
  let m := mkDoc (id d) (embedding d) (set_score metric_name _dist (scores d))
             (matches d) in
  upd h _q (set_matches (h _q) (matches (h _q) ++ [m])).

(** The inner loop over [zip(_ids, _dists)]. *)
Fixpoint assemble_row (lhv rhv : list loc) (metric_name : string)
    (exclude_self only_id : bool) (stop : nat)
    (_q : loc) (cands : list (nat * score)) (num_matches : nat) (h : heap) : heap :=
  match cands with
  | [] => h
  | (_id, _dist) :: rest =>
      let d := resolve h rhv only_id _id in
      let d := if contains h lhv (id d) then set_matches d [] else d in
      if negb (bool_decide (id d = id (h _q)) && exclude_self) then
        let h := append_match h _q d metric_name _dist in
        let num_matches := num_matches + 1 in
        if stop <=? num_matches then h
        else assemble_row lhv rhv metric_name exclude_self only_id stop
               _q rest num_matches h
      else assemble_row lhv rhv metric_name exclude_self only_id stop
             _q rest num_matches h
  end.

(** The outer loop over [zip(lhv, idx, dist)]. *)
Definition assemble (lhv rhv : list loc) (metric_name : string)
    (exclude_self only_id : bool) (stop : nat)
    (idx : matrix nat) (dist : matrix score) (h : heap) : heap :=
  foldl (λ h row,
           let '(_q, (_ids, _dists)) := row in
           let h := upd h _q (set_matches (h _q) []) in
           assemble_row lhv rhv metric_name exclude_self only_id stop
             _q (zip _ids _dists) 0 h)
    h (zip lhv (zip idx dist)).

(** *** What the loops compute

    The match list a query ends up with, as a function of the store the
    call started from (proved below). *)

Definition attached (h : heap) (lhv rhv : list loc) (only_id : bool)
    (metric_name : string) (c : nat * score) : Document :=
  let d := resolve h rhv only_id c.1 in
  let d := if contains h lhv (id d) then set_matches d [] else d in
  mkDoc (id d) (embedding d) (set_score metric_name c.2 (scores d)) (matches d).

Definition kept (exclude_self : bool) (qid : string) (m : Document) : bool :=
  negb (bool_decide (id m = qid) && exclude_self).

Definition ranked (h : heap) (lhv rhv : list loc) (metric_name : string)
    (exclude_self only_id : bool) (stop : nat) (_q : loc)
    (cands : list (nat * score)) : list Document :=
  take stop
    (List.filter (kept exclude_self (id (h _q)))
       (attached h lhv rhv only_id metric_name <$> cands)).

(** Two stores that differ at most in the match lists of the documents of
    [lhv]. *)
Definition agree (lhv : list loc) (h1 h0 : heap) : Prop :=
  ∀ l, id (h1 l) = id (h0 l) ∧ embedding (h1 l) = embedding (h0 l)
       ∧ scores (h1 l) = scores (h0 l) ∧ (l ∉ lhv → h1 l = h0 l).

(** The score a match carries under a metric name. *)
Definition score_of (metric_name : string) (m : Document) : option score :=
  (λ r : nat * (string * score), r.2.2)
    <$> list_find (λ p : string * score, p.1 = metric_name) (scores m).

Definition nonpositive (n : option Z) : bool :=
  match n with
  | Some z => (z <=? 0)%Z
  | None => false
  end.

(** [limit] is an integer or a float. *)
Definition nonpositive_limit (limit : option Q) : bool :=
  match limit with
  | Some l => Qle_bool l 0
  | None => false
  end.

(** [int(x)]: truncation towards zero. *)
Definition py_int (x : Q) : Z := (Qnum x ÷ Z.pos (Qden x))%Z.

(** [_limit]: the number of candidates asked of the matcher; [limit] is the
    limit after [int]. *)
Definition limit_of (limit : option Z) (exclude_self : bool) (rhv : list loc) : nat :=
  match limit with
  | None => length rhv
  | Some l => Z.to_nat l + (if exclude_self then 1 else 0)
  end.

(** [limit or _limit]: the number of matches at which the loop stops. *)
Definition stop_of (limit : option Z) (exclude_self : bool) (rhv : list loc) : nat :=
  match limit with
  | Some l => if (l =? 0)%Z then limit_of limit exclude_self rhv else Z.to_nat l
  | None => limit_of limit exclude_self rhv
  end.

Definition match_ (self darray : list loc) (metric : Metric)
    (limit : option Q) (normalization : option (Q * Q))
    (metric_name : option string) (batch_size : option Z)
    (exclude_self only_id : bool) (h : heap) : outcome * heap :=
  if nonpositive_limit limit then (Raised ValueError, h)
  else
  let limit := py_int <$> limit in
  if nonpositive batch_size then (Raised ValueError, h)
  else
    let lhv := self in
    let rhv := darray in
    if negb (bool_decide (lhv ≠ []) && bool_decide (rhv ≠ [])) then (Returned, h)
    else
      let cdist_opt :=
        match metric with
        | MetricCallable _ f => Some (cdist_of f)
        | MetricName _ => Some (cdist_of library_dist)
        | MetricOther => None
        end in
      match cdist_opt with
      | None => (Raised TypeError, h)
      | Some cdist =>
          let metric_name :=
            match metric_name with
            | Some s => if bool_decide (s = EmptyString) then
                          match metric with
                          | MetricCallable n _ | MetricName n => n
                          | MetricOther => EmptyString
                          end
                        else s
            | None => match metric with
                      | MetricCallable n _ | MetricName n => n
                      | MetricOther => EmptyString
                      end
            end in
          let _limit := limit_of limit exclude_self rhv in
          match embeddings h lhv, embeddings h rhv with
          | Some x_mat, Some y_mat =>
              let matched :=
                match batch_size with
                | Some b =>
                    _match_online x_mat y_mat cdist _limit normalization
                      metric_name (Z.to_nat b)
                | None =>
                    let '(dist, idx) :=
                      _match x_mat y_mat cdist _limit normalization metric_name in
                    inr ((λ r : list Q, Fin <$> r) <$> dist, idx)
                end in
              match matched with
              | inl e => (Raised e, h)
              | inr (dist, idx) =>
                  let stop := stop_of limit exclude_self rhv in
                  (Returned,
                   assemble lhv rhv metric_name exclude_self only_id stop idx dist h)
              end
          | _, _ => (Raised InvalidEmbedding, h)
          end
      end.

(** The distance and the metric name [match] derives from its arguments
    before it calls a matcher. *)
Definition dist_of (metric : Metric) : string → E → E → Q :=
  match metric with
  | MetricCallable _ f => f
  | _ => library_dist
  end.

Definition name_of (metric : Metric) (metric_name : option string) : string :=
  let n := match metric with
           | MetricCallable n _ | MetricName n => n
           | MetricOther => EmptyString
           end in
  match metric_name with
  | Some s => if bool_decide (s = EmptyString) then n else s
  | None => n
  end.

(** The [(position, score)] pairs the loop walks through for a query with
    embedding [x]. *)
Definition cands_of (metric : Metric) (limit : option Z)
    (normalization : option (Q * Q)) (metric_name : option string)
    (batch_size : option Z) (exclude_self : bool) (rhv : list loc)
    (y_mat : list E) (x : E) : list (nat * score) :=
  match batch_size with
  | Some b =>
      let r := online_row (dist_of metric) (limit_of limit exclude_self rhv)
                 normalization (name_of metric metric_name) y_mat (Z.to_nat b) x in
      zip r.*2 r.*1
  | None =>
      let r := match_row (dist_of metric) (limit_of limit exclude_self rhv)
                 normalization (name_of metric metric_name) y_mat x in
      zip r.2 (Fin <$> r.1)
  end.
End Model.

Arguments Document : clear implicits.
Arguments heap : clear implicits.
Arguments Metric : clear implicits.

(** ** Properties of a call, as the specification words them *)

Section Properties.
Context {E : Type}.
Implicit Types (h : heap E).

Definition raises (r : outcome * heap E) : Prop := ∃ e, r.1 = Raised e.

(** Some target document has the id of a left-hand document. *)
Definition shares_record h (lhv rhv : list loc) : Prop :=
  ∃ p, p ∈ rhv ∧ contains h lhv (id (h p)) = true.

Definition no_nested_matches h (lhv : list loc) : Prop :=
  ∀ q, q ∈ lhv → Forall (λ m, matches m = []) (matches (h q)).

Definition no_self_match h (lhv : list loc) : Prop :=
  ∀ q, q ∈ lhv → Forall (λ m, id m ≠ id (h q)) (matches (h q)).

(** The scores of a match list under a metric name, in list order. *)
Definition match_scores (metric_name : string) (ms : list (Document E)) : list score :=
  omap (score_of metric_name) ms.
End Properties.

(** Two distance arrays with the same shape and the same entries. *)
Definition same_dists (d1 d2 : matrix score) : Prop :=
  Forall2 (Forall2 score_eq) d1 d2.

(** A row of reported distances and target positions is a ranking of the
    raw distances [raw]: the positions are pairwise distinct and each one
    has the distance reported for it. *)
Definition valid_ranking (raw : list Q) (dist : list score) (idx : list nat) : Prop :=
  NoDup idx ∧ Forall2 (λ d i, ∃ r, raw !! i = Some r ∧ d = Fin r) dist idx.

Definition valid_rankings (raws : matrix Q) (dist : matrix score) (idx : matrix nat)
  : Prop :=
  Forall3 valid_ranking raws dist idx.

(** Among the [(position, score)] pairs [cs], a pair whose target is
    closest by the raw distances [raw] carries the highest score. *)
Definition closest_has_highest (raw : list Q) (cs : list (nat * score)) : Prop :=
  Forall (λ c, c.1 < length raw) cs
  ∧ ∀ c1, c1 ∈ cs →
      (∀ c, c ∈ cs →
         ∃ r1 r, raw !! c1.1 = Some r1 ∧ raw !! c.1 = Some r ∧ (r1 <= r)%Q) →
      ∀ c, c ∈ cs → score_leb c.2 c1.2 = true.

(** A score that is a number between [lo] and [hi]. *)
Definition score_within (lo hi : Q) (s : score) : Prop :=
  ∃ v, s = Fin v ∧ (lo <= v)%Q ∧ (v <= hi)%Q.

(** Ascending order of scores, strict or with ties allowed. *)
Definition ascending (strict : bool) (ss : list score) : Prop :=
  StronglySorted (λ a b, (if strict then score_ltb a b else score_leb a b) = true) ss.

(** Descending order of scores, ties allowed. *)
Definition descending (ss : list score) : Prop :=
  StronglySorted (λ a b, score_leb b a = true) ss.

(** ** A small instance for the examples: one-dimensional embeddings with
    the absolute difference as distance *)

Definition ex_dist (_ : string) (x y : Q) : Q :=
  if Qle_bool x y then (y - x)%Q else (x - y)%Q.

Definition ex_doc (i : string) (e : Q) : Document Q := mkDoc i (Some e) [] [].

Definition ex_store (docs : list (Document Q)) : heap Q :=
  λ l, nth l docs (mkDoc EmptyString None [] []).

(** Five documents at 0, 5, 6, 1 and 4. *)
Definition ex_h : heap Q :=
  ex_store [ex_doc "a" 0; ex_doc "b" 5; ex_doc "c" 6; ex_doc "d" 1; ex_doc "e" 4].

(** Document [b] already carries a match from an earlier call. *)
Definition ex_h_nested : heap Q :=
  ex_store [ex_doc "a" 0; mkDoc "b" (Some 5%Q) [] [ex_doc "x" 9]].

(** Documents [b] and [c] are equally far from [a]. *)
Definition ex_h_tie : heap Q :=
  ex_store [ex_doc "a" 0; ex_doc "b" 5; ex_doc "c" 5].

(** Document [a] still lists itself from an earlier call. *)
Definition ex_h_stale : heap Q :=
  ex_store [mkDoc "a" (Some 0%Q) [] [ex_doc "a" 0]].

(** A query at 0 and two batches of three targets, at 1, 2, 4 and at 10, 25,
    30. *)
Definition ex_h_batches : heap Q :=
  ex_store [ex_doc "q" 0; ex_doc "a" 1; ex_doc "b" 2; ex_doc "c" 4;
            ex_doc "d" 10; ex_doc "e" 25; ex_doc "f" 30].

(** Document [b] carries a score from an earlier use. *)
Definition ex_h_scored : heap Q :=
  ex_store [ex_doc "a" 0; mkDoc "b" (Some 5%Q) [("cosine"%string, Fin (1 # 2))] []].

(** * The other methods of the mixin *)

(** ** [_get_embeddings]

    The dense embedding of a document is its buffer, here a list of entries
    of one dtype, together with the first dimension of its recorded shape.
    An array is a list of such documents; [indices] is a slice with
    non-negative bounds. *)

(** [l[start:stop]] for non-negative bounds. *)
Definition py_slice {A : Type} (start stop : nat) (l : list A) : list A :=
  take (stop - start) (drop start l).

(** [a.reshape((rows, cols))] on a flat array of [rows * cols] entries. *)
Fixpoint np_reshape {B : Type} (rows cols : nat) (flat : list B) : matrix B :=
  match rows with
  | 0 => []
  | S rows' => take cols flat :: np_reshape rows' cols (drop cols flat)
  end.

Section GetEmbeddings.
Context {B : Type}.

Record dense : Type := mkDense { buffer : list B; shape0 : nat }.

Definition _get_embeddings (self : list dense) (indices : option (nat * nat))
  : exn + matrix B :=
  let indices :=
    match indices with
    | None => (0, length self)
    | Some s => s
    end in
  let '(x_mat, len_slice) :=
    foldl (λ acc d, (acc.1 ++ buffer d, acc.2 + 1)) ([], 0)
      (py_slice indices.1 indices.2 self) in
  match self with
  | [] => inl IndexError   (* [self[0]] on an empty array *)
  | d0 :: _ =>
      if bool_decide (length x_mat = len_slice * shape0 d0)
      then inr (np_reshape len_slice (shape0 d0) x_mat)
      else inl ValueError  (* [reshape]: the sizes do not fit *)
  end.
End GetEmbeddings.

Arguments dense : clear implicits.

(** ** [plot_image_sprites]: the layout of the sprite

    The model computes the sizes and the cell of the sprite every document's
    image is written to; converting and resizing the images and drawing are
    outside of it.  Sizes are integers small enough for the float division
    and the float square root to be exact. *)

Inductive sprite_exn : Type :=
| EmptyArray           (* [ValueError]: the array is empty *)
| ZeroDivision         (* [ZeroDivisionError] *)
| NegativeDimensions.  (* [ValueError] of [np.zeros] *)

(** [ceil(sqrt(n))] *)
Definition ceil_sqrt (n : Z) : Z :=
  let s := Z.sqrt n in
  if (s * s =? n)%Z then s else (s + 1)%Z.

Section Sprites.
Context {D : Type}.

Record sprite : Type := mkSprite {
  img_size : Z;
  img_per_row : Z;
  actual_num_img : Z;
  cells : list (D * (Z * Z))   (* document, [(row_id, col_id)] *)
}.

(** The loop over the documents, from image number [img_id] on. *)
Fixpoint place (img_per_row max_num_img : Z) (ds : list D) (img_id : Z)
  : sprite_exn + list (D * (Z * Z)) :=
  match ds with
  | [] => inr []
  | d :: rest =>
      if (img_per_row =? 0)%Z then inl ZeroDivision
      else
        let row_id := (img_id / img_per_row)%Z in
        let col_id := (img_id mod img_per_row)%Z in
        let img_id := (img_id + 1)%Z in
        if (max_num_img <=? img_id)%Z then inr [(d, (row_id, col_id))]
        else
          match place img_per_row max_num_img rest img_id with
          | inl e => inl e
          | inr cs => inr ((d, (row_id, col_id)) :: cs)
          end
  end.

Definition plot_image_sprites (self : list D) (canvas_size min_size : Z)
  : sprite_exn + sprite :=
  match self with
  | [] => inl EmptyArray
  | _ :: _ =>
      let img_per_row := ceil_sqrt (Z.of_nat (length self)) in
      let img_size := (canvas_size ÷ img_per_row)%Z in
      let sizes :=
        if (img_size <? min_size)%Z then
          let img_size := min_size in
          if (img_size =? 0)%Z then inl ZeroDivision
          else inr (img_size, (canvas_size ÷ img_size)%Z)
        else inr (img_size, img_per_row) in
      match sizes with
      | inl e => inl e
      | inr (img_size, img_per_row) =>
          let max_num_img := (img_per_row ^ 2)%Z in
          if (img_size * img_per_row <? 0)%Z then inl NegativeDimensions
          else
            let actual_num_img := Z.min (Z.of_nat (length self)) max_num_img in
            match place img_per_row max_num_img self 0 with
            | inl e => inl e
            | inr cs => inr (mkSprite img_size img_per_row actual_num_img cs)
            end
      end
  end.
End Sprites.

Arguments sprite : clear implicits.

(** ** [plot_embeddings]: the colour numbers

    [tags] holds the value of the coloured attribute per document ([None]
    where reading it failed); [order] is the order in which [set(tags)] is
    iterated.  A dict is an association list with the newest entry first. *)

Section Colours.
Context {T : Type} `{EqDecision T}.

Definition dict_set (k : T) (v : nat) (d : list (T * nat)) : list (T * nat) :=
  (k, v) :: d.

Fixpoint dict_get (k : T) (d : list (T * nat)) : option nat :=
  match d with
  | [] => None
  | (k', v) :: d' => if decide (k = k') then Some v else dict_get k d'
  end.

(** [{tag: num for num, tag in enumerate(set(tags))}] *)
Definition tag_to_num (order : list T) : list (T * nat) :=
  foldl (λ d p, dict_set p.1 p.2 d) [] (enumerate order).

(** [[tag_to_num[ni] for ni in tags]]; a missing key raises [KeyError]. *)
Definition colours (order tags : list T) : option (list nat) :=
  mapM (λ ni, dict_get ni (tag_to_num order)) tags.
End Colours.

(** * Facts about the sort *)

Section SortFacts.
Context {A : Type} (leb : A → A → bool).
Hypothesis leb_total : ∀ x y, leb x y = true ∨ leb y x = true.
Hypothesis leb_trans : ∀ x y z, leb x y = true → leb y z = true → leb x z = true.

Local Abbreviation R := (le_of leb).
Local Notation "l1 ≈ l2" := (keq leb l1 l2) (at level 70).

Lemma leb_refl x : leb x x = true.
Proof. by destruct (leb_total x x). Qed.

Lemma leb_false_flip x y : leb x y = false → leb y x = true.
Proof. intros Hxy. destruct (leb_total x y) as [H|H]; congruence. Qed.

Lemma ins_perm x l : ins leb x l ≡ₚ x :: l.
Proof.
  induction l as [|y l IH]; simpl; [done|].
  destruct (leb x y); [done|].
  rewrite IH. apply perm_swap.
Qed.

Lemma isort_perm l : isort leb l ≡ₚ l.
Proof.
  induction l as [|x l IH]; simpl; [done|].
  by rewrite ins_perm, IH.
Qed.

Lemma length_ins x l : length (ins leb x l) = S (length l).
Proof. by rewrite ins_perm. Qed.

Lemma length_isort l : length (isort leb l) = length l.
Proof. by rewrite isort_perm. Qed.

Lemma ins_sorted x l : StronglySorted R l → StronglySorted R (ins leb x l).
Proof.
  induction 1 as [|y l Hl IH Hy]; simpl.
  - repeat constructor.
  - destruct (leb x y) eqn:Hxy.
    + constructor; [by constructor|].
      constructor; [done|].
      eapply Forall_impl; [exact Hy|]. intros z Hz. by eapply leb_trans.
    + constructor; [done|].
      rewrite ins_perm. constructor; [|done].
      by apply leb_false_flip.
Qed.

Lemma isort_sorted l : StronglySorted R (isort leb l).
Proof. induction l; simpl; [constructor|by apply ins_sorted]. Qed.

Lemma ins_below x l : Forall (R x) l → ins leb x l = x :: l.
Proof. destruct 1 as [|y l Hy _]; simpl; [done|]. by rewrite Hy. Qed.

Lemma isort_id l : StronglySorted R l → isort leb l = l.
Proof.
  induction 1 as [|y l Hl IH Hy]; simpl; [done|].
  rewrite IH. by apply ins_below.
Qed.

Lemma take_ins k x l : take k (ins leb x l) = take k (ins leb x (take k l)).
Proof.
  revert k. induction l as [|y l IH]; intros [|k]; simpl; try done.
  - destruct (leb x y); simpl; [|by rewrite IH].
    f_equal. destruct k; simpl; [done|]. by rewrite take_take, Nat.min_l by lia.
Qed.

Lemma isort_app a b : isort leb (a ++ b) = foldr (ins leb) (isort leb b) a.
Proof. induction a as [|x a IH]; simpl; [done|]. by rewrite IH. Qed.

Lemma take_foldr_ins k a b :
  take k (foldr (ins leb) b a) = foldr (keep leb k) (take k b) a.
Proof.
  induction a as [|x a IH]; simpl; [done|].
  unfold keep at 1. by rewrite take_ins, IH.
Qed.

Lemma smallest_app k a b :
  smallest leb k (a ++ b) = foldr (keep leb k) (smallest leb k b) a.
Proof. unfold smallest. by rewrite isort_app, take_foldr_ins. Qed.

Lemma smallest_foldr k a : smallest leb k a = foldr (keep leb k) [] a.
Proof.
  rewrite <-(app_nil_r a) at 1. rewrite smallest_app.
  unfold smallest. simpl. by rewrite take_nil.
Qed.

Lemma smallest_sorted k l : StronglySorted R (smallest leb k l).
Proof.
  unfold smallest. pose proof (isort_sorted l) as Hs.
  rewrite <-(take_drop k (isort leb l)) in Hs.
  by apply StronglySorted_app_1_l in Hs.
Qed.

Lemma length_smallest k l : length (smallest leb k l) = k `min` length l.
Proof. unfold smallest. by rewrite length_take, length_isort. Qed.

Lemma smallest_idemp k l : smallest leb k (smallest leb k l) = smallest leb k l.
Proof.
  unfold smallest at 1. rewrite isort_id by apply smallest_sorted.
  unfold smallest. apply take_idemp.
Qed.

Lemma smallest_submseteq k l : smallest leb k l ⊆+ l.
Proof.
  unfold smallest. etrans; [apply submseteq_take|].
  apply Permutation_submseteq, isort_perm.
Qed.

Lemma keep_sorted k x l : StronglySorted R l → StronglySorted R (keep leb k x l).
Proof.
  intros Hl. unfold keep. pose proof (ins_sorted x l Hl) as Hs.
  rewrite <-(take_drop k (ins leb x l)) in Hs.
  by apply StronglySorted_app_1_l in Hs.
Qed.

Lemma foldr_keep_sorted k a acc :
  StronglySorted R acc → StronglySorted R (foldr (keep leb k) acc a).
Proof. intros Hacc. induction a; simpl; [done|by apply keep_sorted]. Qed.

Lemma length_keep k x l : length (keep leb k x l) = k `min` S (length l).
Proof. unfold keep. by rewrite length_take, length_ins. Qed.

Lemma length_foldr_keep k a acc :
  length acc ≤ k → length (foldr (keep leb k) acc a) = k `min` (length a + length acc).
Proof.
  intros Hacc. induction a as [|x a IH]; simpl; [lia|].
  rewrite length_keep, IH. lia.
Qed.

(** Equivalence of entries and of lists of entries. *)

Lemma eqv_refl x : eqv leb x x.
Proof. split; apply leb_refl. Qed.

Lemma eqv_sym x y : eqv leb x y → eqv leb y x.
Proof. intros [? ?]. by split. Qed.

Lemma eqv_trans x y z : eqv leb x y → eqv leb y z → eqv leb x z.
Proof. intros [? ?] [? ?]. split; by eapply leb_trans. Qed.

Lemma keq_refl l : l ≈ l.
Proof. induction l; constructor; [apply eqv_refl|done]. Qed.

Lemma keq_sym l1 l2 : l1 ≈ l2 → l2 ≈ l1.
Proof. unfold keq. induction 1; constructor; [by apply eqv_sym|done]. Qed.

Lemma keq_trans l1 l2 l3 : l1 ≈ l2 → l2 ≈ l3 → l1 ≈ l3.
Proof.
  unfold keq. intros H. revert l3.
  induction H as [|x y l1 l2 Hxy _ IH]; intros l3 H3; inversion H3; subst.
  - constructor.
  - constructor; [by eapply eqv_trans|by apply IH].
Qed.

Lemma keq_of_eq l1 l2 : l1 = l2 → l1 ≈ l2.
Proof. intros ->. apply keq_refl. Qed.

Lemma keq_length l1 l2 : l1 ≈ l2 → length l1 = length l2.
Proof. apply Forall2_length. Qed.

Lemma leb_eqv_l x x' y : eqv leb x x' → leb x y = leb x' y.
Proof.
  intros [H1 H2]. destruct (leb x y) eqn:Hxy, (leb x' y) eqn:Hx'y; try done.
  - by rewrite (leb_trans _ _ _ H2 Hxy) in Hx'y.
  - by rewrite (leb_trans _ _ _ H1 Hx'y) in Hxy.
Qed.

Lemma leb_eqv_r x y y' : eqv leb y y' → leb x y = leb x y'.
Proof.
  intros [H1 H2]. destruct (leb x y) eqn:Hxy, (leb x y') eqn:Hxy'; try done.
  - by rewrite (leb_trans _ _ _ Hxy H1) in Hxy'.
  - by rewrite (leb_trans _ _ _ Hxy' H2) in Hxy.
Qed.

Lemma ins_keq x x' l l' : eqv leb x x' → l ≈ l' → ins leb x l ≈ ins leb x' l'.
Proof.
  intros Hx Hl. unfold keq in *.
  induction Hl as [|y y' l l' Hy Hl IH]; simpl.
  - constructor; [done|constructor].
  - rewrite (leb_eqv_l x x' y Hx), (leb_eqv_r x' y y' Hy).
    destruct (leb x' y').
    + constructor; [done|]. by constructor.
    + by constructor.
Qed.

Lemma take_keq k l l' : l ≈ l' → take k l ≈ take k l'.
Proof. apply Forall2_take. Qed.

Lemma keep_keq k x x' l l' : eqv leb x x' → l ≈ l' → keep leb k x l ≈ keep leb k x' l'.
Proof. intros. by apply take_keq, ins_keq. Qed.

Lemma foldr_keep_keq k a a' acc acc' :
  a ≈ a' → acc ≈ acc' → foldr (keep leb k) acc a ≈ foldr (keep leb k) acc' a'.
Proof.
  intros Ha Hacc. unfold keq in Ha.
  induction Ha; simpl; [done|by apply keep_keq].
Qed.

Lemma ins_comm x y l : ins leb x (ins leb y l) ≈ ins leb y (ins leb x l).
Proof.
  induction l as [|z l IH]; simpl.
  - destruct (leb x y) eqn:Hxy, (leb y x) eqn:Hyx; simpl;
      rewrite ?Hxy, ?Hyx; try apply keq_refl.
    + repeat constructor; done.
    + apply leb_false_flip in Hxy. congruence.
  - destruct (leb y z) eqn:Hyz, (leb x z) eqn:Hxz; simpl.
    + destruct (leb x y) eqn:Hxy, (leb y x) eqn:Hyx; simpl;
        rewrite ?Hyz, ?Hxz; try apply keq_refl.
      * constructor; [done|]. constructor; [by apply eqv_sym|]. apply keq_refl.
      * apply leb_false_flip in Hxy. congruence.
    + destruct (leb x y) eqn:Hxy.
      * by rewrite (leb_trans _ _ _ Hxy Hyz) in Hxz.
      * simpl. rewrite Hxz, Hyz. apply keq_refl.
    + rewrite Hxz. destruct (leb y x) eqn:Hyx.
      * by rewrite (leb_trans _ _ _ Hyx Hxz) in Hyz.
      * simpl. rewrite Hyz. apply keq_refl.
    + rewrite Hxz, Hyz. constructor; [apply eqv_refl|apply IH].
Qed.

Lemma keep_comm k x y l :
  keep leb k x (keep leb k y l) ≈ keep leb k y (keep leb k x l).
Proof.
  unfold keep. rewrite <-!take_ins. apply take_keq, ins_comm.
Qed.

Lemma foldr_keep_perm k a a' acc :
  a ≡ₚ a' → foldr (keep leb k) acc a ≈ foldr (keep leb k) acc a'.
Proof.
  induction 1 as [|x a a' _ IH|x y a|a a' a'' _ IH1 _ IH2]; simpl.
  - apply keq_refl.
  - apply keep_keq; [apply eqv_refl|done].
  - apply keep_comm.
  - by eapply keq_trans.
Qed.

Lemma smallest_perm k a a' : a ≡ₚ a' → smallest leb k a ≈ smallest leb k a'.
Proof. intros. rewrite !smallest_foldr. by apply foldr_keep_perm. Qed.

(** An entry that is not below any of the [k] kept ones is dropped again. *)

Lemma all_eqv_keq s l1 l2 :
  Forall (eqv leb s) l1 → Forall (eqv leb s) l2 → length l1 = length l2 → l1 ≈ l2.
Proof.
  intros H1. revert l2. unfold keq.
  induction H1 as [|x l1 Hx _ IH]; intros [|y l2] H2 Hlen; simplify_eq/=.
  - constructor.
  - inversion H2; subst. constructor; [|by apply IH].
    eapply eqv_trans; [by apply eqv_sym|done].
Qed.

Lemma keep_absorb k s l :
  StronglySorted R l → length l = k → Forall (λ r, R r s) l → keep leb k s l ≈ l.
Proof.
  intros Hl. revert k. unfold keep.
  induction Hl as [|y l Hl IH Hy]; intros k Hk Hs; simpl in *; subst k.
  - constructor.
  - inversion Hs as [|? ? Hys Hls]; subst.
    destruct (leb s y) eqn:Hsy; simpl.
    + apply (all_eqv_keq s).
      * constructor; [apply eqv_refl|].
        apply Forall_take. constructor; [by split|].
        apply Forall_forall. intros r Hr. split.
        -- eapply leb_trans; [exact Hsy|]. by eapply Forall_forall in Hy.
        -- by eapply Forall_forall in Hls.
      * constructor; [by split|].
        apply Forall_forall. intros r Hr. split.
        -- eapply leb_trans; [exact Hsy|]. by eapply Forall_forall in Hy.
        -- by eapply Forall_forall in Hls.
      * simpl. rewrite length_take. simpl. lia.
    + constructor; [apply eqv_refl|]. by apply IH.
Qed.

Lemma ins_bound s x j l :
  Forall (λ r, R r s) (take j l) → R x s →
  Forall (λ r, R r s) (take (S j) (ins leb x l)).
Proof.
  revert j. induction l as [|y l IH]; intros j Hj Hx; simpl.
  - by repeat constructor.
  - destruct (leb x y) eqn:Hxy; simpl.
    + by constructor.
    + destruct j as [|j]; simpl in *.
      * constructor; [|constructor].
        eapply leb_trans; [by apply leb_false_flip|done].
      * inversion Hj; subst. constructor; [done|]. by apply IH.
Qed.

Lemma foldr_keep_bound k s a acc :
  length a ≤ k → Forall (λ r, R r s) a →
  Forall (λ r, R r s) (take (length a) (foldr (keep leb k) acc a)).
Proof.
  induction a as [|x a IH]; intros Hlen Ha; simpl in *.
  - constructor.
  - inversion Ha; subst. unfold keep at 1.
    rewrite take_take, Nat.min_l by lia.
    apply ins_bound; [|done]. apply IH; [lia|done].
Qed.

Lemma foldr_keep_absorb k l t :
  StronglySorted R l → length l = k → Forall (λ s, Forall (λ r, R r s) l) t →
  foldr (keep leb k) l t ≈ l.
Proof.
  intros Hl Hk. induction 1 as [|s t Hs _ IH]; simpl.
  - apply keq_refl.
  - eapply keq_trans; [|by apply keep_absorb].
    apply keep_keq; [apply eqv_refl|done].
Qed.

(** Selecting from a selection: the entries cut off earlier would be cut off
    again. *)
Lemma smallest_smallest_app k x y :
  smallest leb k (smallest leb k x ++ y) ≈ smallest leb k (x ++ y).
Proof.
  rewrite !smallest_app.
  set (acc := smallest leb k y). set (s := isort leb x).
  assert (Hacc : StronglySorted R acc) by apply smallest_sorted.
  assert (Hlacc : length acc ≤ k).
  { unfold acc. rewrite length_smallest. lia. }
  apply keq_sym.
  eapply keq_trans.
  { apply foldr_keep_perm. symmetry. apply (isort_perm x). }
  fold s. unfold smallest. fold s.
  eapply keq_trans.
  { apply foldr_keep_perm. rewrite <-(take_drop k s) at 1. apply Permutation_app_comm. }
  rewrite foldr_app.
  destruct (decide (length s ≤ k)) as [Hle|Hgt].
  { rewrite (drop_ge s k) by done. apply keq_refl. }
  assert (Hlt : length (take k s) = k) by (rewrite length_take; lia).
  apply foldr_keep_absorb.
  - by apply foldr_keep_sorted.
  - rewrite length_foldr_keep by done. lia.
  - apply Forall_forall. intros b Hb.
    pose proof (foldr_keep_bound k b (take k s) acc) as Hbd.
    rewrite Hlt in Hbd. rewrite (take_ge (foldr _ _ _)) in Hbd.
    2:{ rewrite length_foldr_keep by done. lia. }
    apply Hbd; [lia|].
    apply Forall_forall. intros a Ha.
    pose proof (isort_sorted x) as Hs. fold s in Hs.
    rewrite <-(take_drop k s) in Hs.
    by eapply StronglySorted_app_1_elem_of in Hs.
Qed.

Lemma smallest_app_keq_r k x y y' :
  smallest leb k y ≈ smallest leb k y' →
  smallest leb k (x ++ y) ≈ smallest leb k (x ++ y').
Proof.
  intros Hy. rewrite !smallest_app. apply foldr_keep_keq; [apply keq_refl|done].
Qed.

Lemma smallest_concat_smallest k bs :
  smallest leb k (concat (smallest leb k <$> bs)) ≈ smallest leb k (concat bs).
Proof.
  induction bs as [|b bs IH]; simpl.
  - apply keq_refl.
  - eapply keq_trans; [apply smallest_smallest_app|].
    by apply smallest_app_keq_r.
Qed.

(** The running selection holds the smallest of everything seen so far. *)
Lemma running_keq k best locs :
  StronglySorted R best → length best ≤ k →
  running leb k best locs ≈ smallest leb k (best ++ concat locs).
Proof.
  revert best. induction locs as [|loc locs IH]; intros best Hs Hlen; simpl.
  - rewrite app_nil_r. unfold smallest.
    rewrite isort_id, take_ge by done. apply keq_refl.
  - eapply keq_trans.
    { apply IH; [apply smallest_sorted|]. rewrite length_smallest. lia. }
    rewrite (assoc_L (++)). apply smallest_smallest_app.
Qed.

Lemma running_submseteq k best locs :
  running leb k best locs ⊆+ best ++ concat locs.
Proof.
  revert best. induction locs as [|loc locs IH]; intros best; simpl.
  - by rewrite app_nil_r.
  - etrans; [apply IH|].
    rewrite (assoc_L (++)). apply submseteq_skips_r, smallest_submseteq.
Qed.

Lemma running_sorted k best locs :
  StronglySorted R best → StronglySorted R (running leb k best locs).
Proof.
  revert best. induction locs as [|loc locs IH]; intros best Hs; simpl; [done|].
  apply IH, smallest_sorted.
Qed.

Lemma length_running k best locs :
  length best = k → length (running leb k best locs) = k.
Proof.
  revert best. induction locs as [|loc locs IH]; intros best Hs; simpl; [done|].
  apply IH. rewrite length_smallest, length_app. lia.
Qed.

(** Placeholders that are above everything leave once [k] real candidates
    have been seen. *)
Lemma smallest_pads k pads all :
  Forall (λ p, ∀ a, R a p) pads → k ≤ length all →
  smallest leb k (pads ++ all) ≈ smallest leb k all.
Proof.
  intros Hp Hk. rewrite smallest_app. apply foldr_keep_absorb.
  - apply smallest_sorted.
  - rewrite length_smallest. lia.
  - eapply Forall_impl; [exact Hp|]. intros p Hpa. simpl in Hpa.
    apply Forall_forall. intros a _. apply Hpa.
Qed.
End SortFacts.

(** * The order on scores *)

Lemma score_leb_total a b : score_leb a b = true ∨ score_leb b a = true.
Proof.
  destruct a as [x|], b as [y|]; simpl; auto.
  destruct (Qle_bool x y) eqn:H; [by left|right].
  apply Qle_bool_iff. apply Qlt_le_weak, Qnot_le_lt. intros Hxy.
  apply Qle_bool_iff in Hxy. congruence.
Qed.

Lemma score_leb_trans a b c :
  score_leb a b = true → score_leb b c = true → score_leb a c = true.
Proof.
  destruct a as [x|], b as [y|], c as [z|]; simpl; try done.
  rewrite !Qle_bool_iff. apply Qle_trans.
Qed.

Lemma Qle_bool_total x y : Qle_bool x y = true ∨ Qle_bool y x = true.
Proof. apply (score_leb_total (Fin x) (Fin y)). Qed.

Lemma Qle_bool_trans x y z :
  Qle_bool x y = true → Qle_bool y z = true → Qle_bool x z = true.
Proof. apply (score_leb_trans (Fin x) (Fin y) (Fin z)). Qed.

Lemma score_eqv_eq a b : eqv score_leb a b ↔ score_eq a b.
Proof.
  unfold eqv. destruct a as [x|], b as [y|]; simpl; try (split; [intros [? ?]|]; done).
  rewrite !Qle_bool_iff. split.
  - intros [? ?]. by apply Qle_antisym.
  - intros ->. split; apply Qle_refl.
Qed.

Section ByKey.
Context {V I : Type} (leb : V → V → bool).
Hypothesis leb_total : ∀ x y, leb x y = true ∨ leb y x = true.
Hypothesis leb_trans : ∀ x y z, leb x y = true → leb y z = true → leb x z = true.

Lemma by_key_total (p q : V * I) : by_key leb p q = true ∨ by_key leb q p = true.
Proof. apply leb_total. Qed.

Lemma by_key_trans (p q r : V * I) :
  by_key leb p q = true → by_key leb q r = true → by_key leb p r = true.
Proof. apply leb_trans. Qed.
End ByKey.

Lemma pk_total {I : Type} (p q : score * I) :
  by_key score_leb p q = true ∨ by_key score_leb q p = true.
Proof. apply by_key_total, score_leb_total. Qed.

Lemma pk_trans {I : Type} (p q r : score * I) :
  by_key score_leb p q = true → by_key score_leb q r = true →
  by_key score_leb p r = true.
Proof. apply by_key_trans, score_leb_trans. Qed.

(** Sorting commutes with a map that respects the order. *)
Section SortMap.
Context {A B : Type} (lebA : A → A → bool) (lebB : B → B → bool) (g : A → B).
Hypothesis g_leb : ∀ x y, lebB (g x) (g y) = lebA x y.

Lemma ins_fmap x l : g <$> ins lebA x l = ins lebB (g x) (g <$> l).
Proof.
  induction l as [|y l IH]; csimpl; [done|].
  rewrite g_leb. destruct (lebA x y); csimpl; [done|]. by rewrite IH.
Qed.

Lemma isort_fmap l : g <$> isort lebA l = isort lebB (g <$> l).
Proof. induction l as [|x l IH]; csimpl; [done|]. by rewrite ins_fmap, IH. Qed.

Lemma smallest_fmap k l : g <$> smallest lebA k l = smallest lebB k (g <$> l).
Proof. unfold smallest. by rewrite fmap_take, isort_fmap. Qed.
End SortMap.

(** * numpy's [argsort] followed by [take_along_axis] *)

Section Argsort.
Context {V : Type} (leb : V → V → bool).

Lemma enumerate_lookup (row : list V) d :
  Forall (λ p : V * nat, nth p.2 row d = p.1) (enumerate row).
Proof.
  unfold enumerate.
  assert (∀ s (pre : list V),
    length pre = s →
    Forall (λ p : V * nat, nth p.2 (pre ++ row) d = p.1) (zip row (seq s (length row)))) as H.
  { induction row as [|v row IH]; intros s pre Hs; simpl; [constructor|].
    constructor.
    - simpl. rewrite app_nth2 by lia. by rewrite Hs, Nat.sub_diag.
    - specialize (IH (S s) (pre ++ [v])).
      rewrite <-(assoc_L (++)) in IH. apply IH. rewrite length_app. simpl. lia. }
  apply (H 0 []). done.
Qed.

Lemma take_argsort_values (row : list V) d :
  (λ j, nth j row d) <$> argsort_row leb row = (isort (by_key leb) (enumerate row)).*1.
Proof.
  unfold argsort_row. rewrite <-list_fmap_compose.
  apply Forall_fmap_ext_1.
  pose proof (enumerate_lookup row d) as H.
  assert (Hp : isort (by_key leb) (enumerate row) ≡ₚ enumerate row).
  { clear. induction (enumerate row) as [|x l IH]; simpl; [done|].
    rewrite <-IH at 2. clear IH. generalize (isort (by_key leb) l) as m.
    induction m as [|y m IH]; simpl; [done|].
    destruct (by_key leb x y); [done|]. rewrite IH. apply perm_swap. }
  by rewrite Hp.
Qed.

Lemma enumerate_relabel {I : Type} (row : list V) (ix : list I) (d : I) :
  length ix = length row →
  (λ p : V * nat, (p.1, nth p.2 ix d)) <$> enumerate row = zip row ix.
Proof.
  intros Hlen. unfold enumerate. rewrite <-Hlen. clear Hlen.
  change (λ p : V * nat, (p.1, nth p.2 ix d))
    with (prod_map (@Datatypes.id V) (λ j, nth j ix d)).
  rewrite prod_map_zip, list_fmap_id.
  revert row.
  assert (∀ (pre : list I) (row : list V),
    zip row ((λ j, nth j (pre ++ ix) d) <$> seq (length pre) (length ix))
    = zip row ix) as H.
  { induction ix as [|i ix' IH]; intros pre row; csimpl; [done|].
    destruct row as [|v row]; csimpl; [done|].
    rewrite app_nth2 by lia. rewrite Nat.sub_diag. simpl. f_equal.
    specialize (IH (pre ++ [i]) row).
    rewrite <-(assoc_L (++)), length_app in IH. simpl in IH.
    by rewrite Nat.add_1_r in IH. }
  intros row. apply (H [] row).
Qed.

Lemma take_argsort_other {I : Type} (row : list V) (ix : list I) (d : I) :
  length ix = length row →
  (λ j, nth j ix d) <$> argsort_row leb row = (isort (by_key leb) (zip row ix)).*2.
Proof.
  intros Hlen. unfold argsort_row.
  rewrite <-(enumerate_relabel row ix d Hlen).
  rewrite <-(isort_fmap (by_key leb) (by_key leb)) by done.
  by rewrite <-!list_fmap_compose.
Qed.

Lemma take_argsort_self {I : Type} (row : list V) (ix : list I) (d : V) (di : I) :
  length ix = length row →
  (λ j, nth j row d) <$> argsort_row leb row = (isort (by_key leb) (zip row ix)).*1.
Proof.
  intros Hlen. rewrite take_argsort_values.
  rewrite <-(enumerate_relabel row ix di Hlen).
  rewrite <-(isort_fmap (by_key leb) (by_key leb)) by done.
  by rewrite <-!list_fmap_compose.
Qed.
End Argsort.

(** * The matchers work row by row *)

Lemma zip_with_fmap_same {A B C D : Type} (f : B → C → D) (g : A → B) (h : A → C) l :
  zip_with f (g <$> l) (h <$> l) = (λ x, f (g x) (h x)) <$> l.
Proof. by rewrite zip_with_fmap_l, zip_with_fmap_r, zip_with_diag. Qed.

Lemma replicate_length_fmap {A B : Type} (l : list A) (c : B) :
  replicate (length l) c = (λ _, c) <$> l.
Proof. symmetry. by apply const_fmap. Qed.

Lemma pads_sorted k :
  StronglySorted (le_of (by_key score_leb)) (replicate k (Inf, 0)).
Proof.
  induction k as [|k IH]; simpl; constructor; [done|].
  apply Forall_forall. by intros p ->%elem_of_replicate_inv.
Qed.

Section Rows.
Context {E : Type} (dist : string → E → E → Q).

Lemma _match_rows x_mat y_mat limit normalization metric_name :
  _match x_mat y_mat (cdist_of dist) limit normalization metric_name
  = ((λ x, (match_row dist limit normalization metric_name y_mat x).1) <$> x_mat,
     (λ x, (match_row dist limit normalization metric_name y_mat x).2) <$> x_mat).
Proof.
  unfold _match, top_k, cdist_of, match_row, minmax_normalize.
  destruct normalization as [t|]; simpl; rewrite <-?list_fmap_compose;
    f_equal.
  rewrite !zip_with_fmap_same. done.
Qed.

Lemma online_step_rows x_mat limit normalization metric_name
    (P : E → list (score * nat)) batch :
  online_step x_mat (cdist_of dist) limit normalization metric_name
    ((λ x, (P x).*1) <$> x_mat, (λ x, (P x).*2) <$> x_mat) batch
  = ((λ x, (smallest (by_key score_leb) limit
              (P x ++ batch_row dist limit normalization metric_name x batch)).*1)
       <$> x_mat,
     (λ x, (smallest (by_key score_leb) limit
              (P x ++ batch_row dist limit normalization metric_name x batch)).*2)
       <$> x_mat).
Proof.
  destruct batch as [y_batch start].
  unfold online_step, top_k, cdist_of, update_rows_x_mat_best, minmax_normalize.
  assert (Hrow : ∀ x,
    update_row (P x).*1 (P x).*2
      (Fin <$> match normalization with
               | Some t =>
                   let tk := top_k_row Qle_bool (dist metric_name x <$> y_batch) limit in
                   rescale t (row_min tk.*1) (row_max tk.*1) <$> tk.*1
               | None =>
                   (top_k_row Qle_bool (dist metric_name x <$> y_batch) limit).*1
               end)
      ((λ j, start + j)
         <$> (top_k_row Qle_bool (dist metric_name x <$> y_batch) limit).*2) limit
    = smallest (by_key score_leb) limit
        (P x ++ batch_row dist limit normalization metric_name x (y_batch, start))).
  { intros x. unfold update_row, smallest, batch_row. simpl.
    rewrite zip_with_app by (by rewrite !length_fmap).
    rewrite zip_fst_snd. by destruct normalization. }
  destruct normalization as [t|]; simpl; rewrite <-?list_fmap_compose;
    rewrite ?zip_with_fmap_same; rewrite <-?list_fmap_compose;
    rewrite ?zip_with_fmap_same; rewrite <-?list_fmap_compose;
    f_equal; apply list_fmap_ext; intros _ x _; simpl; by rewrite <-Hrow.
Qed.

Lemma foldl_online_step_rows x_mat limit normalization metric_name
    (ys : list (list E * nat)) :
  ∀ P : E → list (score * nat),
  foldl (online_step x_mat (cdist_of dist) limit normalization metric_name)
    ((λ x, (P x).*1) <$> x_mat, (λ x, (P x).*2) <$> x_mat) ys
  = ((λ x, (running (by_key score_leb) limit (P x)
              (batch_row dist limit normalization metric_name x <$> ys)).*1)
       <$> x_mat,
     (λ x, (running (by_key score_leb) limit (P x)
              (batch_row dist limit normalization metric_name x <$> ys)).*2)
       <$> x_mat).
Proof.
  induction ys as [|b bs IH]; intros P; simpl; [done|].
  rewrite online_step_rows. apply (IH (λ x, smallest _ _ (P x ++ _))).
Qed.

Lemma batch_generator_pos (y_darray : list E) n :
  1 ≤ n → batch_generator y_darray n = inr (batches y_darray n).
Proof.
  intros Hn. unfold batch_generator.
  by destruct (Nat.eqb_spec n 0) as [|_]; [lia|].
Qed.

Lemma _match_online_rows x_mat y_darray limit normalization metric_name batch_size :
  y_darray ≠ [] → 1 ≤ batch_size →
  _match_online x_mat y_darray (cdist_of dist) limit normalization metric_name batch_size
  = inr ((λ x, (online_row dist limit normalization metric_name y_darray batch_size x).*1)
           <$> x_mat,
         (λ x, (online_row dist limit normalization metric_name y_darray batch_size x).*2)
           <$> x_mat).
Proof.
  intros Hy Hn. unfold _match_online.
  destruct y_darray as [|y0 y']; [done|].
  rewrite batch_generator_pos by done.
  remember (y0 :: y') as y_darray eqn:Hyd. clear Hy Hyd y0 y'.
  rewrite !replicate_length_fmap.
  pose proof (foldl_online_step_rows x_mat limit normalization metric_name
    (batches y_darray batch_size) (λ _, replicate limit (Inf, 0))) as H.
  simpl in H. rewrite !fmap_replicate in H. simpl in H. rewrite H. clear H.
  unfold argsort, take_along_axis.
  rewrite <-?list_fmap_compose, !zip_with_fmap_same.
  fold (online_row dist limit normalization metric_name y_darray batch_size).
  assert (Hs : ∀ x, isort (by_key score_leb)
      (online_row dist limit normalization metric_name y_darray batch_size x)
    = online_row dist limit normalization metric_name y_darray batch_size x).
  { intros x. apply isort_id.
    apply (running_sorted _ pk_total pk_trans), pads_sorted. }
  do 2 f_equal; apply list_fmap_ext; intros _ x _; simpl;
    change (running _ _ _ _)
      with (online_row dist limit normalization metric_name y_darray batch_size x).
  - rewrite (take_argsort_self score_leb _ (online_row _ _ _ _ _ _ x).*2 Inf 0)
      by (by rewrite !length_fmap).
    by rewrite zip_fst_snd, Hs.
  - rewrite (take_argsort_other score_leb _ (online_row _ _ _ _ _ _ x).*2 0)
      by (by rewrite !length_fmap).
    by rewrite zip_fst_snd, Hs.
Qed.
End Rows.

(** * The loops that attach the matches *)

Section Assemble.
Context {E : Type}.
Implicit Types (h : heap E) (d m : Document E).

Lemma agree_refl lhv h : agree lhv h h.
Proof. by intros l. Qed.

Lemma agree_upd_matches lhv h h0 q ms :
  q ∈ lhv → agree lhv h h0 → agree lhv (upd h q (set_matches (h q) ms)) h0.
Proof.
  intros Hq Hh l. specialize (Hh l). unfold upd.
  destruct (decide (l = q)) as [->|]; simpl; [|done].
  destruct Hh as (? & ? & ? & ?). by repeat split.
Qed.

Lemma contains_agree lhv h h0 i :
  agree lhv h h0 → contains h lhv i = contains h0 lhv i.
Proof.
  intros Hh. unfold contains. f_equal.
  assert ((λ l, id (h l)) <$> lhv = (λ l, id (h0 l)) <$> lhv) as ->; [|done].
  apply list_fmap_ext. intros _ l _. apply Hh.
Qed.

Lemma contains_elem h lhv q : q ∈ lhv → contains h lhv (id (h q)) = true.
Proof.
  intros Hq. unfold contains. apply bool_decide_eq_true.
  apply list_elem_of_fmap. by exists q.
Qed.

Lemma attached_agree lhv rhv only_id metric_name h h0 c :
  agree lhv h h0 →
  attached h lhv rhv only_id metric_name c = attached h0 lhv rhv only_id metric_name c.
Proof.
  intros Hh. unfold attached, resolve.
  set (p := nth c.1 rhv 0).
  destruct (Hh p) as (Hid & Hemb & Hsc & Hout).
  destruct only_id; simpl.
  - rewrite Hid. by rewrite (contains_agree lhv h h0).
  - rewrite Hid, (contains_agree lhv h h0) by done.
    destruct (contains h0 lhv (id (h0 p))) eqn:Hc; simpl.
    + by rewrite Hid, Hemb, Hsc.
    + rewrite Hout; [done|]. intros Hp.
      by rewrite (contains_elem h0 lhv p) in Hc.
Qed.

Lemma assemble_row_spec lhv rhv metric_name exclude_self only_id stop q h0 :
  q ∈ lhv →
  ∀ cands num_matches h,
    agree lhv h h0 → num_matches < stop ∨ cands = [] →
    let h' := assemble_row lhv rhv metric_name exclude_self only_id stop
                q cands num_matches h in
    agree lhv h' h0 ∧ (∀ l, l ≠ q → h' l = h l)
    ∧ matches (h' q)
      = matches (h q)
        ++ take (stop - num_matches)
             (List.filter (kept exclude_self (id (h0 q)))
                (attached h0 lhv rhv only_id metric_name <$> cands)).
Proof.
  intros Hq. induction cands as [|[_id _dist] rest IH]; intros num h Hh Hnum; simpl.
  - rewrite take_nil, app_nil_r. done.
  - destruct Hnum as [Hnum|?]; [|done].
    pose proof (attached_agree lhv rhv only_id metric_name h h0 (_id, _dist) Hh) as Hatt.
    unfold attached in Hatt at 1. simpl in Hatt.
    set (d := if contains h lhv (id (resolve h rhv only_id _id))
              then set_matches (resolve h rhv only_id _id) []
              else resolve h rhv only_id _id) in *.
    set (m := attached h0 lhv rhv only_id metric_name (_id, _dist)) in *.
    assert (Hidm : id m = id d) by (by rewrite <-Hatt).
    assert (Hidq : id (h q) = id (h0 q)) by apply Hh.
    rewrite Hidq. unfold kept at 1. rewrite Hidm.
    destruct (negb (bool_decide (id d = id (h0 q)) && exclude_self)) eqn:Hkeep.
    + unfold append_match. rewrite Hatt.
      set (h1 := upd h q (set_matches (h q) (matches (h q) ++ [m]))).
      assert (Hh1 : agree lhv h1 h0) by (by apply agree_upd_matches).
      assert (Hm1 : matches (h1 q) = matches (h q) ++ [m]).
      { unfold h1, upd. by rewrite decide_True. }
      assert (Ho1 : ∀ l, l ≠ q → h1 l = h l).
      { intros l Hl. unfold h1, upd. by rewrite decide_False. }
      destruct (stop <=? num + 1) eqn:Hstop.
      * apply Nat.leb_le in Hstop.
        replace (stop - num) with 1 by lia. simpl. rewrite take_0. done.
      * apply Nat.leb_gt in Hstop.
        destruct (IH (num + 1) h1 Hh1 (or_introl Hstop)) as (Ha & Ho & Hm).
        split; [done|]. split.
        -- intros l Hl. rewrite Ho by done. by apply Ho1.
        -- rewrite Hm, Hm1, <-(assoc_L (++)). f_equal.
           replace (stop - num) with (S (stop - (num + 1))) by lia. done.
    + destruct (IH num h Hh (or_introl Hnum)) as (Ha & Ho & Hm). done.
Qed.

Lemma assemble_spec lhv rhv metric_name exclude_self only_id stop h0 :
  ∀ (rows : list (loc * (list nat * list score))) h,
    Forall (λ r, 0 < stop ∨ zip r.2.1 r.2.2 = []) rows →
    Forall (λ r, r.1 ∈ lhv) rows → agree lhv h h0 →
    let h' :=
      foldl (λ h row,
               let '(_q, (_ids, _dists)) := row in
               let h := upd h _q (set_matches (h _q) []) in
               assemble_row lhv rhv metric_name exclude_self only_id stop
                 _q (zip _ids _dists) 0 h) h rows in
    agree lhv h' h0
    ∧ (∀ l, l ∉ rows.*1 → h' l = h l)
    ∧ (∀ l, l ∈ rows.*1 →
         ∃ r, r ∈ rows ∧ r.1 = l
              ∧ matches (h' l)
                = ranked h0 lhv rhv metric_name exclude_self only_id stop l
                    (zip r.2.1 r.2.2)).
Proof.
  induction rows as [|[q [ids dists]] rows IH]; intros h Hstops Hrows Hh.
  - simpl. split; [done|]. split; [done|]. intros l Hl. by apply elem_of_nil in Hl.
  - inversion Hrows as [|? ? Hq Hrows']; subst. simpl in Hq.
    inversion Hstops as [|? ? Hstop Hstops']; subst. simpl in Hstop.
    cbn [foldl]. cbv zeta.
    set (h1 := upd h q (set_matches (h q) [])).
    assert (Hh1 : agree lhv h1 h0) by (by apply agree_upd_matches).
    destruct (assemble_row_spec lhv rhv metric_name exclude_self only_id stop q h0
                Hq (zip ids dists) 0 h1 Hh1 Hstop) as (Ha2 & Ho2 & Hm2).
    set (h2 := assemble_row lhv rhv metric_name exclude_self only_id stop q
                 (zip ids dists) 0 h1) in *.
    destruct (IH h2 Hstops' Hrows' Ha2) as (Ha & Ho & Hm).
    split; [done|]. split.
    + intros l Hl. csimpl in Hl. apply not_elem_of_cons in Hl as [Hlq Hl].
      rewrite Ho by done. rewrite Ho2 by done. unfold h1, upd. by rewrite decide_False.
    + intros l Hl. destruct (decide (l ∈ rows.*1)) as [Hin|Hnin].
      * destruct (Hm l Hin) as (r & Hr & Hr1 & Hr2). exists r.
        split; [by right|done].
      * csimpl in Hl. apply elem_of_cons in Hl as [->|Hl]; [|done].
        exists (q, (ids, dists)). split; [by left|]. split; [done|].
        rewrite Ho by done. rewrite Hm2. unfold ranked. simpl.
        unfold h1, upd. rewrite decide_True by done. simpl.
        by rewrite Nat.sub_0_r.
Qed.
End Assemble.

(** * What a call of [match] that reaches the loops leaves behind *)

Section MatchSpec.
Context {E : Type} (library_dist : string → E → E → Q).
Implicit Types (h : heap E) (metric : Metric E).

Lemma embeddings_Some h da x_mat :
  embeddings h da = Some x_mat ↔ Forall2 (λ l x, embedding (h l) = Some x) da x_mat.
Proof. apply mapM_Some. Qed.

Lemma rows_of_zip {R : Type} h lhv x_mat (f : E → R) :
  Forall2 (λ l x, embedding (h l) = Some x) lhv x_mat →
  (zip lhv (f <$> x_mat)).*1 = lhv
  ∧ Forall (λ r, ∃ x, embedding (h r.1) = Some x ∧ r.2 = f x) (zip lhv (f <$> x_mat)).
Proof.
  induction 1 as [|l x lhv x_mat Hlx _ [IH1 IH2]]; csimpl.
  - split; [done|constructor].
  - split; [by rewrite IH1|]. constructor; [|done]. by exists x.
Qed.

Lemma py_int_inject_Z z : py_int (inject_Z z) = z.
Proof. unfold py_int. simpl. apply Z.quot_1_r. Qed.

Lemma py_int_nonneg l : (0 < l)%Q → (0 ≤ py_int l)%Z.
Proof.
  unfold py_int, Qlt. simpl. intros Hl. apply Z.quot_pos; lia.
Qed.

Lemma py_int_pos l : (1 <= l)%Q → (1 ≤ py_int l)%Z.
Proof.
  unfold py_int, Qle. simpl. intros Hl.
  rewrite Z.quot_div_nonneg by lia.
  apply Z.div_le_lower_bound; lia.
Qed.

Lemma py_int_small l : (0 < l)%Q → (l < 1)%Q → py_int l = 0%Z.
Proof.
  unfold py_int, Qlt. simpl. intros H0 H1. apply Z.quot_small. lia.
Qed.

Lemma py_int_le l : (0 < l)%Q → (inject_Z (py_int l) <= l)%Q.
Proof.
  unfold py_int, Qlt, Qle, inject_Z. simpl. intros Hl.
  rewrite Z.quot_div_nonneg by lia. rewrite Z.mul_1_r, Z.mul_comm.
  apply Z.mul_div_le. lia.
Qed.

Lemma nonpositive_limit_false l : nonpositive_limit (Some l) = false → (0 < l)%Q.
Proof.
  simpl. intros H. apply Qnot_le_lt. intros Hle.
  apply Qle_bool_iff in Hle. congruence.
Qed.

(** A limit of zero leaves no candidates. *)
Lemma cands_of_nil metric limit normalization metric_name batch_size
    exclude_self rhv (y_mat : list E) x :
  limit_of limit exclude_self rhv = 0 →
  cands_of library_dist metric limit normalization metric_name batch_size
    exclude_self rhv y_mat x = [].
Proof.
  intros H0. unfold cands_of. rewrite H0. destruct batch_size as [b|].
  - cbv zeta.
    assert (Hnil : online_row (dist_of library_dist metric) 0 normalization
                     (name_of metric metric_name) y_mat (Z.to_nat b) x = []).
    { apply nil_length_inv. unfold online_row. by apply length_running. }
    by rewrite Hnil.
  - unfold match_row, top_k_row. simpl. by destruct normalization.
Qed.

(** The limit after [int] is positive, or zero with nothing to rank. *)
Lemma stop_of_cases limit exclude_self rhv :
  nonpositive_limit limit = false → rhv ≠ [] →
  0 < stop_of (py_int <$> limit) exclude_self rhv
  ∨ limit_of (py_int <$> limit) exclude_self rhv = 0.
Proof.
  intros Hlim Hr. unfold stop_of, limit_of.
  destruct limit as [l|]; csimpl.
  - apply nonpositive_limit_false, py_int_nonneg in Hlim.
    destruct (Z.eqb_spec (py_int l) 0) as [->|]; [|lia].
    destruct exclude_self; simpl; [left; lia|by right].
  - left. destruct rhv; simpl; [done|lia].
Qed.

Theorem match_spec lhv rhv metric limit normalization metric_name batch_size
    exclude_self only_id h x_mat y_mat :
  nonpositive_limit limit = false → nonpositive batch_size = false →
  lhv ≠ [] → rhv ≠ [] → metric ≠ MetricOther →
  embeddings h lhv = Some x_mat → embeddings h rhv = Some y_mat →
  ∃ h',
    match_ library_dist lhv rhv metric limit normalization metric_name batch_size
      exclude_self only_id h = (Returned, h')
    ∧ agree lhv h' h
    ∧ (∀ l, l ∉ lhv → h' l = h l)
    ∧ (∀ l x, l ∈ lhv → embedding (h l) = Some x →
         matches (h' l)
         = ranked h lhv rhv (name_of metric metric_name) exclude_self only_id
             (stop_of (py_int <$> limit) exclude_self rhv) l
             (cands_of library_dist metric (py_int <$> limit) normalization
                metric_name batch_size exclude_self rhv y_mat x)).
Proof.
  intros Hlim Hbat Hl Hr Hmet Hx Hy. unfold match_.
  pose proof (stop_of_cases limit exclude_self rhv Hlim Hr) as Hpos.
  rewrite Hlim, Hbat, Hx, Hy. clear Hlim.
  generalize dependent (py_int <$> limit). clear limit. intros limit Hpos.
  rewrite !bool_decide_eq_true_2 by done. cbn [andb negb]. cbv zeta.
  set (name := match metric_name with
               | Some s => if bool_decide (s = EmptyString) then _ else s
               | None => _ end).
  assert (Hname : name = name_of metric metric_name).
  { unfold name, name_of. by destruct metric, metric_name. }
  set (cd := match metric with MetricName _ => _ | MetricCallable _ f => _
                          | MetricOther => _ end).
  assert (Hcd : cd = Some (cdist_of (dist_of library_dist metric))).
  { unfold cd. by destruct metric. }
  rewrite Hcd. clear cd Hcd.
  set (_limit := limit_of limit exclude_self rhv).
  set (stop := stop_of limit exclude_self rhv).
  assert (Hstop : stop = stop_of limit exclude_self rhv) by done.
  assert (Hne : y_mat ≠ []).
  { intros ->. apply embeddings_Some, Forall2_length in Hy. by destruct rhv. }
  apply embeddings_Some in Hx.
  set (row := cands_of library_dist metric limit normalization metric_name
                batch_size exclude_self rhv y_mat).
  set (pair := match batch_size with Some b => _ | None => _ end).
  assert (Hpair : pair
                  = inr ((λ x, (row x).*2) <$> x_mat, (λ x, (row x).*1) <$> x_mat)).
  { unfold pair, row, cands_of. rewrite Hname. destruct batch_size as [b|].
    - rewrite _match_online_rows; [|done|simpl in Hbat; apply Z.leb_gt in Hbat; lia].
      do 2 f_equal; apply list_fmap_ext; intros _ x _; simpl.
      + rewrite snd_zip; [done|]. by rewrite !length_fmap.
      + rewrite fst_zip; [done|]. by rewrite !length_fmap.
    - rewrite _match_rows. rewrite <-list_fmap_compose.
      do 2 f_equal; apply list_fmap_ext; intros _ x _; simpl.
      + rewrite snd_zip; [done|]. unfold match_row. simpl.
        destruct normalization; by rewrite !length_fmap.
      + rewrite fst_zip; [done|]. unfold match_row. simpl.
        destruct normalization; by rewrite !length_fmap. }
  rewrite Hpair. clear pair Hpair. cbv beta iota zeta.
  unfold assemble.
  rewrite zip_with_fmap_same.
  destruct (rows_of_zip h lhv x_mat (λ x, ((row x).*1, (row x).*2)) Hx) as [Hfst Hrows].
  destruct (assemble_spec lhv rhv name exclude_self only_id stop h
              (zip lhv ((λ x, ((row x).*1, (row x).*2)) <$> x_mat)) h) as (Ha & Ho & Hm).
  { eapply Forall_impl; [exact Hrows|].
    intros r (x & _ & ->). cbn [fst snd]. rewrite zip_fst_snd.
    destruct Hpos as [Hpos|Hzero]; [left; by rewrite Hstop|right].
    by apply cands_of_nil. }
  { eapply Forall_impl; [apply Forall_forall; intros r Hr'; exact Hr'|].
    intros r Hr'. simpl. rewrite <-Hfst. apply list_elem_of_fmap. by exists r. }
  { apply agree_refl. }
  cbv zeta in Ha, Ho, Hm.
  set (hf := foldl _ h _) in *.
  exists hf. split; [done|]. split; [done|]. rewrite Hfst in Ho, Hm.
  split; [done|].
  intros l x Hlin Hlx. destruct (Hm l Hlin) as (r & Hr' & Hr1 & Hr2).
  rewrite Hr2. rewrite <-Hname. f_equal.
  eapply Forall_forall in Hrows as (x' & Hx' & Hr2'); [|exact Hr'].
  rewrite Hr1 in Hx'. assert (x' = x) as -> by congruence.
  rewrite Hr2'. simpl. apply zip_fst_snd.
Qed.
End MatchSpec.

(** * Properties of the attached match lists *)

Lemma List_filter_fmap {A B : Type} (f : B → bool) (g : A → B) (l : list A) :
  List.filter f (g <$> l) = g <$> List.filter (λ a, f (g a)) l.
Proof.
  induction l as [|a l IH]; csimpl; [done|].
  destruct (f (g a)); csimpl; by rewrite IH.
Qed.

Lemma List_filter_sublist {A : Type} (f : A → bool) (l : list A) :
  List.filter f l `sublist_of` l.
Proof.
  induction l as [|a l IH]; simpl; [done|].
  destruct (f a); by constructor.
Qed.

Lemma StronglySorted_sublist {A : Type} (R : A → A → Prop) (l1 l2 : list A) :
  l1 `sublist_of` l2 → StronglySorted R l2 → StronglySorted R l1.
Proof.
  induction 1 as [|x l1 l2 Hsub IH|x l1 l2 Hsub IH]; intros Hs.
  - constructor.
  - apply StronglySorted_inv in Hs as [Hs Hx]. constructor; [by apply IH|].
    apply Forall_forall. intros y Hy. eapply Forall_forall in Hx; [done|].
    by eapply elem_of_sublist.
  - apply StronglySorted_inv in Hs as [Hs _]. by apply IH.
Qed.

Section Ranked.
Context {E : Type}.
Implicit Types (h : heap E) (d m : Document E).

(** The candidates that survive the self filter and the cut at [stop]. *)
Lemma ranked_attached h lhv rhv metric_name exclude_self only_id stop q cands :
  ranked h lhv rhv metric_name exclude_self only_id stop q cands
  = attached h lhv rhv only_id metric_name
      <$> take stop
            (List.filter
               (λ c, kept exclude_self (id (h q))
                       (attached h lhv rhv only_id metric_name c)) cands).
Proof. unfold ranked. by rewrite List_filter_fmap, fmap_take. Qed.

Lemma ranked_sublist h lhv rhv metric_name exclude_self only_id stop q cands :
  ∃ c', c' `sublist_of` cands
        ∧ ranked h lhv rhv metric_name exclude_self only_id stop q cands
          = attached h lhv rhv only_id metric_name <$> c'
        ∧ Forall (λ c, kept exclude_self (id (h q))
                         (attached h lhv rhv only_id metric_name c) = true) c'.
Proof.
  rewrite ranked_attached. eexists. split; [|split; [done|]].
  - etrans; [apply sublist_take|apply List_filter_sublist].
  - apply Forall_take. apply Forall_forall. intros c Hc.
    apply list_elem_of_In, filter_In in Hc. tauto.
Qed.

Lemma length_ranked h lhv rhv metric_name exclude_self only_id stop q cands :
  length (ranked h lhv rhv metric_name exclude_self only_id stop q cands) ≤ stop.
Proof. unfold ranked. rewrite length_take. lia. Qed.

Lemma find_set_score metric_name s (sc : list (string * score)) :
  (λ r : nat * (string * score), r.2.2)
    <$> list_find (λ p : string * score, p.1 = metric_name)
          (set_score metric_name s sc)
  = Some s.
Proof.
  induction sc as [|[k v] sc IH]; simpl.
  - by rewrite decide_True.
  - case_bool_decide as Hk; simpl.
    + by rewrite decide_True.
    + rewrite decide_False by done.
      destruct (list_find _ (set_score metric_name s sc)) as [[i [k' v']]|];
        simplify_eq/=; done.
Qed.

Lemma score_of_attached h lhv rhv only_id metric_name c :
  score_of metric_name (attached h lhv rhv only_id metric_name c) = Some c.2.
Proof. unfold score_of, attached. simpl. apply find_set_score. Qed.

Lemma id_attached h lhv rhv only_id metric_name c :
  id (attached h lhv rhv only_id metric_name c) = id (h (nth c.1 rhv 0)).
Proof.
  unfold attached, resolve. simpl.
  by destruct only_id, (contains _ _ _).
Qed.

Lemma ranked_no_self h lhv rhv metric_name only_id stop q cands :
  Forall (λ m, id m ≠ id (h q))
    (ranked h lhv rhv metric_name true only_id stop q cands).
Proof.
  destruct (ranked_sublist h lhv rhv metric_name true only_id stop q cands)
    as (c' & _ & -> & Hk).
  apply Forall_fmap. eapply Forall_impl; [exact Hk|].
  intros c Hc. unfold compose. cbv beta in *. unfold kept in Hc.
  rewrite andb_true_r in Hc. by apply negb_true_iff, bool_decide_eq_false in Hc.
Qed.

Lemma matches_attached h lhv rhv only_id metric_name c :
  contains h lhv (id (attached h lhv rhv only_id metric_name c)) = true →
  matches (attached h lhv rhv only_id metric_name c) = [].
Proof.
  rewrite id_attached. unfold attached, resolve. simpl.
  destruct only_id; simpl; intros Hc.
  - by destruct (contains _ _ _).
  - by rewrite Hc.
Qed.
End Ranked.

Section Returned.
Context {E : Type} (library_dist : string → E → E → Q).
Implicit Types (h : heap E) (metric : Metric E).

Lemma match_returned_inv lhv rhv metric limit normalization metric_name batch_size
    exclude_self only_id h h' :
  match_ library_dist lhv rhv metric limit normalization metric_name batch_size
    exclude_self only_id h = (Returned, h') →
  lhv ≠ [] → rhv ≠ [] →
  nonpositive_limit limit = false ∧ nonpositive batch_size = false
  ∧ metric ≠ MetricOther
  ∧ ∃ x_mat y_mat, embeddings h lhv = Some x_mat ∧ embeddings h rhv = Some y_mat.
Proof.
  intros Hm Hl Hr. unfold match_ in Hm.
  destruct (nonpositive_limit limit); [done|].
  destruct (nonpositive batch_size); [done|].
  rewrite !bool_decide_eq_true_2 in Hm by done. simpl in Hm.
  destruct metric; try done;
    destruct (embeddings h lhv) as [x_mat|]; try done;
    destruct (embeddings h rhv) as [y_mat|]; try done;
    repeat split; try done; by exists x_mat, y_mat.
Qed.

(** The match list of every left-hand document after a call that went
    through the loops. *)
Lemma match_returned lhv rhv metric limit normalization metric_name batch_size
    exclude_self only_id h h' :
  match_ library_dist lhv rhv metric limit normalization metric_name batch_size
    exclude_self only_id h = (Returned, h') →
  lhv ≠ [] → rhv ≠ [] →
  nonpositive_limit limit = false ∧ nonpositive batch_size = false
  ∧ agree lhv h' h
  ∧ ∃ y_mat, embeddings h rhv = Some y_mat
    ∧ ∀ q, q ∈ lhv →
        ∃ x, embedding (h q) = Some x
             ∧ matches (h' q)
               = ranked h lhv rhv (name_of metric metric_name) exclude_self only_id
                   (stop_of (py_int <$> limit) exclude_self rhv) q
                   (cands_of library_dist metric (py_int <$> limit) normalization
                      metric_name batch_size exclude_self rhv y_mat x).
Proof.
  intros Hm Hl Hr.
  destruct (match_returned_inv _ _ _ _ _ _ _ _ _ _ _ Hm Hl Hr)
    as (Hlim & Hbat & Hmet & x_mat & y_mat & Hx & Hy).
  destruct (match_spec library_dist lhv rhv metric limit normalization metric_name
              batch_size exclude_self only_id h x_mat y_mat Hlim Hbat Hl Hr Hmet Hx Hy)
    as (h'' & Hm' & Ha & Ho & Hq).
  rewrite Hm in Hm'. injection Hm' as <-.
  split; [done|]. split; [done|]. split; [done|].
  exists y_mat. split; [done|]. intros q Hqin.
  apply embeddings_Some in Hx.
  apply list_elem_of_lookup in Hqin as [i Hi].
  destruct (Forall2_lookup_l _ _ _ _ _ Hx Hi) as (x & _ & Hqx).
  exists x. split; [done|]. apply Hq; [|done].
  apply list_elem_of_lookup. by exists i.
Qed.
End Returned.

(** * Validation and the empty case *)

Section Boundary.
Context {E : Type} (library_dist : string → E → E → Q).
Implicit Types (h : heap E) (metric : Metric E).

(** C8 (as amended): a non-positive [limit], a non-positive [batch_size],
    or a [metric] that is neither a name nor a callable while both arrays
    are non-empty, makes [match] raise, and the store is left as it was. *)
Theorem match_invalid_raises lhv rhv metric limit normalization metric_name
    batch_size exclude_self only_id h :
  nonpositive_limit limit = true ∨ nonpositive batch_size = true
  ∨ (metric = MetricOther ∧ lhv ≠ [] ∧ rhv ≠ []) →
  ∃ e, match_ library_dist lhv rhv metric limit normalization metric_name
         batch_size exclude_self only_id h = (Raised e, h).
Proof.
  unfold match_. intros [Hl|[Hb|(-> & Hl & Hr)]].
  - rewrite Hl. by exists ValueError.
  - rewrite Hb. destruct (nonpositive_limit limit); by exists ValueError.
  - destruct (nonpositive_limit limit); [by exists ValueError|].
    destruct (nonpositive batch_size); [by exists ValueError|].
    rewrite !bool_decide_eq_true_2 by done. by exists TypeError.
Qed.

(** C9 (as amended): with an empty left-hand or right-hand array, and
    [limit] and [batch_size] passing validation, [match] returns without
    raising and without touching the store. *)
Theorem match_empty_noop lhv rhv metric limit normalization metric_name
    batch_size exclude_self only_id h :
  lhv = [] ∨ rhv = [] →
  nonpositive_limit limit = false → nonpositive batch_size = false →
  match_ library_dist lhv rhv metric limit normalization metric_name
    batch_size exclude_self only_id h = (Returned, h).
Proof.
  unfold match_. intros He -> ->.
  destruct He as [-> | ->]; [done|].
  by rewrite andb_false_r.
Qed.
End Boundary.

Lemma match_invalid_raises_witness :
  ∃ e, match_ ex_dist [0; 1] [2; 3] (MetricName "euclidean") (Some 0%Q) None None
         None false false ex_h = (Raised e, ex_h).
Proof. apply match_invalid_raises. left. reflexivity. Defined.

Lemma match_empty_noop_witness :
  match_ ex_dist [0; 1] [] (MetricName "euclidean") (Some 20%Q) None None
    None false false ex_h = (Returned, ex_h).
Proof. apply match_empty_noop; [by right|reflexivity|reflexivity]. Defined.

(** C8, as stated, fails: with an empty left-hand array a [metric] that is
    neither a name nor a callable is never looked at, and the call returns. *)
Lemma match_bad_metric_empty_returns :
  match_ ex_dist [] [2; 3] MetricOther (Some 20%Q) None None None false false ex_h
  = (Returned, ex_h)
  ∧ ¬ raises (match_ ex_dist [] [2; 3] MetricOther (Some 20%Q) None None
                None false false ex_h).
Proof. split; [reflexivity|]. intros [e He]. vm_compute in He. discriminate. Qed.

(** C9, as stated, fails: with an empty right-hand array and [limit = 0] the
    call raises. *)
Lemma match_empty_bad_limit_raises :
  raises (match_ ex_dist [0; 1] [] (MetricName "euclidean") (Some 0%Q) None None
            None false false ex_h).
Proof. exists ValueError. reflexivity. Qed.

(** * Cycle prevention and self exclusion *)

Section Filters.
Context {E : Type} (library_dist : string → E → E → Q).
Implicit Types (h : heap E) (metric : Metric E).

(** C3 (as amended): after a call on non-empty arrays that returns, every
    match whose id is present in the left-hand array carries an empty
    match list of its own. *)
Theorem match_shared_detached lhv rhv metric limit normalization metric_name
    batch_size exclude_self only_id h h' :
  match_ library_dist lhv rhv metric limit normalization metric_name batch_size
    exclude_self only_id h = (Returned, h') →
  lhv ≠ [] → rhv ≠ [] →
  ∀ q, q ∈ lhv →
    Forall (λ m, contains h' lhv (id m) = true → matches m = []) (matches (h' q)).
Proof.
  intros Hm Hl Hr q Hq.
  destruct (match_returned _ _ _ _ _ _ _ _ _ _ _ _ Hm Hl Hr)
    as (_ & _ & Ha & y_mat & _ & Hrows).
  destruct (Hrows q Hq) as (x & _ & ->).
  rewrite ranked_attached. apply Forall_fmap, Forall_forall.
  intros c _. unfold compose. cbv beta.
  rewrite (contains_agree lhv h' h) by done.
  apply matches_attached.
Qed.

(** C4 (as amended): after a call with [exclude_self] on non-empty arrays
    that returns, no left-hand document lists a match with its own id. *)
Theorem match_exclude_self lhv rhv metric limit normalization metric_name
    batch_size only_id h h' :
  match_ library_dist lhv rhv metric limit normalization metric_name batch_size
    true only_id h = (Returned, h') →
  lhv ≠ [] → rhv ≠ [] →
  no_self_match h' lhv.
Proof.
  intros Hm Hl Hr q Hq.
  destruct (match_returned _ _ _ _ _ _ _ _ _ _ _ _ Hm Hl Hr)
    as (_ & _ & Ha & y_mat & _ & Hrows).
  destruct (Hrows q Hq) as (x & _ & ->).
  destruct (Ha q) as (-> & _). apply ranked_no_self.
Qed.
End Filters.

Lemma match_shared_detached_witness :
  Forall (λ m, contains
                 (match_ ex_dist [0; 1] [0; 1] (MetricName "euclidean") (Some 2%Q)
                    None None None false false ex_h_nested).2 [0; 1] (id m) = true
               → matches m = [])
    (matches ((match_ ex_dist [0; 1] [0; 1] (MetricName "euclidean") (Some 2%Q)
                 None None None false false ex_h_nested).2 0)).
Proof.
  eapply (match_shared_detached ex_dist [0; 1] [0; 1] (MetricName "euclidean")
            (Some 2%Q) None None None false false ex_h_nested).
  - reflexivity.
  - discriminate.
  - discriminate.
  - by left.
Defined.

Lemma match_exclude_self_witness :
  Forall (λ m, id m ≠ id
            ((match_ ex_dist [0; 1; 2] [0; 1; 2] (MetricName "euclidean") (Some 1%Q)
                None None None true false ex_h).2 1))
    (matches
       ((match_ ex_dist [0; 1; 2] [0; 1; 2] (MetricName "euclidean") (Some 1%Q)
           None None None true false ex_h).2 1)).
Proof.
  eapply (match_exclude_self ex_dist [0; 1; 2] [0; 1; 2] (MetricName "euclidean")
            (Some 1%Q) None None None false ex_h).
  - reflexivity.
  - discriminate.
  - discriminate.
  - by right; left.
Defined.

(** C3, as stated, fails: the arrays share document [a], and yet [a] ends up
    with the match [b], which is not in the left-hand array and still carries
    its own match list. *)
Lemma match_nested_kept :
  shares_record ex_h_nested [0] [0; 1]
  ∧ ¬ no_nested_matches
        (match_ ex_dist [0] [0; 1] (MetricName "euclidean") (Some 2%Q)
           None None None false false ex_h_nested).2 [0].
Proof.
  split.
  - exists 0. split; [by left|reflexivity].
  - intros H. specialize (H 0 ltac:(by left)).
    vm_compute in H. inversion H as [|? ? _ H2]; subst.
    inversion H2 as [|? ? Hb _]; subst. discriminate.
Qed.

(** C4, as stated, fails: with an empty right-hand array the call returns at
    once and the match list it found stays, self match included. *)
Lemma match_stale_self_match :
  match_ ex_dist [0] [] (MetricName "euclidean") (Some 20%Q)
    None None None true false ex_h_stale = (Returned, ex_h_stale)
  ∧ ¬ no_self_match
        (match_ ex_dist [0] [] (MetricName "euclidean") (Some 20%Q)
           None None None true false ex_h_stale).2 [0].
Proof.
  split; [reflexivity|].
  intros H. specialize (H 0 ltac:(by left)).
  vm_compute in H. inversion H as [|? ? Hne _]; subst. by apply Hne.
Qed.

(** * Minimum, maximum and rescaling of a row *)

Lemma foldl_Qmin_le a r :
  (foldl Qmin a r <= a)%Q ∧ Forall (λ v, (foldl Qmin a r <= v)%Q) r.
Proof.
  revert a. induction r as [|v r IH]; intros a; simpl.
  - split; [apply Qle_refl|constructor].
  - destruct (IH (Qmin a v)) as [H1 H2]. split.
    + eapply Qle_trans; [exact H1|apply Q.le_min_l].
    + constructor; [|done]. eapply Qle_trans; [exact H1|apply Q.le_min_r].
Qed.

Lemma foldl_Qmax_ge a r :
  (a <= foldl Qmax a r)%Q ∧ Forall (λ v, (v <= foldl Qmax a r)%Q) r.
Proof.
  revert a. induction r as [|v r IH]; intros a; simpl.
  - split; [apply Qle_refl|constructor].
  - destruct (IH (Qmax a v)) as [H1 H2]. split.
    + eapply Qle_trans; [apply Q.le_max_l|exact H1].
    + constructor; [|done]. eapply Qle_trans; [apply Q.le_max_r|exact H1].
Qed.

Lemma foldl_Qmin_elem a r : foldl Qmin a r ∈ a :: r.
Proof.
  revert a. induction r as [|v r IH]; intros a; simpl; [by left|].
  specialize (IH (Qmin a v)). apply elem_of_cons in IH as [->|IH].
  - unfold Qmin, GenericMinMax.gmin. destruct (a ?= v)%Q; [by left|by left|].
    right. by left.
  - by do 2 right.
Qed.

Lemma foldl_Qmax_elem a r : foldl Qmax a r ∈ a :: r.
Proof.
  revert a. induction r as [|v r IH]; intros a; simpl; [by left|].
  specialize (IH (Qmax a v)). apply elem_of_cons in IH as [->|IH].
  - unfold Qmax, GenericMinMax.gmax. destruct (a ?= v)%Q; [by left| |by left].
    right. by left.
  - by do 2 right.
Qed.

(** [row_min] and [row_max] are the least and the greatest entry of a row. *)
Lemma row_min_spec row :
  row ≠ [] → row_min row ∈ row ∧ Forall (λ v, (row_min row <= v)%Q) row.
Proof.
  destruct row as [|a r]; [done|]. intros _. simpl. split.
  - apply foldl_Qmin_elem.
  - destruct (foldl_Qmin_le a r). by constructor.
Qed.

Lemma row_max_spec row :
  row ≠ [] → row_max row ∈ row ∧ Forall (λ v, (v <= row_max row)%Q) row.
Proof.
  destruct row as [|a r]; [done|]. intros _. simpl. split.
  - apply foldl_Qmax_elem.
  - destruct (foldl_Qmax_ge a r). by constructor.
Qed.

Lemma row_min_le_max row : (row_min row <= row_max row)%Q.
Proof.
  destruct row as [|a r]; simpl; [apply Qle_refl|].
  eapply Qle_trans; [apply foldl_Qmin_le|apply foldl_Qmax_ge].
Qed.

Lemma rescale_degenerate t mn mx v : (mx == mn)%Q → rescale t mn mx v = t.1.
Proof. intros H. unfold rescale. apply Qeq_bool_iff in H. by rewrite H. Qed.

Lemma rescale_formula t mn mx v :
  ¬ (mx == mn)%Q →
  rescale t mn mx v = (t.1 + (v - mn) * (t.2 - t.1) / (mx - mn))%Q.
Proof.
  intros H. unfold rescale. destruct (Qeq_bool mx mn) eqn:Heq; [|done].
  by apply Qeq_bool_iff in Heq.
Qed.

Lemma rescale_mono t mn mx v v' :
  (t.1 <= t.2)%Q → (mn <= mx)%Q → (v <= v')%Q →
  (rescale t mn mx v <= rescale t mn mx v')%Q.
Proof.
  intros Ht Hr Hv. unfold rescale.
  destruct (Qeq_bool mx mn) eqn:Heq; [apply Qle_refl|].
  apply Qeq_bool_neq in Heq.
  assert (0 < mx - mn)%Q as Hpos.
  { destruct (Qlt_le_dec mn mx) as [?|Hle]; [lra|].
    exfalso. apply Heq. by apply Qle_antisym. }
  apply Qplus_le_r. unfold Qdiv.
  apply Qmult_le_compat_r; [|by apply Qlt_le_weak, Qinv_lt_0_compat].
  apply Qmult_le_compat_r; lra.
Qed.

Lemma rescale_anti t mn mx v v' :
  (t.2 <= t.1)%Q → (mn <= mx)%Q → (v <= v')%Q →
  (rescale t mn mx v' <= rescale t mn mx v)%Q.
Proof.
  intros Ht Hr Hv. unfold rescale.
  destruct (Qeq_bool mx mn) eqn:Heq; [apply Qle_refl|].
  apply Qeq_bool_neq in Heq.
  assert (0 < mx - mn)%Q as Hpos.
  { destruct (Qlt_le_dec mn mx) as [?|Hle]; [lra|].
    exfalso. apply Heq. by apply Qle_antisym. }
  apply Qplus_le_r. unfold Qdiv.
  apply Qmult_le_compat_r; [|by apply Qlt_le_weak, Qinv_lt_0_compat].
  pose proof (Qmult_le_0_compat (v' - v) (t.1 - t.2)) as Hp.
  assert ((v - mn) * (t.2 - t.1) - (v' - mn) * (t.2 - t.1) == (v' - v) * (t.1 - t.2))%Q
    as Hd by ring.
  lra.
Qed.

Lemma rescale_range t mn mx v :
  (t.1 <= t.2)%Q → (mn <= v)%Q → (v <= mx)%Q →
  (t.1 <= rescale t mn mx v)%Q ∧ (rescale t mn mx v <= t.2)%Q.
Proof.
  intros Ht Hlo Hhi.
  assert (mn <= mx)%Q as Hr by lra.
  pose proof (rescale_mono t mn mx mn v Ht Hr Hlo) as H1.
  pose proof (rescale_mono t mn mx v mx Ht Hr Hhi) as H2.
  assert (rescale t mn mx mn == t.1)%Q as Hmn.
  { unfold rescale. destruct (Qeq_bool mx mn) eqn:Heq; [reflexivity|].
    apply Qeq_bool_neq in Heq. field. lra. }
  assert (rescale t mn mx mx <= t.2)%Q as Hmx.
  { unfold rescale. destruct (Qeq_bool mx mn) eqn:Heq; [done|].
    apply Qeq_bool_neq in Heq.
    assert (t.1 + (mx - mn) * (t.2 - t.1) / (mx - mn) == t.2)%Q as ->;
      [field; lra|apply Qle_refl]. }
  split; lra.
Qed.

(** * The rows the matchers produce *)

Section EnumerateFacts.
Context {V : Type}.

Lemma fst_enumerate (row : list V) : (enumerate row).*1 = row.
Proof. unfold enumerate. apply fst_zip. by rewrite length_seq. Qed.

Lemma snd_enumerate (row : list V) : (enumerate row).*2 = seq 0 (length row).
Proof. unfold enumerate. apply snd_zip. by rewrite length_seq. Qed.

Lemma length_enumerate (row : list V) : length (enumerate row) = length row.
Proof. by rewrite <-(fst_enumerate row) at 2; rewrite length_fmap. Qed.

Lemma top_k_row_submseteq leb (row : list V) k :
  top_k_row leb row k ⊆+ enumerate row.
Proof. apply smallest_submseteq. Qed.

Lemma length_top_k_row leb (row : list V) k :
  length (top_k_row leb row k) = k `min` length row.
Proof.
  unfold top_k_row. fold (smallest (by_key leb) k (enumerate row)).
  by rewrite length_smallest, length_enumerate.
Qed.
End EnumerateFacts.

Lemma submseteq_NoDup {A : Type} (l k : list A) : l ⊆+ k → NoDup k → NoDup l.
Proof.
  intros [k' Hk]%submseteq_Permutation Hnd. rewrite Hk in Hnd.
  by apply NoDup_app in Hnd as [? _].
Qed.

Lemma submseteq_Forall {A : Type} (P : A → Prop) (l k : list A) :
  l ⊆+ k → Forall P k → Forall P l.
Proof.
  intros Hs Hk. apply Forall_forall. intros x Hx.
  eapply Forall_forall in Hk; [done|]. by eapply elem_of_submseteq.
Qed.

Lemma top_k_row_sorted (row : list Q) k :
  StronglySorted (le_of Qle_bool) (top_k_row Qle_bool row k).*1.
Proof.
  eapply (StronglySorted_fmap fst (le_of (by_key Qle_bool))); [by intros [] []|].
  apply (smallest_sorted (by_key Qle_bool)).
  - intros p q. apply Qle_bool_total.
  - intros p q r. apply Qle_bool_trans.
Qed.

Lemma match_scores_attached {E : Type} (h : heap E) lhv rhv only_id metric_name
    (cs : list (nat * score)) :
  match_scores metric_name (attached h lhv rhv only_id metric_name <$> cs) = cs.*2.
Proof.
  unfold match_scores. induction cs as [|c cs IH]; csimpl; [done|].
  rewrite score_of_attached. csimpl. by rewrite IH.
Qed.

Section CandsSorted.
Context {E : Type} (library_dist : string → E → E → Q).
Implicit Types (h : heap E) (metric : Metric E).

Lemma match_row_sorted (dist : string → E → E → Q) limit normalization
    metric_name y_mat x :
  normalization = None ∨ (∃ t, normalization = Some t ∧ (t.1 <= t.2)%Q) →
  StronglySorted (le_of score_leb)
    (Fin <$> (match_row dist limit normalization metric_name y_mat x).1).
Proof.
  intros Hn. unfold match_row. simpl.
  pose proof (top_k_row_sorted (dist metric_name x <$> y_mat)
                (limit `min` length y_mat)) as Hs.
  destruct Hn as [->|(t & -> & Ht)].
  - eapply StronglySorted_fmap; [|exact Hs]. done.
  - rewrite <-list_fmap_compose.
    eapply StronglySorted_fmap; [|exact Hs].
    intros a b Hab. unfold le_of in *. simpl.
    apply Qle_bool_iff. apply Qle_bool_iff in Hab.
    apply rescale_mono; [done|apply row_min_le_max|done].
Qed.

Lemma online_row_sorted (dist : string → E → E → Q) limit normalization
    metric_name y_mat batch_size x :
  StronglySorted (le_of (by_key score_leb))
    (online_row dist limit normalization metric_name y_mat batch_size x).
Proof. apply (running_sorted _ pk_total pk_trans), pads_sorted. Qed.

Lemma length_match_row (dist : string → E → E → Q) limit normalization
    metric_name y_mat x :
  length (match_row dist limit normalization metric_name y_mat x).1
  = limit `min` length y_mat
  ∧ length (match_row dist limit normalization metric_name y_mat x).2
    = limit `min` length y_mat.
Proof.
  unfold match_row. simpl.
  destruct normalization; rewrite !length_fmap, length_top_k_row, length_fmap; lia.
Qed.

Lemma snd_cands_of metric limit normalization metric_name batch_size
    exclude_self rhv y_mat x :
  (cands_of library_dist metric limit normalization metric_name batch_size
     exclude_self rhv y_mat x).*2
  = match batch_size with
    | Some b =>
        (online_row (dist_of library_dist metric) (limit_of limit exclude_self rhv)
           normalization (name_of metric metric_name) y_mat (Z.to_nat b) x).*1
    | None =>
        Fin <$> (match_row (dist_of library_dist metric)
                   (limit_of limit exclude_self rhv) normalization
                   (name_of metric metric_name) y_mat x).1
    end.
Proof.
  unfold cands_of. destruct batch_size as [b|].
  - apply snd_zip. by rewrite !length_fmap.
  - apply snd_zip.
    destruct (length_match_row (dist_of library_dist metric)
                (limit_of limit exclude_self rhv) normalization
                (name_of metric metric_name) y_mat x) as [H1 H2].
    rewrite length_fmap. lia.
Qed.

Lemma fst_cands_of metric limit normalization metric_name batch_size
    exclude_self rhv y_mat x :
  (cands_of library_dist metric limit normalization metric_name batch_size
     exclude_self rhv y_mat x).*1
  = match batch_size with
    | Some b =>
        (online_row (dist_of library_dist metric) (limit_of limit exclude_self rhv)
           normalization (name_of metric metric_name) y_mat (Z.to_nat b) x).*2
    | None =>
        (match_row (dist_of library_dist metric)
           (limit_of limit exclude_self rhv) normalization
           (name_of metric metric_name) y_mat x).2
    end.
Proof.
  unfold cands_of. destruct batch_size as [b|].
  - apply fst_zip. by rewrite !length_fmap.
  - apply fst_zip.
    destruct (length_match_row (dist_of library_dist metric)
                (limit_of limit exclude_self rhv) normalization
                (name_of metric metric_name) y_mat x) as [H1 H2].
    rewrite length_fmap. lia.
Qed.

Lemma cands_of_sorted metric limit normalization metric_name batch_size
    exclude_self rhv y_mat x :
  batch_size ≠ None ∨ normalization = None
  ∨ (∃ t, normalization = Some t ∧ (t.1 <= t.2)%Q) →
  StronglySorted (le_of score_leb)
    (cands_of library_dist metric limit normalization metric_name batch_size
       exclude_self rhv y_mat x).*2.
Proof.
  intros Hc. rewrite snd_cands_of. destruct batch_size as [b|].
  - eapply (StronglySorted_fmap fst (le_of (by_key score_leb))); [by intros [] []|].
    apply online_row_sorted.
  - apply match_row_sorted. destruct Hc as [?|?]; done.
Qed.

Lemma match_row_sorted_desc (dist : string → E → E → Q) limit t
    metric_name y_mat x :
  (t.2 <= t.1)%Q →
  StronglySorted (λ a b, score_leb b a = true)
    (Fin <$> (match_row dist limit (Some t) metric_name y_mat x).1).
Proof.
  intros Ht. unfold match_row. simpl.
  pose proof (top_k_row_sorted (dist metric_name x <$> y_mat)
                (limit `min` length y_mat)) as Hs.
  rewrite <-list_fmap_compose.
  eapply StronglySorted_fmap; [|exact Hs].
  intros a b Hab. unfold le_of in *. simpl.
  apply Qle_bool_iff. apply Qle_bool_iff in Hab.
  apply rescale_anti; [done|apply row_min_le_max|done].
Qed.

(** The bound on the length of a match list, by the limit after [int]. *)
Lemma stop_of_bound (l : Z) exclude_self rhv :
  stop_of (Some l) exclude_self rhv
  = if (l =? 0)%Z then (if exclude_self then 1 else 0) else Z.to_nat l.
Proof.
  unfold stop_of, limit_of.
  destruct (Z.eqb_spec l 0) as [->|]; [|done].
  by destruct exclude_self.
Qed.

(** C2 (as amended): after a call with [limit = L] on non-empty arrays
    that returns, every left-hand document has at most [L] matches when
    [L >= 1]; in general at most [int(L)], and for [L] below 1 at most one
    with [exclude_self] and none without.  Each match carries a score under
    the metric name; these scores ascend, ties allowed, when the call is
    batched, or no normalization is asked for, or its range has [lo <= hi];
    on the in-memory path with a range that has [hi <= lo] they descend,
    ties allowed. *)
Theorem match_limit_sorted lhv rhv metric (L : Q) normalization metric_name
    batch_size exclude_self only_id h h' :
  match_ library_dist lhv rhv metric (Some L) normalization metric_name batch_size
    exclude_self only_id h = (Returned, h') →
  lhv ≠ [] → rhv ≠ [] →
  ∀ q, q ∈ lhv →
    ((1 <= L)%Q → (inject_Z (Z.of_nat (length (matches (h' q)))) <= L)%Q)
    ∧ length (matches (h' q))
      ≤ (if (py_int L =? 0)%Z then (if exclude_self then 1 else 0)
         else Z.to_nat (py_int L))
    ∧ length (match_scores (name_of metric metric_name) (matches (h' q)))
      = length (matches (h' q))
    ∧ (batch_size ≠ None ∨ normalization = None
       ∨ (∃ t, normalization = Some t ∧ (t.1 <= t.2)%Q) →
       ascending false (match_scores (name_of metric metric_name) (matches (h' q))))
    ∧ (batch_size = None → (∃ t, normalization = Some t ∧ (t.2 <= t.1)%Q) →
       descending (match_scores (name_of metric metric_name) (matches (h' q)))).
Proof.
  intros Hm Hl Hr q Hq.
  destruct (match_returned _ _ _ _ _ _ _ _ _ _ _ _ Hm Hl Hr)
    as (Hlim & _ & Ha & y_mat & _ & Hrows).
  destruct (Hrows q Hq) as (x & _ & Hmq).
  change (py_int <$> Some L) with (Some (py_int L)) in Hmq.
  apply nonpositive_limit_false in Hlim.
  assert (Hlen : length (matches (h' q))
                 ≤ (if (py_int L =? 0)%Z then (if exclude_self then 1 else 0)
                    else Z.to_nat (py_int L))).
  { rewrite Hmq, <-(stop_of_bound (py_int L) exclude_self rhv).
    apply length_ranked. }
  split; [|split; [exact Hlen|]].
  - intros HL. pose proof (py_int_pos L HL) as Hpos.
    destruct (Z.eqb_spec (py_int L) 0) as [|_]; [lia|].
    eapply Qle_trans; [|by apply py_int_le].
    rewrite <-Zle_Qle. lia.
  - destruct (ranked_sublist h lhv rhv (name_of metric metric_name) exclude_self
                only_id (stop_of (Some (py_int L)) exclude_self rhv) q
                (cands_of library_dist metric (Some (py_int L)) normalization
                   metric_name batch_size exclude_self rhv y_mat x))
      as (c' & Hsub & Hc' & _).
    rewrite Hmq, Hc', match_scores_attached, !length_fmap. split; [done|]. split.
    + intros Hc. unfold ascending.
      eapply (StronglySorted_sublist _ _ _ (fmap_sublist snd _ _ Hsub)).
      by apply cands_of_sorted.
    + intros -> (t & -> & Ht). unfold descending.
      eapply (StronglySorted_sublist _ _ _ (fmap_sublist snd _ _ Hsub)).
      rewrite snd_cands_of. by apply match_row_sorted_desc.
Qed.
End CandsSorted.

Lemma match_limit_sorted_witness :
  ((1 <= 2)%Q →
   Qle (inject_Z (Z.of_nat (length (matches
      ((match_ ex_dist [0; 1] [2; 3; 4] (MetricName "euclidean") (Some 2%Q)
          (Some (0, 1)%Q) None None false false ex_h).2 1))))) 2%Q)
  ∧ length (matches
      ((match_ ex_dist [0; 1] [2; 3; 4] (MetricName "euclidean") (Some 2%Q)
          (Some (0, 1)%Q) None None false false ex_h).2 1))
    ≤ (if (py_int 2 =? 0)%Z then (if false then 1 else 0) else Z.to_nat (py_int 2))
  ∧ length (match_scores "euclidean" (matches
      ((match_ ex_dist [0; 1] [2; 3; 4] (MetricName "euclidean") (Some 2%Q)
          (Some (0, 1)%Q) None None false false ex_h).2 1)))
    = length (matches
      ((match_ ex_dist [0; 1] [2; 3; 4] (MetricName "euclidean") (Some 2%Q)
          (Some (0, 1)%Q) None None false false ex_h).2 1))
  ∧ (None ≠ (None : option Z) ∨ Some (0, 1)%Q = None
     ∨ (∃ t, Some (0, 1)%Q = Some t ∧ (t.1 <= t.2)%Q) →
     ascending false (match_scores "euclidean" (matches
       ((match_ ex_dist [0; 1] [2; 3; 4] (MetricName "euclidean") (Some 2%Q)
           (Some (0, 1)%Q) None None false false ex_h).2 1))))
  ∧ ((None : option Z) = None → (∃ t, Some (0, 1)%Q = Some t ∧ (t.2 <= t.1)%Q) →
     descending (match_scores "euclidean" (matches
       ((match_ ex_dist [0; 1] [2; 3; 4] (MetricName "euclidean") (Some 2%Q)
           (Some (0, 1)%Q) None None false false ex_h).2 1)))).
Proof.
  eapply (match_limit_sorted ex_dist [0; 1] [2; 3; 4] (MetricName "euclidean") 2
            (Some (0, 1)%Q) None None false false ex_h).
  - reflexivity.
  - discriminate.
  - discriminate.
  - by right; left.
Defined.

(** C2, as stated, fails: two targets at the same distance get the same
    score, so the list is not strictly ascending; on the in-memory path the
    range [(1, 0)] turns the order round; and a limit of one half under
    [exclude_self] is cut to 0 by [int], the matcher is asked for one
    candidate and the loop stops at [limit or _limit = 1], so one match
    remains where the limit is one half. *)
Lemma match_scores_not_strictly_ascending :
  ¬ ascending true
      (match_scores "euclidean" (matches
         ((match_ ex_dist [0] [1; 2] (MetricName "euclidean") (Some 2%Q)
             None None None false false ex_h_tie).2 0)))
  ∧ ¬ ascending false
        (match_scores "euclidean" (matches
           ((match_ ex_dist [0] [1; 2; 3] (MetricName "euclidean") (Some 2%Q)
               (Some (1, 0)%Q) None None false false ex_h).2 0)))
  ∧ length (matches
      ((match_ ex_dist [0] [1; 2] (MetricName "euclidean") (Some (1 # 2)%Q)
          None None None true false ex_h).2 0)) = 1
  ∧ ¬ (inject_Z 1 <= 1 # 2)%Q.
Proof.
  split; [|split; [|split; [reflexivity|by intros H; vm_compute in H]]];
    intros H; vm_compute in H.
  - inversion H as [|? ? _ Hf]; subst. inversion Hf as [|? ? Hlt _]; subst.
    discriminate.
  - inversion H as [|? ? _ Hf]; subst. inversion Hf as [|? ? Hlt _]; subst.
    discriminate.
Qed.

(** * Normalization in the in-memory matcher *)

Section InMemoryNormalization.
Context {E : Type} (dist : string → E → E → Q).

(** C5: with a normalization range, [_match] rescales the trimmed top-k
    distances of every row with the minimum and the maximum of the full,
    untrimmed row of distances. *)
Theorem _match_normalizes_with_full_row x_mat y_mat limit t_range metric_name :
  let dists := cdist_of dist x_mat y_mat metric_name in
  let trimmed := (top_k Qle_bool dists (limit `min` length y_mat)).1 in
  (_match x_mat y_mat (cdist_of dist) limit (Some t_range) metric_name).1
  = zip_with (λ full row, rescale t_range (row_min full) (row_max full) <$> row)
      dists trimmed
  ∧ Forall (λ full,
              full ≠ [] →
              (row_min full ∈ full ∧ Forall (λ v, (row_min full <= v)%Q) full)
              ∧ (row_max full ∈ full ∧ Forall (λ v, (v <= row_max full)%Q) full))
      dists.
Proof.
  intros dists trimmed. split.
  - rewrite _match_rows. subst dists trimmed.
    unfold top_k, cdist_of, match_row. simpl.
    rewrite <-!list_fmap_compose. by rewrite zip_with_fmap_same.
  - apply Forall_forall. intros full _ Hne.
    split; [by apply row_min_spec|by apply row_max_spec].
Qed.
End InMemoryNormalization.

(** The range of the full row is not the range of what is kept: of the
    distances 5, 6, 1 and 4 the two smallest are 1 and 4, and 4 is mapped to
    3/5, not to 1. *)
Example _match_range_of_full_row :
  (_match [0%Q] [5; 6; 1; 4]%Q (cdist_of ex_dist) 2 (Some (0, 1)%Q) "euclidean").1
  = [[0 # 5; 3 # 5]%Q]
  ∧ minmax_normalize [[1; 4]%Q] (0, 1)%Q None = [[0 # 3; 3 # 3]%Q].
Proof. split; reflexivity. Qed.

(** * The batches *)

Section Batches.
Context {E : Type}.

(** Induction over the batches of [y] taken from position [i] on; for a
    positive batch size, [length y] steps reach the end. *)
Lemma batch_generator_from_ind (y : list E) n
    (P : nat → list (list E * nat) → Prop) :
  1 ≤ n →
  (∀ i, length y ≤ i → P i []) →
  (∀ i rest, i < length y → P (i + n) rest →
             P i ((take n (drop i y), i) :: rest)) →
  ∀ fuel i, length y ≤ fuel + i → P i (batch_generator_from fuel y n i).
Proof.
  intros Hn Hbase Hstep. induction fuel as [|fuel IH]; intros i Hf; simpl.
  - apply Hbase. lia.
  - destruct (Nat.leb_spec (length y) i) as [Hle|Hlt]; [by apply Hbase|].
    apply Hstep; [done|]. apply IH. lia.
Qed.

Lemma batch_generator_ind (y : list E) n (P : nat → list (list E * nat) → Prop) :
  1 ≤ n →
  (∀ i, length y ≤ i → P i []) →
  (∀ i rest, i < length y → P (i + n) rest →
             P i ((take n (drop i y), i) :: rest)) →
  P 0 (batches y n).
Proof.
  intros Hn Hbase Hstep. unfold batches.
  apply (batch_generator_from_ind y n P Hn Hbase Hstep). lia.
Qed.

(** The batches cover the array: enumerated from their start positions
    they add up to the enumeration of the whole. *)
Lemma batches_cover {B : Type} (f : E → B) (y : list E) n :
  1 ≤ n →
  concat ((λ b : list E * nat, zip (f <$> b.1) (seq b.2 (length b.1)))
            <$> batches y n)
  = zip (f <$> y) (seq 0 (length y)).
Proof.
  intros Hn.
  pose proof (batch_generator_ind y n
    (λ i bs, concat ((λ b : list E * nat, zip (f <$> b.1) (seq b.2 (length b.1)))
                       <$> bs)
             = zip (f <$> drop i y) (seq i (length y - i)))) as H.
  cbv beta in H. rewrite Nat.sub_0_r in H. apply H; [done| |]; clear H.
  - intros i Hi. by rewrite drop_ge.
  - intros i rest Hi IH. csimpl. rewrite IH. clear IH.
    set (T := take n (drop i y)). set (R := drop (i + n) y).
    assert (HTR : drop i y = T ++ R).
    { unfold T, R. by rewrite <-drop_drop, take_drop. }
    assert (HlenR : length R = length y - (i + n)) by (unfold R; by rewrite length_drop).
    assert (HlenT : length T = n `min` (length y - i)).
    { unfold T. by rewrite length_take, length_drop. }
    rewrite HTR, fmap_app.
    replace (length y - i) with (length T + length R) by lia.
    rewrite seq_app, zip_with_app by (by rewrite length_fmap, length_seq).
    f_equal. rewrite <-HlenR.
    destruct R as [|r R']; [done|]. simpl in HlenR.
    replace (i + length T) with (i + n) by lia. done.
Qed.

Lemma batches_submseteq {B : Type} (g : list E * nat → list B)
    (c : list E * nat → list B) (bs : list (list E * nat)) :
  (∀ b, g b ⊆+ c b) → concat (g <$> bs) ⊆+ concat (c <$> bs).
Proof.
  intros H. induction bs as [|b bs IH]; csimpl; [done|].
  by apply submseteq_app.
Qed.

Lemma batches_length {B : Type} (g : list E * nat → list B) limit (y : list E) n :
  1 ≤ n →
  (∀ b, length (g b) = limit `min` length b.1) →
  limit `min` length y ≤ length (concat (g <$> batches y n)).
Proof.
  intros Hn Hg.
  pose proof (batch_generator_ind y n
    (λ i bs, limit `min` (length y - i) ≤ length (concat (g <$> bs)))) as H.
  cbv beta in H. rewrite Nat.sub_0_r in H. apply H; [done| |]; clear H.
  - intros i Hi. simpl. lia.
  - intros i rest Hi IH. csimpl. rewrite length_app, Hg. simpl.
    rewrite length_take, length_drop. lia.
Qed.

Lemma batches_total_length {B : Type} (g : list E * nat → list B) (y : list E) n :
  1 ≤ n →
  (∀ b, length b.1 ≤ length y → length (g b) = length b.1) →
  length (concat (g <$> batches y n)) = length y.
Proof.
  intros Hn Hg.
  pose proof (batch_generator_ind y n
    (λ i bs, length (concat (g <$> bs)) = length y - i)) as H.
  cbv beta in H. rewrite Nat.sub_0_r in H. apply H; [done| |]; clear H.
  - intros i Hi. simpl. lia.
  - intros i rest Hi IH. csimpl. rewrite length_app, Hg, IH; simpl;
      rewrite length_take, length_drop; lia.
Qed.
End Batches.

(** * Placeholders of the running selection *)

Lemma submseteq_app_disjoint {A : Type} (l p x : list A) :
  l ⊆+ p ++ x → (∀ a, a ∈ l → a ∉ p) → l ⊆+ x.
Proof.
  revert l. induction p as [|a p IH]; intros l Hl Hd; simpl in *; [done|].
  apply submseteq_cons_r in Hl as [Hl|(l' & Hl' & _)].
  - apply IH; [done|]. intros b Hb Hbp. apply (Hd b Hb). by right.
  - exfalso. apply (Hd a); [|by left]. rewrite Hl'. by left.
Qed.

Section Pads.
Local Abbreviation leb := (by_key (I:=nat) score_leb).
Local Abbreviation pad := ((Inf, 0) : score * nat).

Lemma keq_finite (l1 l2 : list (score * nat)) :
  keq leb l1 l2 → Forall finite_key l2 → Forall finite_key l1.
Proof.
  unfold keq. induction 1 as [|p q l1 l2 [Hpq _] _ IH]; intros Hf; [constructor|].
  inversion Hf as [|? ? Hq Hf']; subst. constructor; [|by apply IH].
  unfold finite_key, by_key in *. by destruct p.1, q.1.
Qed.

Lemma pads_top k : Forall (λ p, ∀ a, le_of leb a p) (replicate k pad).
Proof.
  apply Forall_forall. intros p ->%elem_of_replicate_inv a.
  unfold le_of, by_key. simpl. by destruct a.1.
Qed.

Lemma ins_pad s j :
  Forall finite_key s →
  ins leb pad (s ++ replicate j pad) = s ++ replicate (S j) pad.
Proof.
  induction 1 as [|p s Hp _ IH]; simpl.
  - by destruct j.
  - unfold by_key at 1. simpl. unfold finite_key in Hp.
    destruct p.1 eqn:Hk; [|done]. simpl. by rewrite IH.
Qed.

Lemma ins_before_pads f s j :
  finite_key f →
  ins leb f (s ++ replicate j pad) = ins leb f s ++ replicate j pad.
Proof.
  intros Hf. induction s as [|p s IH]; simpl.
  - destruct j; simpl; [done|]. unfold by_key. simpl.
    unfold finite_key in Hf. by destruct f.1.
  - destruct (leb f p); [done|]. simpl. by rewrite IH.
Qed.

Lemma finite_ins f s : finite_key f → Forall finite_key s → Forall finite_key (ins leb f s).
Proof.
  intros Hf Hs. eapply Forall_forall. intros p Hp.
  rewrite ins_perm in Hp. apply elem_of_cons in Hp as [->|Hp]; [done|].
  by eapply Forall_forall in Hs.
Qed.

Lemma finite_isort s : Forall finite_key s → Forall finite_key (isort leb s).
Proof. intros Hs. by rewrite isort_perm. Qed.

Lemma isort_pads_front j x :
  Forall finite_key x →
  isort leb (replicate j pad ++ x) = isort leb x ++ replicate j pad.
Proof.
  intros Hx. induction j as [|j IH]; simpl; [by rewrite app_nil_r|].
  rewrite IH. apply ins_pad. by apply finite_isort.
Qed.

Lemma isort_pads_middle f j x :
  Forall finite_key f → Forall finite_key x →
  isort leb ((f ++ replicate j pad) ++ x) = isort leb (f ++ x) ++ replicate j pad.
Proof.
  intros Hf Hx. rewrite <-(assoc_L (++)).
  induction Hf as [|p f Hp Hf IH]; simpl.
  - by apply isort_pads_front.
  - rewrite IH. apply ins_before_pads. done.
Qed.

Lemma smallest_pads_stay k f x :
  Forall finite_key f → Forall finite_key x → length f + length x ≤ k →
  smallest leb k ((f ++ replicate (k - length f) pad) ++ x)
  = isort leb (f ++ x) ++ replicate (k - length (isort leb (f ++ x))) pad.
Proof.
  intros Hf Hx Hlen. unfold smallest. rewrite isort_pads_middle by done.
  rewrite take_app_ge by (rewrite length_isort, length_app; lia).
  rewrite take_replicate, length_isort, length_app. f_equal. f_equal. lia.
Qed.

(** While fewer than [k] real candidates have been seen, the selection
    holds all of them, followed by the placeholders that are left. *)
Lemma running_pads_stay k locs :
  ∀ f, Forall finite_key f → Forall (Forall finite_key) locs →
       length f + length (concat locs) ≤ k →
       ∃ f', running leb k (f ++ replicate (k - length f) pad) locs
             = f' ++ replicate (k - length f') pad
             ∧ f' ≡ₚ f ++ concat locs.
Proof.
  induction locs as [|loc locs IH]; intros f Hf Hlocs Hlen; simpl in *.
  - exists f. by rewrite app_nil_r.
  - inversion Hlocs as [|? ? Hloc Hlocs']; subst.
    rewrite length_app in Hlen.
    rewrite smallest_pads_stay by (done || lia).
    destruct (IH (isort leb (f ++ loc))) as (f' & Hrun & Hperm).
    + apply finite_isort, Forall_app. done.
    + done.
    + rewrite length_isort, length_app. lia.
    + exists f'. split; [done|]. rewrite Hperm, isort_perm. by rewrite (assoc_L (++)).
Qed.
End Pads.

(** * The rows of the batched matcher *)

Lemma zip_Fin_finite (d : list Q) (ix : list nat) :
  Forall finite_key (zip (Fin <$> d) ix).
Proof.
  revert ix. induction d as [|v d IH]; intros [|i ix]; csimpl; try constructor; done.
Qed.

Section OnlineRows.
Context {E : Type} (dist : string → E → E → Q).
Local Abbreviation leb := (by_key (I:=nat) score_leb).
Local Abbreviation pad := ((Inf, 0) : score * nat).

Lemma batch_row_finite limit normalization metric_name x b :
  Forall finite_key (batch_row dist limit normalization metric_name x b).
Proof. unfold batch_row. apply zip_Fin_finite. Qed.

Lemma length_batch_row limit normalization metric_name x b :
  length (batch_row dist limit normalization metric_name x b)
  = limit `min` length b.1.
Proof.
  unfold batch_row. rewrite length_zip_with.
  destruct normalization; rewrite !length_fmap, length_top_k_row, length_fmap; lia.
Qed.

Lemma batch_row_positions limit normalization metric_name x b :
  (batch_row dist limit normalization metric_name x b).*2
  ⊆+ seq b.2 (length b.1).
Proof.
  unfold batch_row. rewrite snd_zip.
  2:{ destruct normalization; rewrite !length_fmap; lia. }
  replace (seq b.2 (length b.1)) with (Nat.add b.2 <$> seq 0 (length b.1))
    by (rewrite fmap_add_seq; f_equal; lia).
  apply (fmap_submseteq (Nat.add b.2)).
  rewrite <-(length_fmap (dist metric_name x) b.1), <-snd_enumerate.
  apply fmap_submseteq, top_k_row_submseteq.
Qed.

Lemma batch_rows_finite limit normalization metric_name x (bs : list (list E * nat)) :
  Forall finite_key
    (concat (batch_row dist limit normalization metric_name x <$> bs)).
Proof.
  induction bs as [|b bs IH]; csimpl; [constructor|].
  apply Forall_app. split; [apply batch_row_finite|done].
Qed.

Lemma batch_rows_positions limit normalization metric_name x y n :
  1 ≤ n →
  (concat (batch_row dist limit normalization metric_name x
             <$> batches y n)).*2
  ⊆+ seq 0 (length y).
Proof.
  intros Hn.
  pose proof (batches_cover (λ _ : E, tt) y n Hn) as Hc.
  apply (f_equal (fmap snd)) in Hc.
  rewrite snd_zip in Hc by (by rewrite length_fmap, length_seq).
  rewrite <-Hc. clear Hc.
  induction (batches y n) as [|b bs IH]; csimpl; [done|].
  rewrite !fmap_app. apply submseteq_app; [|done].
  rewrite snd_zip by (by rewrite length_fmap, length_seq).
  apply batch_row_positions.
Qed.

(** With at least [limit] targets no placeholder is left in the row. *)
Lemma online_row_real limit normalization metric_name y n x :
  1 ≤ n → limit ≤ length y →
  let locs := batch_row dist limit normalization metric_name x
                <$> batches y n in
  keq leb (online_row dist limit normalization metric_name y n x)
    (smallest leb limit (concat locs))
  ∧ online_row dist limit normalization metric_name y n x ⊆+ concat locs
  ∧ Forall finite_key (online_row dist limit normalization metric_name y n x).
Proof.
  intros Hn Hlim locs. unfold online_row. fold locs.
  assert (Hlen : limit ≤ length (concat locs)).
  { pose proof (batches_length (batch_row dist limit normalization metric_name x)
                  limit y n Hn) as H.
    etrans; [|apply H]; [lia|]. intros b. apply length_batch_row. }
  assert (Hk : keq leb (running leb limit (replicate limit pad) locs)
                 (smallest leb limit (concat locs))).
  { eapply (keq_trans _ pk_trans).
    - apply (running_keq _ pk_total pk_trans); [apply pads_sorted|].
      by rewrite length_replicate.
    - apply (smallest_pads _ pk_total pk_trans); [apply pads_top|done]. }
  assert (Hf : Forall finite_key (running leb limit (replicate limit pad) locs)).
  { eapply keq_finite; [exact Hk|].
    eapply submseteq_Forall; [apply smallest_submseteq|].
    apply batch_rows_finite. }
  split; [done|]. split; [|done].
  eapply submseteq_app_disjoint; [apply running_submseteq|].
  intros a Ha Hpad. apply elem_of_replicate_inv in Hpad as ->.
  eapply Forall_forall in Hf; [|exact Ha]. done.
Qed.

Lemma length_online_row limit normalization metric_name y n x :
  length (online_row dist limit normalization metric_name y n x) = limit.
Proof. apply length_running. by rewrite length_replicate. Qed.

Lemma online_row_positions limit normalization metric_name y n x :
  1 ≤ n → limit ≤ length y →
  (online_row dist limit normalization metric_name y n x).*2 ⊆+ seq 0 (length y).
Proof.
  intros Hn Hlim.
  destruct (online_row_real limit normalization metric_name y n x Hn Hlim)
    as (_ & Hsub & _).
  etrans; [by apply fmap_submseteq|]. by apply batch_rows_positions.
Qed.

(** With fewer targets than [limit] the row ends in placeholders. *)
Lemma online_row_pads limit normalization metric_name y n x :
  1 ≤ n → length y ≤ limit →
  ∃ f, online_row dist limit normalization metric_name y n x
       = f ++ replicate (limit - length y) pad
       ∧ length f = length y ∧ Forall finite_key f
       ∧ f.*2 ≡ₚ seq 0 (length y).
Proof.
  intros Hn Hlim. unfold online_row.
  set (locs := batch_row dist limit normalization metric_name x
                 <$> batches y n).
  assert (Hlen : length (concat locs) = length y).
  { apply batches_total_length; [done|]. intros b Hb.
    rewrite length_batch_row. lia. }
  destruct (running_pads_stay limit locs []) as (f & Hrun & Hperm).
  - constructor.
  - apply Forall_forall. intros l [b [-> _]]%list_elem_of_fmap.
    apply batch_row_finite.
  - simpl. lia.
  - simpl in Hrun, Hperm. rewrite Nat.sub_0_r in Hrun.
    assert (Hlf : length f = length y) by (by rewrite Hperm).
    exists f. rewrite Hrun, Hlf. split; [done|]. split; [done|]. split.
    + rewrite Hperm. apply batch_rows_finite.
    + apply submseteq_length_Permutation.
      * rewrite Hperm. by apply batch_rows_positions.
      * by rewrite length_seq, length_fmap, Hlf.
Qed.
End OnlineRows.

(** * The two matchers agree *)

Lemma Forall2_fmap_same {A B C : Type} (P : B → C → Prop) (f : A → B) (g : A → C) l :
  (∀ x, x ∈ l → P (f x) (g x)) → Forall2 P (f <$> l) (g <$> l).
Proof.
  intros H. apply Forall2_fmap. induction l as [|x l IH]; constructor.
  - apply H. by left.
  - apply IH. intros y Hy. apply H. by right.
Qed.

Lemma Forall3_fmap_same {A B C D : Type} (P : B → C → D → Prop)
    (f : A → B) (g : A → C) (k : A → D) l :
  (∀ x, x ∈ l → P (f x) (g x) (k x)) → Forall3 P (f <$> l) (g <$> l) (k <$> l).
Proof.
  intros H. induction l as [|x l IH]; csimpl; constructor.
  - apply H. by left.
  - apply IH. intros y Hy. apply H. by right.
Qed.

Lemma zip_eq_inv {A B : Type} (a : list A) (b : list B) (p : list (A * B)) :
  length a = length b → zip a b = p → a = p.*1 ∧ b = p.*2.
Proof.
  intros Hlen <-. split.
  - rewrite fst_zip; [done|lia].
  - rewrite snd_zip; [done|lia].
Qed.

Lemma enumerate_elem {V : Type} (row : list V) :
  Forall (λ p : V * nat, row !! p.2 = Some p.1) (enumerate row).
Proof.
  unfold enumerate.
  assert (∀ (pre : list V),
    Forall (λ p : V * nat, (pre ++ row) !! p.2 = Some p.1)
      (zip row (seq (length pre) (length row)))) as H.
  { induction row as [|v row IH]; intros pre; simpl; [constructor|].
    constructor.
    - simpl. by rewrite list_lookup_middle.
    - specialize (IH (pre ++ [v])).
      rewrite <-(assoc_L (++)), length_app in IH. simpl in IH.
      by rewrite Nat.add_1_r in IH. }
  apply (H []).
Qed.

Lemma keq_score_eq (l1 l2 : list (score * nat)) :
  keq (by_key score_leb) l1 l2 → Forall2 score_eq l1.*1 l2.*1.
Proof.
  intros H. apply Forall2_fmap. eapply Forall2_impl; [exact H|].
  intros p q Hpq. by apply score_eqv_eq.
Qed.

Section Agreement.
Context {E : Type} (dist : string → E → E → Q).
Local Abbreviation leb := (by_key (I:=nat) score_leb).

Lemma candidates_elem metric_name y_mat x :
  Forall (λ p, ∃ r, (dist metric_name x <$> y_mat) !! p.2 = Some r ∧ p.1 = Fin r)
    (candidates dist metric_name y_mat x).
Proof.
  unfold candidates.
  eapply Forall_impl; [apply enumerate_elem|].
  intros [d i] Hp. simpl in *. rewrite list_lookup_fmap in Hp.
  destruct ((dist metric_name x <$> y_mat) !! i) as [r|]; [|done].
  exists r. split; [done|]. by injection Hp.
Qed.

Lemma snd_candidates metric_name y_mat x :
  (candidates dist metric_name y_mat x).*2 = seq 0 (length y_mat).
Proof. unfold candidates. by rewrite snd_enumerate, !length_fmap. Qed.

(** A selection out of the candidates is a ranking of the raw distances. *)
Lemma candidates_ranking metric_name y_mat x (P : list (score * nat)) :
  P ⊆+ candidates dist metric_name y_mat x →
  valid_ranking (dist metric_name x <$> y_mat) P.*1 P.*2.
Proof.
  intros Hsub. split.
  - eapply submseteq_NoDup; [by apply fmap_submseteq|].
    rewrite snd_candidates. apply NoDup_seq.
  - apply Forall2_fmap, Forall_Forall2_diag.
    eapply submseteq_Forall; [exact Hsub|].
    eapply Forall_impl; [apply candidates_elem|].
    intros p (r & Hr & Hp). by exists r.
Qed.

Lemma match_row_candidates limit metric_name y_mat x :
  let r := match_row dist limit None metric_name y_mat x in
  zip (Fin <$> r.1) r.2
  = smallest leb (limit `min` length y_mat) (candidates dist metric_name y_mat x).
Proof.
  unfold match_row, candidates, top_k_row. simpl.
  fold (smallest (by_key Qle_bool) (limit `min` length y_mat)
          (enumerate (dist metric_name x <$> y_mat))).
  rewrite <-(list_fmap_id (smallest _ _ _).*2).
  rewrite <-prod_map_zip, zip_fst_snd.
  rewrite (smallest_fmap (by_key Qle_bool) leb) by (by intros [] []).
  f_equal. unfold enumerate.
  by rewrite prod_map_zip, list_fmap_id, !length_fmap.
Qed.

Lemma batch_row_raw limit metric_name x (b : list E * nat) :
  batch_row dist limit None metric_name x b
  = smallest leb limit
      (zip ((λ e, Fin (dist metric_name x e)) <$> b.1) (seq b.2 (length b.1))).
Proof.
  unfold batch_row, top_k_row.
  fold (smallest (by_key Qle_bool) limit (enumerate (dist metric_name x <$> b.1))).
  rewrite <-prod_map_zip, zip_fst_snd.
  rewrite (smallest_fmap (by_key Qle_bool) leb) by (by intros [] []).
  f_equal. unfold enumerate.
  rewrite prod_map_zip, length_fmap, <-list_fmap_compose.
  f_equal. rewrite fmap_add_seq. f_equal. lia.
Qed.

Lemma online_row_candidates limit metric_name y n x :
  1 ≤ n → limit ≤ length y →
  keq leb (online_row dist limit None metric_name y n x)
    (smallest leb limit (candidates dist metric_name y x))
  ∧ online_row dist limit None metric_name y n x
    ⊆+ candidates dist metric_name y x.
Proof.
  intros Hn Hlim.
  destruct (online_row_real dist limit None metric_name y n x Hn Hlim)
    as (Hk & Hsub & _). simpl in Hk, Hsub.
  assert (Hrows : batch_row dist limit None metric_name x <$> batches y n
    = smallest leb limit
        <$> ((λ b : list E * nat,
                zip ((λ e, Fin (dist metric_name x e)) <$> b.1)
                  (seq b.2 (length b.1))) <$> batches y n)).
  { rewrite <-list_fmap_compose. apply list_fmap_ext. intros _ b _.
    apply batch_row_raw. }
  assert (Hcov : concat ((λ b : list E * nat,
                zip ((λ e, Fin (dist metric_name x e)) <$> b.1)
                  (seq b.2 (length b.1))) <$> batches y n)
    = candidates dist metric_name y x).
  { rewrite batches_cover by done. unfold candidates, enumerate.
    by rewrite <-list_fmap_compose, length_fmap. }
  split.
  - eapply (keq_trans _ pk_trans); [exact Hk|].
    rewrite Hrows, <-Hcov.
    apply (smallest_concat_smallest _ pk_total pk_trans).
  - etrans; [exact Hsub|]. rewrite <-Hcov, Hrows.
    rewrite <-list_fmap_compose. apply batches_submseteq.
    intros b. apply smallest_submseteq.
Qed.

(** C1 (as amended): without normalization and with a limit that does
    not exceed the number of targets, the in-memory and the batched matcher
    report the same distances, entry by entry, for every positive batch
    size; the positions they report may differ among equal distances only:
    in both results the positions of a row are pairwise distinct and each
    has the distance reported for it.  The batched matcher returns whenever
    there is a target; on an empty target array it raises [IndexError]. *)
Theorem matchers_agree x_mat y_mat limit metric_name batch_size :
  0 < batch_size → limit ≤ length y_mat →
  let raws := cdist_of dist x_mat y_mat metric_name in
  let a := _match x_mat y_mat (cdist_of dist) limit None metric_name in
  (y_mat = [] →
   _match_online x_mat y_mat (cdist_of dist) limit None metric_name batch_size
   = inl IndexError)
  ∧ (y_mat ≠ [] →
     ∃ b, _match_online x_mat y_mat (cdist_of dist) limit None metric_name
            batch_size = inr b
          ∧ same_dists ((λ r : list Q, Fin <$> r) <$> a.1) b.1
          ∧ valid_rankings raws ((λ r : list Q, Fin <$> r) <$> a.1) a.2
          ∧ valid_rankings raws b.1 b.2
          ∧ Forall (ascending false) b.1).
Proof.
  intros Hn Hlim raws a. split; [by intros ->|]. intros Hy.
  eexists. split; [by apply _match_online_rows|].
  subst raws a.
  rewrite _match_rows. unfold cdist_of. cbn [fst snd].
  rewrite <-!list_fmap_compose. unfold compose.
  assert (Hrow : ∀ x,
    zip (Fin <$> (match_row dist limit None metric_name y_mat x).1)
      (match_row dist limit None metric_name y_mat x).2
    = smallest leb limit (candidates dist metric_name y_mat x)).
  { intros x. rewrite match_row_candidates. by rewrite Nat.min_l. }
  assert (Hlen : ∀ x,
    length (Fin <$> (match_row dist limit None metric_name y_mat x).1)
    = length (match_row dist limit None metric_name y_mat x).2).
  { intros x. destruct (length_match_row dist limit None metric_name y_mat x).
    rewrite length_fmap. lia. }
  split; [|split; [|split]].
  - apply Forall2_fmap_same. intros x _. cbv beta.
    destruct (online_row_candidates limit metric_name y_mat batch_size x Hn Hlim)
      as [Hk _].
    destruct (zip_eq_inv _ _ _ (Hlen x) (Hrow x)) as [-> _].
    by apply keq_score_eq, keq_sym.
  - apply Forall3_fmap_same. intros x _. cbv beta.
    destruct (zip_eq_inv _ _ _ (Hlen x) (Hrow x)) as [-> ->].
    apply candidates_ranking, smallest_submseteq.
  - apply Forall3_fmap_same. intros x _. cbv beta.
    apply candidates_ranking.
    by apply online_row_candidates.
  - apply Forall_fmap, Forall_forall. intros x _. unfold compose, ascending.
    eapply (StronglySorted_fmap fst (le_of leb)); [by intros [] []|].
    apply online_row_sorted.
Qed.
End Agreement.

Lemma matchers_agree_witness :
  ∃ b, _match_online [0; 5]%Q [5; 6; 1; 4; 5]%Q (cdist_of ex_dist) 3 None
         "euclidean" 2 = inr b
       ∧ same_dists
           ((λ r : list Q, Fin <$> r)
              <$> (_match [0; 5]%Q [5; 6; 1; 4; 5]%Q (cdist_of ex_dist) 3 None
                     "euclidean").1)
           b.1
       ∧ valid_rankings (cdist_of ex_dist [0; 5]%Q [5; 6; 1; 4; 5]%Q "euclidean")
           ((λ r : list Q, Fin <$> r)
              <$> (_match [0; 5]%Q [5; 6; 1; 4; 5]%Q (cdist_of ex_dist) 3 None
                     "euclidean").1)
           (_match [0; 5]%Q [5; 6; 1; 4; 5]%Q (cdist_of ex_dist) 3 None "euclidean").2
       ∧ valid_rankings (cdist_of ex_dist [0; 5]%Q [5; 6; 1; 4; 5]%Q "euclidean")
           b.1 b.2
       ∧ Forall (ascending false) b.1.
Proof.
  apply (proj2 (matchers_agree ex_dist [0; 5]%Q [5; 6; 1; 4; 5]%Q 3 "euclidean" 2
                  ltac:(lia) ltac:(simpl; lia))).
  discriminate.
Defined.

(** C1, as stated, fails in two ways.  With a limit above the number of
    targets the in-memory result has as many columns as there are targets and
    the batched result has [limit] columns.  With a normalization range the
    in-memory matcher rescales against the full row and the batched one
    against each batch's own top-k. *)
Lemma matchers_disagree :
  (∃ b, _match_online [0%Q] [5; 6]%Q (cdist_of ex_dist) 3 None "euclidean" 1 = inr b
        ∧ ¬ same_dists
              ((λ r : list Q, Fin <$> r)
                 <$> (_match [0%Q] [5; 6]%Q (cdist_of ex_dist) 3 None "euclidean").1)
              b.1)
  ∧ (∃ b, _match_online [0%Q] [5; 6; 1; 4]%Q (cdist_of ex_dist) 2 (Some (0, 1)%Q)
            "euclidean" 2 = inr b
          ∧ ¬ same_dists
                ((λ r : list Q, Fin <$> r)
                   <$> (_match [0%Q] [5; 6; 1; 4]%Q (cdist_of ex_dist) 2
                          (Some (0, 1)%Q) "euclidean").1)
                b.1).
Proof.
  split; (eexists; split; [reflexivity|]); intros H; vm_compute in H.
  - inversion H as [|? ? ? ? Hrow _]; subst.
    inversion Hrow as [|? ? ? ? _ H1]; subst.
    inversion H1 as [|? ? ? ? _ H2]; subst.
    inversion H2.
  - inversion H as [|? ? ? ? Hrow _]; subst.
    inversion Hrow as [|? ? ? ? _ H1]; subst.
    inversion H1 as [|? ? ? ? Hs _]; subst.
    vm_compute in Hs. discriminate.
Qed.

(** * Self exclusion keeps the requested number of matches *)


Section ExcludeSelf.
Context {E : Type} (library_dist : string → E → E → Q).
Implicit Types (h : heap E) (metric : Metric E).

Lemma length_embeddings h da (x_mat : list E) :
  embeddings h da = Some x_mat → length x_mat = length da.
Proof. intros H%embeddings_Some. symmetry. by eapply Forall2_length. Qed.

(** Positions and length of the candidate row when the limit does not
    exceed the number of targets. *)
Lemma cands_of_positions metric limit normalization metric_name batch_size
    exclude_self rhv y_mat x :
  nonpositive batch_size = false →
  limit_of limit exclude_self rhv ≤ length y_mat →
  length (cands_of library_dist metric limit normalization metric_name batch_size
            exclude_self rhv y_mat x) = limit_of limit exclude_self rhv
  ∧ (cands_of library_dist metric limit normalization metric_name batch_size
       exclude_self rhv y_mat x).*1 ⊆+ seq 0 (length y_mat).
Proof.
  intros Hb Hlim.
  rewrite <-(length_fmap fst (cands_of _ _ _ _ _ _ _ _ _ _)), fst_cands_of.
  destruct batch_size as [b|].
  - simpl in Hb. apply Z.leb_gt in Hb.
    rewrite length_fmap, length_online_row. split; [done|].
    apply online_row_positions; [lia|done].
  - destruct (length_match_row (dist_of library_dist metric)
                (limit_of limit exclude_self rhv) normalization
                (name_of metric metric_name) y_mat x) as [_ ->].
    split; [lia|]. unfold match_row. simpl.
    rewrite <-(length_fmap (dist_of library_dist metric (name_of metric metric_name) x)
                 y_mat), <-snd_enumerate.
    apply fmap_submseteq, top_k_row_submseteq.
Qed.



End ExcludeSelf.



(** * Placeholders of the batched matcher reach the match lists *)

Section Placeholders.
Context {E : Type} (library_dist : string → E → E → Q).
Implicit Types (h : heap E) (metric : Metric E).

Lemma ranked_all h lhv rhv metric_name only_id stop q (cs : list (nat * score)) :
  length cs ≤ stop →
  ranked h lhv rhv metric_name false only_id stop q cs
  = attached h lhv rhv only_id metric_name <$> cs.
Proof.
  intros Hlen. rewrite ranked_attached. f_equal.
  rewrite take_ge.
  - apply forallb_filter_id, forallb_forall. intros c _.
    unfold kept. by rewrite andb_false_r.
  - etrans; [apply filter_length_le|done].
Qed.

(** C10 (as amended): on the batched path with an effective limit above
    the number of targets, the row of every left-hand document is made of
    one entry per target, with a finite score, followed by placeholders
    [(Inf, 0)] up to the effective limit; the loop walks through the
    placeholders as through any candidate, and without [exclude_self] each
    of them is attached as a match that refers to the target at position 0
    and carries the score [Inf]. *)
Theorem match_online_placeholders lhv rhv metric (L : Q) (b : Z) normalization
    metric_name exclude_self only_id h h' :
  match_ library_dist lhv rhv metric (Some L) normalization metric_name (Some b)
    exclude_self only_id h = (Returned, h') →
  lhv ≠ [] → rhv ≠ [] →
  length rhv < limit_of (Some (py_int L)) exclude_self rhv →
  let lim := limit_of (Some (py_int L)) exclude_self rhv in
  let name := name_of metric metric_name in
  let placeholder := attached h lhv rhv only_id name (0, Inf) in
  id placeholder = id (h (nth 0 rhv 0)) ∧ score_of name placeholder = Some Inf
  ∧ ∃ x_mat y_mat dist idx,
      embeddings h lhv = Some x_mat ∧ embeddings h rhv = Some y_mat
      ∧ _match_online x_mat y_mat (cdist_of (dist_of library_dist metric))
          lim normalization name (Z.to_nat b) = inr (dist, idx)
      ∧ ∀ j q, lhv !! j = Some q →
          ∃ (d : list score) (i : list nat),
            length d = length rhv ∧ length i = length rhv
            ∧ Forall (λ s, is_finite s = true) d ∧ i ≡ₚ seq 0 (length rhv)
            ∧ dist !! j = Some (d ++ replicate (lim - length rhv) Inf)
            ∧ idx !! j = Some (i ++ replicate (lim - length rhv) 0)
            ∧ matches (h' q)
              = ranked h lhv rhv name exclude_self only_id
                  (stop_of (Some (py_int L)) exclude_self rhv) q
                  (zip (i ++ replicate (lim - length rhv) 0)
                     (d ++ replicate (lim - length rhv) Inf))
            ∧ (exclude_self = false →
               matches (h' q)
               = (attached h lhv rhv only_id name <$> zip i d)
                 ++ replicate (lim - length rhv) placeholder).
Proof.
  intros Hm Hl Hr Hlen lim name placeholder.
  split; [apply id_attached|]. split; [apply score_of_attached|].
  destruct (match_returned_inv _ _ _ _ _ _ _ _ _ _ _ _ Hm Hl Hr)
    as (Hlim & Hbat & Hmet & x_mat & y_mat & Hx & Hy).
  exists x_mat, y_mat.
  destruct (match_spec library_dist lhv rhv metric (Some L) normalization metric_name
              (Some b) exclude_self only_id h x_mat y_mat Hlim Hbat Hl Hr Hmet Hx Hy)
    as (h'' & Hm' & Ha & Ho & Hq).
  rewrite Hm in Hm'. injection Hm' as <-.
  change (py_int <$> Some L) with (Some (py_int L)) in Hq.
  pose proof (length_embeddings h rhv y_mat Hy) as Hly.
  assert (Hne : y_mat ≠ []) by (intros ->; by destruct rhv).
  simpl in Hbat. apply Z.leb_gt in Hbat.
  eexists _, _. split; [done|]. split; [done|].
  split; [apply _match_online_rows; [done|lia]|].
  intros j q Hj.
  apply embeddings_Some in Hx.
  destruct (Forall2_lookup_l _ _ _ _ _ Hx Hj) as (x & Hxj & Hqx).
  destruct (online_row_pads (dist_of library_dist metric) lim normalization name
              y_mat (Z.to_nat b) x) as (f & Hrow & Hlf & Hfin & Hperm); [lia|lia|].
  rewrite Hly in Hrow, Hlf, Hperm.
  exists f.*1, f.*2. rewrite !length_fmap.
  split; [done|]. split; [done|]. split.
  { apply Forall_fmap. eapply Forall_impl; [exact Hfin|]. done. }
  split; [done|].
  rewrite !list_lookup_fmap, Hxj. cbn [fmap option_fmap option_map].
  rewrite Hrow, !fmap_app, !fmap_replicate. cbn [fst snd].
  split; [done|]. split; [done|].
  assert (Hc : cands_of library_dist metric (Some (py_int L)) normalization
                 metric_name (Some b) exclude_self rhv y_mat x
               = zip (f.*2 ++ replicate (lim - length rhv) 0)
                   (f.*1 ++ replicate (lim - length rhv) Inf)).
  { unfold cands_of. fold lim name. rewrite Hrow.
    by rewrite !fmap_app, !fmap_replicate. }
  assert (Hmq : matches (h' q)
                = ranked h lhv rhv name exclude_self only_id
                    (stop_of (Some (py_int L)) exclude_self rhv) q
                    (zip (f.*2 ++ replicate (lim - length rhv) 0)
                       (f.*1 ++ replicate (lim - length rhv) Inf))).
  { rewrite <-Hc. apply Hq; [|done]. apply list_elem_of_lookup. by exists j. }
  split; [done|].
  intros ->. rewrite Hmq, ranked_all.
  - rewrite zip_with_app by (by rewrite !length_fmap).
    rewrite fmap_app. f_equal.
    rewrite zip_with_replicate_l by (by rewrite length_replicate).
    by rewrite !fmap_replicate.
  - rewrite length_zip_with, !length_app, !length_replicate, !length_fmap, Hlf.
    unfold stop_of, lim, limit_of in *. simpl in *.
    destruct (Z.eqb_spec (py_int L) 0); lia.
Qed.
End Placeholders.

Lemma match_online_placeholders_witness :
  id (attached ex_h [0] [1; 2] false
        (name_of (MetricName (E:=Q) "euclidean") None) (0, Inf))
  = id (ex_h (nth 0 [1; 2] 0))
  ∧ score_of (name_of (MetricName (E:=Q) "euclidean") None)
      (attached ex_h [0] [1; 2] false
         (name_of (MetricName (E:=Q) "euclidean") None) (0, Inf)) = Some Inf
  ∧ ∃ x_mat y_mat dist idx,
      embeddings ex_h [0] = Some x_mat ∧ embeddings ex_h [1; 2] = Some y_mat
      ∧ _match_online x_mat y_mat
          (cdist_of (dist_of ex_dist (MetricName "euclidean")))
          (limit_of (Some (py_int 3)) false [1; 2]) None
          (name_of (MetricName (E:=Q) "euclidean") None) (Z.to_nat 1)
        = inr (dist, idx)
      ∧ ∀ j q, [0] !! j = Some q →
          ∃ (d : list score) (i : list nat),
            length d = length [1; 2] ∧ length i = length [1; 2]
            ∧ Forall (λ s, is_finite s = true) d ∧ i ≡ₚ seq 0 (length [1; 2])
            ∧ dist !! j
              = Some (d ++ replicate
                             (limit_of (Some (py_int 3)) false [1; 2] - length [1; 2])
                             Inf)
            ∧ idx !! j
              = Some (i ++ replicate
                             (limit_of (Some (py_int 3)) false [1; 2] - length [1; 2])
                             0)
            ∧ matches
                ((match_ ex_dist [0] [1; 2] (MetricName "euclidean") (Some 3%Q) None
                    None (Some 1%Z) false false ex_h).2 q)
              = ranked ex_h [0] [1; 2] (name_of (MetricName (E:=Q) "euclidean") None)
                  false false (stop_of (Some (py_int 3)) false [1; 2]) q
                  (zip (i ++ replicate
                              (limit_of (Some (py_int 3)) false [1; 2]
                               - length [1; 2]) 0)
                     (d ++ replicate
                             (limit_of (Some (py_int 3)) false [1; 2]
                              - length [1; 2]) Inf))
            ∧ (false = false →
               matches
                 ((match_ ex_dist [0] [1; 2] (MetricName "euclidean") (Some 3%Q) None
                     None (Some 1%Z) false false ex_h).2 q)
               = (attached ex_h [0] [1; 2] false
                    (name_of (MetricName (E:=Q) "euclidean") None) <$> zip i d)
                 ++ replicate
                      (limit_of (Some (py_int 3)) false [1; 2] - length [1; 2])
                      (attached ex_h [0] [1; 2] false
                         (name_of (MetricName (E:=Q) "euclidean") None) (0, Inf))).
Proof.
  eapply (match_online_placeholders ex_dist [0] [1; 2] (MetricName "euclidean") 3 1
            None None false false ex_h).
  - reflexivity.
  - discriminate.
  - discriminate.
  - simpl. lia.
Defined.

(** C10, as stated, fails in its last part: with [exclude_self] a query
    that is the only target gets the row [(0, 0), (Inf, 0)]; the placeholder
    refers to the query itself and is skipped like the real entry, so no
    match with an infinite score is attached. *)
Lemma match_placeholder_skipped :
  _match_online [0%Q] [0%Q] (cdist_of ex_dist) 2 None "euclidean" 1
  = inr ([[Fin 0; Inf]], [[0; 0]])
  ∧ ¬ ∃ m, m ∈ matches
             ((match_ ex_dist [0] [0] (MetricName "euclidean") (Some 1%Q) None None
                 (Some 1%Z) true false ex_h).2 0)
           ∧ score_of "euclidean" m = Some Inf.
Proof.
  split; [reflexivity|].
  intros (m & Hm & _). vm_compute in Hm. by apply elem_of_nil in Hm.
Qed.

(** * Normalized scores *)

Lemma rescale_sub_range t (row sub : list Q) :
  (t.1 <= t.2)%Q → (∀ u, u ∈ sub → u ∈ row) →
  Forall (λ v, (t.1 <= v)%Q ∧ (v <= t.2)%Q)
    (rescale t (row_min row) (row_max row) <$> sub).
Proof.
  intros Ht Hsub. apply Forall_fmap, Forall_forall. intros u Hu. simpl.
  specialize (Hsub u Hu).
  assert (Hne : row ≠ []) by (intros ->; by apply elem_of_nil in Hsub).
  destruct (row_min_spec row Hne) as [_ Hmin].
  destruct (row_max_spec row Hne) as [_ Hmax].
  eapply Forall_forall in Hmin; [|exact Hsub].
  eapply Forall_forall in Hmax; [|exact Hsub].
  by apply rescale_range.
Qed.

Lemma zip_Fin_within lo hi (d : list Q) (ix : list nat) :
  Forall (λ v, (lo <= v)%Q ∧ (v <= hi)%Q) d →
  Forall (λ p : score * nat, score_within lo hi p.1) (zip (Fin <$> d) ix).
Proof.
  intros Hd. revert ix. induction Hd as [|v d Hv _ IH]; intros [|i ix]; csimpl;
    try constructor; [|done].
  simpl. by exists v.
Qed.

Section Normalized.
Context {E : Type} (library_dist : string → E → E → Q).
Implicit Types (h : heap E) (metric : Metric E).

Lemma cands_inmemory_elem metric limit t metric_name exclude_self rhv y_mat x :
  let raw := dist_of library_dist metric (name_of metric metric_name) x <$> y_mat in
  Forall (λ c : nat * score,
            ∃ v, raw !! c.1 = Some v
                 ∧ c.2 = Fin (rescale t (row_min raw) (row_max raw) v))
    (cands_of library_dist metric limit (Some t) metric_name None exclude_self
       rhv y_mat x).
Proof.
  intros raw. unfold cands_of, match_row. cbn [fst snd]. fold raw.
  set (tk := top_k_row Qle_bool raw (limit_of limit exclude_self rhv `min` length y_mat)).
  rewrite <-!list_fmap_compose.
  rewrite zip_with_fmap_same.
  apply Forall_fmap.
  eapply submseteq_Forall; [apply top_k_row_submseteq|].
  eapply Forall_impl; [apply enumerate_elem|].
  intros [v i] Hp. simpl in *. by exists v.
Qed.

Lemma cands_inmemory_within metric limit t metric_name exclude_self rhv y_mat x :
  (t.1 <= t.2)%Q →
  Forall (score_within t.1 t.2)
    (cands_of library_dist metric limit (Some t) metric_name None exclude_self
       rhv y_mat x).*2.
Proof.
  intros Ht. apply Forall_fmap.
  eapply Forall_impl; [apply cands_inmemory_elem|].
  intros c (v & Hv & Hc). simpl. unfold score_within. rewrite Hc.
  eexists. split; [done|].
  apply rescale_range; [done| |].
  - assert (Hne : dist_of library_dist metric (name_of metric metric_name) x <$> y_mat
                  ≠ []).
    { intros Hnil. by rewrite Hnil in Hv. }
    destruct (row_min_spec _ Hne) as [_ Hmin].
    eapply Forall_forall in Hmin; [done|]. by eapply list_elem_of_lookup_2.
  - assert (Hne : dist_of library_dist metric (name_of metric metric_name) x <$> y_mat
                  ≠ []).
    { intros Hnil. by rewrite Hnil in Hv. }
    destruct (row_max_spec _ Hne) as [_ Hmax].
    eapply Forall_forall in Hmax; [done|]. by eapply list_elem_of_lookup_2.
Qed.

Lemma batch_row_within (dist : string → E → E → Q) limit t metric_name x b :
  (t.1 <= t.2)%Q →
  Forall (λ p : score * nat, score_within t.1 t.2 p.1)
    (batch_row dist limit (Some t) metric_name x b).
Proof.
  intros Ht. unfold batch_row. apply zip_Fin_within.
  by apply rescale_sub_range.
Qed.

Lemma online_row_within (dist : string → E → E → Q) limit t metric_name y n x :
  (t.1 <= t.2)%Q → 1 ≤ n → limit ≤ length y →
  Forall (score_within t.1 t.2)
    (online_row dist limit (Some t) metric_name y n x).*1.
Proof.
  intros Ht Hn Hlim. apply Forall_fmap.
  destruct (online_row_real dist limit (Some t) metric_name y n x Hn Hlim)
    as (_ & Hsub & _).
  eapply submseteq_Forall; [exact Hsub|].
  unfold compose. clear Hsub.
  induction (batches y n) as [|b bs IH]; csimpl; [constructor|].
  apply Forall_app. split; [|exact IH].
  by apply batch_row_within.
Qed.

(** C6 (as amended): with a normalization range [t] and after a call on
    non-empty arrays that returns, (1) if [t.1 <= t.2], as for [(0, 1)],
    every score of every match list lies between [t.1] and [t.2], on the
    in-memory path always and on the batched path when the effective limit
    does not exceed the number of targets; (2) if [t.2 <= t.1], as for
    [(1, 0)], on the in-memory path the match list of a query is a list of
    attached candidates, at positions of the target array, among which one
    that is closest by raw distance carries the highest score. *)
Theorem match_normalized_scores lhv rhv metric limit t metric_name batch_size
    exclude_self only_id h h' :
  match_ library_dist lhv rhv metric limit (Some t) metric_name batch_size
    exclude_self only_id h = (Returned, h') →
  lhv ≠ [] → rhv ≠ [] →
  ∀ q, q ∈ lhv →
    ((t.1 <= t.2)%Q →
     batch_size = None ∨ limit_of (py_int <$> limit) exclude_self rhv ≤ length rhv →
     length (match_scores (name_of metric metric_name) (matches (h' q)))
     = length (matches (h' q))
     ∧ Forall (score_within t.1 t.2)
         (match_scores (name_of metric metric_name) (matches (h' q))))
    ∧ ((t.2 <= t.1)%Q → batch_size = None →
       ∃ x y_mat cs,
         embedding (h q) = Some x ∧ embeddings h rhv = Some y_mat
         ∧ matches (h' q)
           = attached h lhv rhv only_id (name_of metric metric_name) <$> cs
         ∧ closest_has_highest
             (dist_of library_dist metric (name_of metric metric_name) x <$> y_mat)
             cs).
Proof.
  intros Hm Hl Hr q Hq.
  destruct (match_returned _ _ _ _ _ _ _ _ _ _ _ _ Hm Hl Hr)
    as (_ & Hbat & Ha & y_mat & Hy & Hrows).
  destruct (Hrows q Hq) as (x & Hx & Hmq). clear Hm Hrows.
  generalize dependent (py_int <$> limit). clear limit. intros limit Hmq.
  destruct (ranked_sublist h lhv rhv (name_of metric metric_name) exclude_self
              only_id (stop_of limit exclude_self rhv) q
              (cands_of library_dist metric limit (Some t) metric_name
                 batch_size exclude_self rhv y_mat x)) as (c' & Hsub & Hc' & _).
  rewrite Hmq, Hc'. split.
  - intros Ht Hcase. rewrite match_scores_attached, !length_fmap. split; [done|].
    apply Forall_forall. intros s Hs.
    eapply elem_of_sublist in Hs; [|by apply fmap_sublist].
    revert s Hs. apply Forall_forall.
    destruct batch_size as [b|].
    + destruct Hcase as [?|Hcase]; [done|].
      rewrite snd_cands_of. simpl in Hbat. apply Z.leb_gt in Hbat.
      apply online_row_within; [done|lia|].
      by rewrite (length_embeddings h rhv y_mat Hy).
    + by apply cands_inmemory_within.
  - intros Ht ->. exists x, y_mat, c'. split; [done|]. split; [done|].
    split; [done|].
    pose proof (cands_inmemory_elem metric limit t metric_name exclude_self rhv
                  y_mat x) as Hel. cbv zeta in Hel.
    set (raw := dist_of library_dist metric (name_of metric metric_name) x <$> y_mat)
      in *.
    assert (Hin : ∀ a, a ∈ c' →
              ∃ v, raw !! a.1 = Some v
                   ∧ a.2 = Fin (rescale t (row_min raw) (row_max raw) v)).
    { intros a Hin. eapply Forall_forall in Hel; [exact Hel|].
      by eapply elem_of_sublist. }
    split.
    { apply Forall_forall. intros a Ha'.
      destruct (Hin a Ha') as (v & Hv & _). by eapply lookup_lt_Some. }
    intros c1 Hc1 Hclose c Hc.
    destruct (Hclose c Hc) as (r1 & r & Hr1 & Hr2 & Hle).
    destruct (Hin c1 Hc1) as (v1 & Hv1 & ->).
    destruct (Hin c Hc) as (v & Hv & ->).
    assert (v1 = r1) as -> by congruence. assert (v = r) as -> by congruence.
    simpl. apply Qle_bool_iff.
    apply rescale_anti; [done|apply row_min_le_max|done].
Qed.
End Normalized.

Lemma match_normalized_scores_witness :
  (length (match_scores "euclidean" (matches
     ((match_ ex_dist [0] [1; 2; 3; 4] (MetricName "euclidean") (Some 2%Q)
         (Some (0, 1)%Q) None None false false ex_h).2 0)))
   = length (matches
     ((match_ ex_dist [0] [1; 2; 3; 4] (MetricName "euclidean") (Some 2%Q)
         (Some (0, 1)%Q) None None false false ex_h).2 0))
   ∧ Forall (score_within 0 1) (match_scores "euclidean" (matches
       ((match_ ex_dist [0] [1; 2; 3; 4] (MetricName "euclidean") (Some 2%Q)
           (Some (0, 1)%Q) None None false false ex_h).2 0))))
  ∧ ∃ x y_mat cs,
      embedding (ex_h 0) = Some x ∧ embeddings ex_h [1; 2; 3; 4] = Some y_mat
      ∧ matches
          ((match_ ex_dist [0] [1; 2; 3; 4] (MetricName "euclidean") (Some 2%Q)
              (Some (1, 0)%Q) None None false false ex_h).2 0)
        = attached ex_h [0] [1; 2; 3; 4] false "euclidean" <$> cs
      ∧ closest_has_highest (ex_dist "euclidean" x <$> y_mat) cs.
Proof.
  split.
  - eapply (proj1 (match_normalized_scores ex_dist [0] [1; 2; 3; 4]
                     (MetricName "euclidean") (Some 2%Q) (0, 1)%Q None None false false
                     ex_h _ eq_refl ltac:(discriminate) ltac:(discriminate)
                     0 ltac:(by left))).
    + apply Qle_bool_iff. reflexivity.
    + by left.
  - eapply (proj2 (match_normalized_scores ex_dist [0] [1; 2; 3; 4]
                     (MetricName "euclidean") (Some 2%Q) (1, 0)%Q None None false false
                     ex_h _ eq_refl ltac:(discriminate) ltac:(discriminate)
                     0 ltac:(by left))).
    + apply Qle_bool_iff. reflexivity.
    + reflexivity.
Defined.

(** C6, as stated, fails on the batched path: each batch is rescaled on its
    own before the merge keeps the smallest scores.  With the range [(1, 0)],
    [limit = 3] and two batches of three targets, at the raw distances 1, 2, 4
    and 10, 25, 30, the batches are rescaled to 1, 2/3, 0 and to 1, 1/4, 0;
    the three smallest scores are those of the targets at 4, 30 and 25.  The
    match list is made of these three, whichever way equal scores are
    ordered, and the closest of them, at 4, carries the score 0, below the
    score 1/4 of the target at 25. *)
Lemma match_online_closest_not_highest :
  id <$> matches
           ((match_ ex_dist [0] [1; 2; 3; 4; 5; 6] (MetricName "euclidean") (Some 3%Q)
               (Some (1, 0)%Q) None (Some 3%Z) false false ex_h_batches).2 0)
  ≡ₚ ["c"; "e"; "f"]%string
  ∧ ¬ ∃ cs,
        matches
          ((match_ ex_dist [0] [1; 2; 3; 4; 5; 6] (MetricName "euclidean") (Some 3%Q)
              (Some (1, 0)%Q) None (Some 3%Z) false false ex_h_batches).2 0)
        = attached ex_h_batches [0] [1; 2; 3; 4; 5; 6] false "euclidean" <$> cs
        ∧ closest_has_highest
            (ex_dist "euclidean" 0%Q <$> [1; 2; 4; 10; 25; 30]%Q) cs.
Proof.
  set (ms := matches _). vm_compute in ms. subst ms.
  split.
  { csimpl. apply perm_skip, perm_swap. }
  intros (cs & Hcs & _ & Hc).
  remember (attached ex_h_batches [0] [1; 2; 3; 4; 5; 6] false "euclidean") as f eqn:Hf.
  destruct cs as [|[i1 s1] [|[i2 s2] [|[i3 s3] [|]]]]; try discriminate.
  csimpl in Hcs. injection Hcs as H1 H2 H3. subst f.
  assert (∀ i s (m : Document Q),
            m = attached ex_h_batches [0] [1; 2; 3; 4; 5; 6] false "euclidean" (i, s) →
            (id m = "c"%string → i = 2) ∧ (id m = "e"%string → i = 4)
            ∧ (id m = "f"%string → i = 5)
            ∧ (scores m = [("euclidean"%string, s)])) as Hpos.
  { intros i s m ->. rewrite id_attached. cbn [fst].
    assert (scores (attached ex_h_batches [0] [1; 2; 3; 4; 5; 6] false "euclidean"
                      (i, s)) = [("euclidean"%string, s)]) as ->.
    { unfold attached, resolve. cbn [fst snd].
      (do 7 (try destruct i as [|i])); reflexivity. }
    repeat split; intros Hid;
      (do 7 (try destruct i as [|i])); simpl in Hid; try discriminate; done. }
  destruct (Hpos _ _ _ H1) as (Hi1 & _ & _ & Hs1).
  destruct (Hpos _ _ _ H2) as (_ & _ & Hi2 & Hs2).
  destruct (Hpos _ _ _ H3) as (_ & Hi3 & _ & Hs3).
  clear H1 H2 H3 Hpos. simpl in *.
  specialize (Hi1 eq_refl). specialize (Hi2 eq_refl). specialize (Hi3 eq_refl).
  subst i1 i2 i3. injection Hs1 as <-. injection Hs2 as <-. injection Hs3 as <-.
  assert (Hbad : score_leb (4, Fin (5 # 20)).2 (2, Fin (0 # 3)).2 = true).
  { apply (Hc (2, Fin (0 # 3))); [by left| |by do 2 right; left].
    intros c Hin. exists (ex_dist "euclidean" 0 4)%Q.
    repeat (apply elem_of_cons in Hin as [->|Hin]);
      [exists (ex_dist "euclidean" 0 4)%Q|exists (ex_dist "euclidean" 0 30)%Q
       |exists (ex_dist "euclidean" 0 25)%Q|by apply elem_of_nil in Hin];
      (split; [reflexivity|split; [reflexivity|]]);
      apply Qle_bool_iff; reflexivity. }
  discriminate.
Qed.

(** * Further properties of [match] *)

Section MatchMore.
Context {E : Type} (library_dist : string → E → E → Q).
Implicit Types (h : heap E) (metric : Metric E).

Lemma document_eq (d1 d2 : Document E) :
  id d1 = id d2 → embedding d1 = embedding d2 → scores d1 = scores d2 →
  matches d1 = matches d2 → d1 = d2.
Proof. destruct d1, d2; simpl; by intros -> -> -> ->. Qed.

Lemma embeddings_agree lhv h1 h2 da :
  agree lhv h1 h2 → embeddings h1 da = embeddings h2 da.
Proof.
  intros Ha. unfold embeddings. induction da as [|l da IH]; [done|].
  simpl. destruct (Ha l) as (_ & -> & _). by rewrite IH.
Qed.

Lemma agree_sym lhv h1 h2 : agree lhv h1 h2 → agree lhv h2 h1.
Proof.
  intros Ha l. destruct (Ha l) as (? & ? & ? & Ho).
  repeat split; try done. intros Hl. by rewrite Ho.
Qed.

(** A call either leaves the store as it is, or is on the path through the
    loops. *)
Lemma match_path lhv rhv metric limit normalization metric_name batch_size
    exclude_self only_id h :
  (match_ library_dist lhv rhv metric limit normalization metric_name batch_size
     exclude_self only_id h).2 = h
  ∨ ∃ x_mat y_mat,
      nonpositive_limit limit = false ∧ nonpositive batch_size = false
      ∧ lhv ≠ [] ∧ rhv ≠ [] ∧ metric ≠ MetricOther
      ∧ embeddings h lhv = Some x_mat ∧ embeddings h rhv = Some y_mat.
Proof.
  unfold match_.
  destruct (nonpositive_limit limit); [by left|].
  destruct (nonpositive batch_size); [by left|].
  destruct (decide (lhv = [])) as [->|Hl]; [by left|].
  destruct (decide (rhv = [])) as [->|Hr].
  { left. by rewrite andb_false_r. }
  rewrite !bool_decide_eq_true_2 by done. cbn [andb negb].
  destruct (embeddings h lhv) as [x_mat|] eqn:Hx.
  2:{ left. by destruct metric. }
  destruct (embeddings h rhv) as [y_mat|] eqn:Hy.
  2:{ left. by destruct metric. }
  destruct metric as [n|n f|]; [| |by left];
    right; by exists x_mat, y_mat.
Qed.

Lemma match_outcome_agree lhv rhv metric limit normalization metric_name batch_size
    exclude_self only_id h1 h2 :
  agree lhv h1 h2 →
  (match_ library_dist lhv rhv metric limit normalization metric_name batch_size
     exclude_self only_id h1).1
  = (match_ library_dist lhv rhv metric limit normalization metric_name batch_size
       exclude_self only_id h2).1.
Proof.
  intros Ha. unfold match_.
  rewrite (embeddings_agree lhv h1 h2 lhv Ha), (embeddings_agree lhv h1 h2 rhv Ha).
  destruct (nonpositive_limit limit); [done|].
  destruct (nonpositive batch_size); [done|].
  destruct (negb _); [done|].
  destruct metric; try done;
    destruct (embeddings h2 lhv); try done;
    destruct (embeddings h2 rhv); try done;
    destruct batch_size; by repeat case_match.
Qed.

(** X1: whatever the outcome, a call changes nothing but the match lists of
    the left-hand documents: every document keeps its id, its embedding and
    its scores, and a document outside the left-hand array is left as it
    was. *)
Theorem match_frame lhv rhv metric limit normalization metric_name batch_size
    exclude_self only_id h :
  ∀ l,
    let h' := (match_ library_dist lhv rhv metric limit normalization metric_name
                 batch_size exclude_self only_id h).2 in
    id (h' l) = id (h l) ∧ embedding (h' l) = embedding (h l)
    ∧ scores (h' l) = scores (h l) ∧ (l ∉ lhv → h' l = h l).
Proof.
  intros l.
  destruct (match_path lhv rhv metric limit normalization metric_name batch_size
              exclude_self only_id h)
    as [Hsame|(x_mat & y_mat & Hlim & Hbat & Hl & Hr & Hm & Hx & Hy)].
  - cbv zeta. by rewrite Hsame.
  - destruct (match_spec library_dist lhv rhv metric limit normalization metric_name
                batch_size exclude_self only_id h x_mat y_mat Hlim Hbat Hl Hr Hm Hx Hy)
      as (h' & Hm' & Ha & _).
    cbv zeta. rewrite Hm'. apply Ha.
Qed.

(** Stores that differ in the match lists of left-hand documents only lead
    to the same outcome and, through the loops, to the same match lists. *)
Lemma match_agree lhv rhv metric limit normalization metric_name batch_size
    exclude_self only_id h1 h2 x_mat y_mat :
  agree lhv h1 h2 →
  nonpositive_limit limit = false → nonpositive batch_size = false →
  lhv ≠ [] → rhv ≠ [] → metric ≠ MetricOther →
  embeddings h1 lhv = Some x_mat → embeddings h1 rhv = Some y_mat →
  ∀ l,
    (match_ library_dist lhv rhv metric limit normalization metric_name batch_size
       exclude_self only_id h1).2 l
    = (match_ library_dist lhv rhv metric limit normalization metric_name batch_size
         exclude_self only_id h2).2 l.
Proof.
  intros Ha Hlim Hbat Hl Hr Hm Hx Hy l.
  assert (Hx2 : embeddings h2 lhv = Some x_mat)
    by (by rewrite <-(embeddings_agree lhv h1 h2)).
  assert (Hy2 : embeddings h2 rhv = Some y_mat)
    by (by rewrite <-(embeddings_agree lhv h1 h2)).
  destruct (match_spec library_dist lhv rhv metric limit normalization metric_name
              batch_size exclude_self only_id h1 x_mat y_mat Hlim Hbat Hl Hr Hm Hx Hy)
    as (h1' & -> & Ha1 & Ho1 & Hq1).
  destruct (match_spec library_dist lhv rhv metric limit normalization metric_name
              batch_size exclude_self only_id h2 x_mat y_mat Hlim Hbat Hl Hr Hm Hx2 Hy2)
    as (h2' & -> & Ha2 & Ho2 & Hq2).
  cbn [snd].
  destruct (decide (l ∈ lhv)) as [Hin|Hnin].
  - destruct (Ha1 l) as (Hi1 & He1 & Hs1 & _).
    destruct (Ha2 l) as (Hi2 & He2 & Hs2 & _).
    destruct (Ha l) as (Hi & He & Hs & _).
    apply document_eq; try congruence.
    apply embeddings_Some in Hx.
    apply list_elem_of_lookup in Hin as [i Hi'].
    destruct (Forall2_lookup_l _ _ _ _ _ Hx Hi') as (x & _ & Hlx).
    assert (Hin : l ∈ lhv) by (apply list_elem_of_lookup; by exists i).
    rewrite (Hq1 l x Hin Hlx), (Hq2 l x Hin) by congruence.
    unfold ranked. rewrite Hi. f_equal. f_equal.
    apply list_fmap_ext. intros _ c _. by apply attached_agree.
  - rewrite Ho1, Ho2 by done. destruct (Ha l) as (_ & _ & _ & Ho). by apply Ho.
Qed.

(** X2: a call is idempotent: repeating it with the same arguments on the
    store it left gives the same outcome and the same store. *)
Theorem match_idempotent lhv rhv metric limit normalization metric_name batch_size
    exclude_self only_id h :
  let r := match_ library_dist lhv rhv metric limit normalization metric_name
             batch_size exclude_self only_id h in
  let r' := match_ library_dist lhv rhv metric limit normalization metric_name
              batch_size exclude_self only_id r.2 in
  r'.1 = r.1 ∧ ∀ l, r'.2 l = r.2 l.
Proof.
  cbv zeta.
  destruct (match_path lhv rhv metric limit normalization metric_name batch_size
              exclude_self only_id h)
    as [Hsame|(x_mat & y_mat & Hlim & Hbat & Hl & Hr & Hm & Hx & Hy)].
  - rewrite Hsame. split; [done|]. intros l. by rewrite Hsame.
  - destruct (match_spec library_dist lhv rhv metric limit normalization metric_name
                batch_size exclude_self only_id h x_mat y_mat Hlim Hbat Hl Hr Hm Hx Hy)
      as (h' & Hm' & Ha & _).
    split.
    + apply match_outcome_agree. rewrite Hm'. exact Ha.
    + intros l.
      pose proof (match_agree lhv rhv metric limit normalization metric_name batch_size
                    exclude_self only_id h h' x_mat y_mat (agree_sym _ _ _ Ha)
                    Hlim Hbat Hl Hr Hm Hx Hy l) as Heq.
      rewrite Hm' at 1. cbn [snd]. rewrite <-Heq. by rewrite Hm'.
Qed.

(** X3: the match lists are rebuilt from scratch: two stores that differ
    only in the match lists of the left-hand documents give the same outcome
    and, when the arrays are non-empty and the call returns, the same store
    after the call. *)
Theorem match_forgets_old_matches lhv rhv metric limit normalization metric_name
    batch_size exclude_self only_id h1 h2 :
  agree lhv h1 h2 → lhv ≠ [] → rhv ≠ [] →
  let r1 := match_ library_dist lhv rhv metric limit normalization metric_name
              batch_size exclude_self only_id h1 in
  let r2 := match_ library_dist lhv rhv metric limit normalization metric_name
              batch_size exclude_self only_id h2 in
  r1.1 = r2.1 ∧ (r1.1 = Returned → ∀ l, r1.2 l = r2.2 l).
Proof.
  intros Ha Hl Hr. cbv zeta. split; [by apply match_outcome_agree|].
  intros Hret l.
  destruct (match_returned_inv library_dist lhv rhv metric limit normalization
              metric_name batch_size exclude_self only_id h1
              (match_ library_dist lhv rhv metric limit normalization metric_name
                 batch_size exclude_self only_id h1).2)
    as (Hlim & Hbat & Hm & x_mat & y_mat & Hx & Hy); [|done|done|].
  { rewrite <-Hret. by destruct (match_ _ _ _ _ _ _ _ _ _ _ _). }
  by eapply match_agree.
Qed.
End MatchMore.

(** * Shapes and positions of the matchers' results *)

Section Positions.
Context {E : Type} (dist : string → E → E → Q).
Local Abbreviation leb := (by_key (I:=nat) score_leb).
Local Abbreviation pad := ((Inf, 0) : score * nat).

Lemma match_row_positions limit normalization metric_name (y_mat : list E) x :
  (match_row dist limit normalization metric_name y_mat x).2
  ⊆+ seq 0 (length y_mat).
Proof.
  assert ((match_row dist limit normalization metric_name y_mat x).2
          = (match_row dist limit None metric_name y_mat x).2) as -> by done.
  pose proof (match_row_candidates dist limit metric_name y_mat x) as Hc.
  cbv zeta in Hc.
  destruct (length_match_row dist limit None metric_name y_mat x) as [H1 H2].
  rewrite <-(snd_zip (Fin <$> (match_row dist limit None metric_name y_mat x).1)
               (match_row dist limit None metric_name y_mat x).2)
    by (rewrite length_fmap; lia).
  rewrite Hc, <-snd_candidates with (dist := dist) (metric_name := metric_name) (x := x).
  apply fmap_submseteq, smallest_submseteq.
Qed.

Lemma batches_in_range (y : list E) n :
  1 ≤ n → Forall (λ b, b.2 + length b.1 ≤ length y) (batches y n).
Proof.
  intros Hn.
  apply (batch_generator_ind y n (λ _ bs, Forall (λ b, b.2 + length b.1 ≤ length y) bs) Hn).
  - intros. constructor.
  - intros i rest Hi IH. constructor; [|done]. simpl.
    rewrite length_take, length_drop. lia.
Qed.

Lemma online_row_in_range limit normalization metric_name (y : list E) n x :
  1 ≤ n → y ≠ [] →
  Forall (λ i, i < length y)
    (online_row dist limit normalization metric_name y n x).*2.
Proof.
  intros Hn Hy.
  assert (0 < length y) by (destruct y; simpl; [done|lia]).
  apply Forall_fmap.
  eapply submseteq_Forall; [apply running_submseteq|].
  apply Forall_app. split.
  - apply Forall_replicate. unfold compose. simpl. done.
  - apply Forall_concat, Forall_fmap.
    eapply Forall_impl; [apply (batches_in_range y n Hn)|].
    intros b Hb. unfold compose. cbv beta in Hb.
    pose proof (batch_row_positions dist limit normalization metric_name x b) as Hp.
    apply (Forall_fmap snd (λ i, i < length y)).
    eapply submseteq_Forall; [exact Hp|].
    apply Forall_forall. intros i Hi%elem_of_seq. lia.
Qed.

(** X4: [_match] returns one row per query in both arrays, every row has
    [min(limit, len(y_mat))] columns, and the positions of a row are
    pairwise distinct indices into [y_mat]. *)
Theorem _match_shape x_mat (y_mat : list E) limit normalization metric_name :
  let r := _match x_mat y_mat (cdist_of dist) limit normalization metric_name in
  length r.1 = length x_mat ∧ length r.2 = length x_mat
  ∧ Forall (λ row, length row = limit `min` length y_mat) r.1
  ∧ Forall (λ row, length row = limit `min` length y_mat ∧ NoDup row
                   ∧ Forall (λ i, i < length y_mat) row) r.2.
Proof.
  cbv zeta. rewrite _match_rows. cbn [fst snd]. rewrite !length_fmap.
  split; [done|]. split; [done|]. split.
  - apply Forall_fmap, Forall_forall. intros x _. unfold compose.
    apply (length_match_row dist limit normalization metric_name y_mat x).
  - apply Forall_fmap, Forall_forall. intros x _. unfold compose.
    pose proof (match_row_positions limit normalization metric_name y_mat x) as Hp.
    split; [apply (length_match_row dist limit normalization metric_name y_mat x)|].
    split.
    + eapply submseteq_NoDup; [exact Hp|apply NoDup_seq].
    + eapply submseteq_Forall; [exact Hp|].
      apply Forall_forall. intros i Hi%elem_of_seq. lia.
Qed.

(** X5: [_match_online] raises [IndexError] on an empty target array and
    [ValueError] for a batch size of zero; with a target and a batch size of
    at least one it returns one row per query in both arrays, and every row
    has exactly [limit] columns, also when there are fewer targets than
    that. *)
Theorem _match_online_shape x_mat (y_darray : list E) limit normalization
    metric_name batch_size :
  (y_darray = [] →
   _match_online x_mat y_darray (cdist_of dist) limit normalization metric_name
     batch_size = inl IndexError)
  ∧ (y_darray ≠ [] → batch_size = 0 →
     _match_online x_mat y_darray (cdist_of dist) limit normalization metric_name
       batch_size = inl ValueError)
  ∧ (y_darray ≠ [] → 1 ≤ batch_size →
     ∃ r, _match_online x_mat y_darray (cdist_of dist) limit normalization
            metric_name batch_size = inr r
          ∧ length r.1 = length x_mat ∧ length r.2 = length x_mat
          ∧ Forall (λ row, length row = limit) r.1
          ∧ Forall (λ row, length row = limit) r.2).
Proof.
  split; [by intros ->|]. split.
  - intros Hy ->. unfold _match_online. by destruct y_darray.
  - intros Hy Hn. eexists. split; [by apply _match_online_rows|].
    cbn [fst snd]. rewrite !length_fmap.
    split; [done|]. split; [done|].
    split; apply Forall_fmap, Forall_forall; intros x _; unfold compose;
      rewrite length_fmap; apply length_online_row.
Qed.

(** X6: with a batch size of at least one and a non-empty target array,
    [_match_online] returns, and every position it returns, placeholders
    included, is an index into the target array. *)
Theorem _match_online_positions_in_range x_mat (y_darray : list E) limit
    normalization metric_name batch_size :
  1 ≤ batch_size → y_darray ≠ [] →
  ∃ r, _match_online x_mat y_darray (cdist_of dist) limit normalization
         metric_name batch_size = inr r
       ∧ Forall (Forall (λ i, i < length y_darray)) r.2.
Proof.
  intros Hn Hy. eexists. split; [by apply _match_online_rows|]. cbn [snd].
  apply Forall_fmap, Forall_forall. intros x _. unfold compose.
  by apply online_row_in_range.
Qed.
End Positions.

Lemma _match_online_positions_in_range_witness :
  ∃ r, _match_online [0%Q; 5%Q] [0%Q; 5%Q; 6%Q] (cdist_of ex_dist) 4 None
         "euclidean" 2 = inr r
       ∧ Forall (Forall (λ i, i < 3)) r.2.
Proof.
  apply (_match_online_positions_in_range ex_dist [0%Q; 5%Q] [0%Q; 5%Q; 6%Q] 4 None
           "euclidean" 2); [lia|done].
Defined.

Lemma match_forgets_old_matches_witness :
  agree [0] ex_h_stale (ex_store [ex_doc "a" 0])
  ∧ (match_ ex_dist [0] [0] (MetricName "euclidean") (Some 1%Q) None None None
       false false ex_h_stale).1
    = (match_ ex_dist [0] [0] (MetricName "euclidean") (Some 1%Q) None None None
         false false (ex_store [ex_doc "a" 0])).1
  ∧ ((match_ ex_dist [0] [0] (MetricName "euclidean") (Some 1%Q) None None None
        false false ex_h_stale).1 = Returned →
     ∀ l, (match_ ex_dist [0] [0] (MetricName "euclidean") (Some 1%Q) None None None
             false false ex_h_stale).2 l
          = (match_ ex_dist [0] [0] (MetricName "euclidean") (Some 1%Q) None None None
               false false (ex_store [ex_doc "a" 0])).2 l).
Proof.
  assert (Ha : agree [0] ex_h_stale (ex_store [ex_doc "a" 0])).
  { intros [|[|l]]; repeat split; try done. intros []. by left. }
  split; [exact Ha|].
  by apply (match_forgets_old_matches ex_dist [0] [0] (MetricName "euclidean")
              (Some 1%Q) None None None false false ex_h_stale
              (ex_store [ex_doc "a" 0]) Ha).
Defined.

(** * What the match lists hold *)

Section MatchLists.
Context {E : Type} (library_dist : string → E → E → Q).
Implicit Types (h : heap E) (metric : Metric E).

Lemma batch_size_pos b : nonpositive (Some b) = false → 1 ≤ Z.to_nat b.
Proof. simpl. intros H%Z.leb_gt. lia. Qed.

Lemma cands_in_range metric limit normalization metric_name batch_size
    exclude_self rhv (y_mat : list E) x :
  nonpositive batch_size = false → y_mat ≠ [] →
  Forall (λ c, c.1 < length y_mat)
    (cands_of library_dist metric limit normalization metric_name batch_size
       exclude_self rhv y_mat x).
Proof.
  intros Hbat Hy.
  apply (Forall_fmap fst (λ i, i < length y_mat)).
  rewrite fst_cands_of. destruct batch_size as [b|].
  - apply online_row_in_range; [by apply batch_size_pos|done].
  - eapply submseteq_Forall; [apply match_row_positions|].
    apply Forall_forall. intros i Hi%elem_of_seq. lia.
Qed.

Lemma length_cands_of metric limit normalization metric_name batch_size
    exclude_self rhv (y_mat : list E) x :
  length (cands_of library_dist metric limit normalization metric_name batch_size
            exclude_self rhv y_mat x)
  = match batch_size with
    | Some _ => limit_of limit exclude_self rhv
    | None => limit_of limit exclude_self rhv `min` length y_mat
    end.
Proof.
  rewrite <-(length_fmap fst), fst_cands_of. destruct batch_size as [b|].
  - by rewrite length_fmap, length_online_row.
  - apply length_match_row.
Qed.

Lemma fmap_nth_seq {A B : Type} (f : A → B) (d : A) (l : list A) :
  (λ i, f (nth i l d)) <$> seq 0 (length l) = f <$> l.
Proof.
  induction l as [|a l IH]; [done|].
  simpl. f_equal. rewrite <-fmap_S_seq, <-list_fmap_compose. exact IH.
Qed.

(** X7: every match is a copy of a document of the target array: it has
    that document's id, its embedding unless [only_id] is set, the scores
    the document carries (none with [only_id]) with the score of this call
    set under the metric name, and the document's own matches unless
    [only_id] is set or the id is one of the left-hand array. *)
Theorem match_copies_targets lhv rhv metric limit normalization metric_name
    batch_size exclude_self only_id h h' :
  match_ library_dist lhv rhv metric limit normalization metric_name batch_size
    exclude_self only_id h = (Returned, h') →
  lhv ≠ [] → rhv ≠ [] →
  ∀ q, q ∈ lhv →
    Forall (λ m, ∃ p s,
                p ∈ rhv
                ∧ m = mkDoc (id (h p))
                        (if only_id then None else embedding (h p))
                        (set_score (name_of metric metric_name) s
                           (if only_id then [] else scores (h p)))
                        (if only_id || contains h lhv (id (h p)) then []
                         else matches (h p)))
      (matches (h' q)).
Proof.
  intros Hm Hl Hr q Hq.
  destruct (match_returned library_dist _ _ _ _ _ _ _ _ _ _ _ Hm Hl Hr)
    as (_ & Hbat & _ & y_mat & Hy & Hrank).
  destruct (Hrank q Hq) as (x & _ & ->). clear Hm Hrank.
  generalize dependent (py_int <$> limit). clear limit. intros limit.
  destruct (ranked_sublist h lhv rhv (name_of metric metric_name) exclude_self only_id
              (stop_of limit exclude_self rhv) q
              (cands_of library_dist metric limit normalization metric_name
                 batch_size exclude_self rhv y_mat x))
    as (c' & Hsub & -> & _).
  pose proof (length_embeddings h rhv y_mat Hy) as Hlen.
  assert (Hne : y_mat ≠ []) by (intros ->; by destruct rhv).
  pose proof (cands_in_range metric limit normalization metric_name batch_size
                exclude_self rhv y_mat x Hbat Hne) as Hin.
  apply Forall_fmap, Forall_forall. intros c Hc. unfold compose.
  assert (Hc' : c.1 < length rhv).
  { rewrite <-Hlen. eapply Forall_forall in Hin; [exact Hin|].
    eapply elem_of_submseteq; [exact Hc|by apply sublist_submseteq]. }
  destruct (lookup_lt_is_Some_2 rhv c.1 Hc') as [p Hp].
  exists p, c.2. split; [apply list_elem_of_lookup; by exists c.1|].
  pose proof (nth_lookup_Some rhv c.1 0 p Hp) as Hnth.
  unfold attached, resolve. rewrite Hnth.
  destruct only_id; simpl; [by destruct (contains h lhv (id (h p)))|].
  by destruct (contains h lhv (id (h p))).
Qed.

(** X8: without [exclude_self] the number of matches of every left-hand
    document is fixed by the arguments: all targets without a limit, the
    limit after [int] on the batched path (even with fewer targets), and the
    smaller of that limit and the number of targets otherwise. *)
Theorem match_count lhv rhv metric limit normalization metric_name batch_size
    only_id h h' :
  match_ library_dist lhv rhv metric limit normalization metric_name batch_size
    false only_id h = (Returned, h') →
  lhv ≠ [] → rhv ≠ [] →
  ∀ q, q ∈ lhv →
    length (matches (h' q))
    = match limit, batch_size with
      | None, _ => length rhv
      | Some L, Some _ => Z.to_nat (py_int L)
      | Some L, None => Z.to_nat (py_int L) `min` length rhv
      end.
Proof.
  intros Hm Hl Hr q Hq.
  destruct (match_returned library_dist _ _ _ _ _ _ _ _ _ _ _ Hm Hl Hr)
    as (_ & Hbat & _ & y_mat & Hy & Hrank).
  destruct (Hrank q Hq) as (x & _ & ->).
  pose proof (length_embeddings h rhv y_mat Hy) as Hlen.
  pose proof (length_cands_of metric (py_int <$> limit) normalization metric_name
                batch_size false rhv y_mat x) as Hc.
  assert (Hstop : stop_of (py_int <$> limit) false rhv
                  = limit_of (py_int <$> limit) false rhv).
  { unfold stop_of, limit_of. destruct limit as [L|]; [|done]. csimpl.
    destruct (Z.eqb_spec (py_int L) 0); lia. }
  rewrite ranked_all, length_fmap, Hc.
  - unfold limit_of. rewrite Hlen.
    destruct limit as [L|], batch_size as [b|]; csimpl; lia.
  - rewrite Hc, Hstop. destruct batch_size; lia.
Qed.

(** X9: without a limit and without [exclude_self] every target is
    matched exactly once: the ids of a match list are a permutation of the
    ids of the target array. *)
Theorem match_no_limit_all_targets lhv rhv metric normalization metric_name
    batch_size only_id h h' :
  match_ library_dist lhv rhv metric None normalization metric_name batch_size
    false only_id h = (Returned, h') →
  lhv ≠ [] → rhv ≠ [] →
  ∀ q, q ∈ lhv →
    id <$> matches (h' q) ≡ₚ (λ p, id (h p)) <$> rhv.
Proof.
  intros Hm Hl Hr q Hq.
  destruct (match_returned library_dist _ _ _ _ _ _ _ _ _ _ _ Hm Hl Hr)
    as (Hlim & Hbat & _ & y_mat & Hy & Hrank).
  destruct (Hrank q Hq) as (x & _ & ->).
  pose proof (length_embeddings h rhv y_mat Hy) as Hlen.
  change (py_int <$> None) with (@None Z).
  destruct (cands_of_positions library_dist metric None normalization metric_name
              batch_size false rhv y_mat x Hbat) as [Hcl Hcp].
  { simpl. lia. }
  simpl in Hcl.
  rewrite ranked_all by (simpl; lia).
  rewrite <-list_fmap_compose.
  rewrite (list_fmap_ext _ ((λ i, id (h (nth i rhv 0))) ∘ fst) _).
  2:{ intros _ c _. apply id_attached. }
  rewrite list_fmap_compose.
  rewrite <-(fmap_nth_seq (λ p, id (h p)) 0 rhv).
  apply fmap_Permutation.
  rewrite <-Hlen. apply submseteq_length_Permutation; [done|].
  rewrite length_seq, length_fmap. lia.
Qed.
End MatchLists.

(** * The match lists hold the nearest neighbours *)

Section Nearest.
Context {E : Type} (library_dist : string → E → E → Q).
Implicit Types (h : heap E) (metric : Metric E).
Local Abbreviation leb := (by_key (I:=nat) score_leb).

Lemma score_eq_refl s : score_eq s s.
Proof. destruct s; simpl; [apply Qeq_refl|done]. Qed.

Lemma smallest_candidates_fst (dist : string → E → E → Q) k metric_name y_mat x :
  (smallest leb k (candidates dist metric_name y_mat x)).*1
  = Fin <$> smallest Qle_bool k (dist metric_name x <$> y_mat).
Proof.
  rewrite (smallest_fmap leb score_leb fst) by (by intros [] []).
  unfold candidates. rewrite fst_enumerate.
  by rewrite (smallest_fmap Qle_bool score_leb Fin).
Qed.

(** X10: without normalization and without [exclude_self], and with a
    limit that after [int] is at most the number of targets, the scores of a
    match list are, in list order, that many smallest distances from the
    query to the targets in ascending order, on the in-memory path and on the
    batched path alike. *)
Theorem match_nearest lhv rhv metric (L : Q) metric_name batch_size only_id h h' :
  match_ library_dist lhv rhv metric (Some L) None metric_name batch_size
    false only_id h = (Returned, h') →
  lhv ≠ [] → rhv ≠ [] → Z.to_nat (py_int L) ≤ length rhv →
  ∀ q, q ∈ lhv →
    ∃ x y_mat,
      embedding (h q) = Some x ∧ embeddings h rhv = Some y_mat
      ∧ Forall2 score_eq
          (match_scores (name_of metric metric_name) (matches (h' q)))
          (Fin <$> smallest Qle_bool (Z.to_nat (py_int L))
                     (dist_of library_dist metric (name_of metric metric_name) x
                        <$> y_mat)).
Proof.
  intros Hm Hl Hr HL q Hq.
  destruct (match_returned library_dist _ _ _ _ _ _ _ _ _ _ _ Hm Hl Hr)
    as (_ & Hbat & _ & y_mat & Hy & Hrank).
  destruct (Hrank q Hq) as (x & Hx & ->).
  change (py_int <$> Some L) with (Some (py_int L)).
  exists x, y_mat. split; [done|]. split; [done|].
  pose proof (length_embeddings h rhv y_mat Hy) as Hlen.
  pose proof (length_cands_of library_dist metric (Some (py_int L)) None metric_name
                batch_size false rhv y_mat x) as Hc.
  assert (Hlo : limit_of (Some (py_int L)) false rhv = Z.to_nat (py_int L))
    by (unfold limit_of; lia).
  assert (Hstop : stop_of (Some (py_int L)) false rhv = Z.to_nat (py_int L)).
  { unfold stop_of. rewrite Hlo. destruct (Z.eqb_spec (py_int L) 0); lia. }
  rewrite ranked_all by (rewrite Hc, Hstop, Hlo; destruct batch_size; lia).
  rewrite match_scores_attached, snd_cands_of, Hlo.
  rewrite <-smallest_candidates_fst.
  destruct batch_size as [b|].
  - apply keq_score_eq, online_row_candidates; [by apply batch_size_pos|lia].
  - pose proof (match_row_candidates (dist_of library_dist metric)
                  (Z.to_nat (py_int L)) (name_of metric metric_name) y_mat x) as Hrow.
    cbv zeta in Hrow. rewrite Nat.min_l in Hrow by lia.
    rewrite <-Hrow, fst_zip.
    + apply Forall_Forall2_diag, Forall_forall. intros s _. apply score_eq_refl.
    + destruct (length_match_row (dist_of library_dist metric) (Z.to_nat (py_int L))
                  None (name_of metric metric_name) y_mat x).
      rewrite length_fmap. lia.
Qed.
End Nearest.

Lemma match_copies_targets_witness :
  Forall (λ m, ∃ p s,
              p ∈ [1]
              ∧ m = mkDoc (id (ex_h_scored p))
                      (if false then None else embedding (ex_h_scored p))
                      (set_score (name_of (MetricName (E:=Q) "euclidean") None) s
                         (if false then [] else scores (ex_h_scored p)))
                      (if false || contains ex_h_scored [0] (id (ex_h_scored p))
                       then [] else matches (ex_h_scored p)))
    (matches
       ((match_ ex_dist [0] [1] (MetricName "euclidean") (Some 2%Q) None None
           None false false ex_h_scored).2 0)).
Proof.
  apply (match_copies_targets ex_dist [0] [1] (MetricName "euclidean")
           (Some 2%Q) None None None false false ex_h_scored _ eq_refl
           ltac:(discriminate) ltac:(discriminate) 0).
  by left.
Defined.

Lemma match_count_witness :
  length (matches
            ((match_ ex_dist [0] [1; 2] (MetricName "euclidean") (Some 3%Q) None None
                (Some 1%Z) false false ex_h).2 0))
  = Z.to_nat (py_int 3).
Proof.
  apply (match_count ex_dist [0] [1; 2] (MetricName "euclidean") (Some 3%Q) None None
           (Some 1%Z) false ex_h _ eq_refl ltac:(discriminate) ltac:(discriminate) 0).
  by left.
Defined.

Lemma match_no_limit_all_targets_witness :
  id <$> matches
           ((match_ ex_dist [0] [1; 2; 3; 4] (MetricName "euclidean") None None None
               (Some 3%Z) false false ex_h).2 0)
  ≡ₚ (λ p, id (ex_h p)) <$> [1; 2; 3; 4].
Proof.
  apply (match_no_limit_all_targets ex_dist [0] [1; 2; 3; 4] (MetricName "euclidean")
           None None (Some 3%Z) false ex_h _ eq_refl
           ltac:(discriminate) ltac:(discriminate) 0).
  by left.
Defined.

Lemma match_nearest_witness :
  ∃ x y_mat,
    embedding (ex_h 0) = Some x ∧ embeddings ex_h [1; 2; 3; 4] = Some y_mat
    ∧ Forall2 score_eq
        (match_scores (name_of (MetricName (E:=Q) "euclidean") None)
           (matches
              ((match_ ex_dist [0] [1; 2; 3; 4] (MetricName "euclidean") (Some 2%Q)
                  None None (Some 3%Z) false false ex_h).2 0)))
        (Fin <$> smallest Qle_bool (Z.to_nat (py_int 2))
                   (dist_of ex_dist (MetricName "euclidean")
                      (name_of (MetricName (E:=Q) "euclidean") None) x <$> y_mat)).
Proof.
  apply (match_nearest ex_dist [0] [1; 2; 3; 4] (MetricName "euclidean") 2 None
           (Some 3%Z) false ex_h _ eq_refl
           ltac:(discriminate) ltac:(discriminate) ltac:(vm_compute; lia) 0).
  by left.
Defined.

(** * The batches of [_match_online] *)

Section BatchGenerator.
Context {E : Type}.
Implicit Types (y : list E).

Lemma batches_concat y n :
  1 ≤ n → concat (batches y n).*1 = y.
Proof.
  intros Hn.
  apply (batch_generator_ind y n (λ i bs, concat bs.*1 = drop i y) Hn).
  - intros i Hi. by rewrite drop_ge.
  - intros i rest Hi IH. csimpl. rewrite IH.
    rewrite <-(drop_drop y n i). apply take_drop.
Qed.

Lemma batches_lookup y n :
  1 ≤ n →
  ∀ k b, batches y n !! k = Some b →
         b = (take n (drop (k * n) y), k * n).
Proof.
  intros Hn.
  apply (batch_generator_ind y n
           (λ i bs, ∀ k b, bs !! k = Some b →
                           b = (take n (drop (i + k * n) y), i + k * n)) Hn).
  - intros i _ k b Hk. by rewrite lookup_nil in Hk.
  - intros i rest Hi IH [|k] b Hk; simpl in Hk.
    + injection Hk as <-. by rewrite Nat.add_0_r.
    + rewrite (IH k b Hk). by replace (i + n + k * n) with (i + S k * n) by lia.
Qed.

Lemma batches_count y n :
  1 ≤ n → length (batches y n) = (length y + n - 1) / n.
Proof.
  intros Hn.
  pose proof (batch_generator_ind y n
                (λ i bs, length bs = (length y - i + n - 1) / n) Hn) as H.
  cbv beta in H. rewrite Nat.sub_0_r in H. apply H.
  - intros i Hi. replace (length y - i + n - 1) with (n - 1) by lia.
    simpl. symmetry. apply Nat.div_small. lia.
  - intros i rest Hi IH. simpl. rewrite IH.
    destruct (decide (n ≤ length y - i)) as [Hge|Hlt].
    + replace (length y - i + n - 1) with (length y - (i + n) + n - 1 + 1 * n) by lia.
      rewrite Nat.div_add by lia. lia.
    + replace (length y - (i + n) + n - 1) with (n - 1) by lia.
      replace (length y - i + n - 1) with (length y - i - 1 + 1 * n) by lia.
      rewrite Nat.div_add by lia.
      rewrite !Nat.div_small by lia. lia.
Qed.

(** X11: for a batch size of at least one the generator yields batches
    that, put one after the other, are the target array: no target is
    skipped or visited twice; and no batch is empty or longer than the batch
    size. *)
Theorem batch_generator_covers y n :
  1 ≤ n →
  ∃ bs, batch_generator y n = inr bs
        ∧ concat bs.*1 = y
        ∧ Forall (λ b, b.1 ≠ [] ∧ length b.1 ≤ n) bs.
Proof.
  intros Hn. exists (batches y n).
  split; [by apply batch_generator_pos|].
  split; [by apply batches_concat|].
  apply Forall_forall. intros b Hb.
  apply list_elem_of_lookup in Hb as [k Hk].
  pose proof (lookup_lt_Some _ _ _ Hk) as Hlt.
  rewrite batches_count in Hlt by done.
  rewrite (batches_lookup y n Hn k b Hk). simpl.
  assert (Hkn : k * n < length y).
  { destruct (decide (k * n < length y)) as [|Hge]; [done|]. exfalso.
    assert (length y + n - 1 < n * (k + 1)) as Hdiv by nia.
    apply Nat.Div0.div_lt_upper_bound in Hdiv. lia. }
  split.
  - intros Hnil%(f_equal length). rewrite length_take, length_drop in Hnil.
    simpl in Hnil. lia.
  - rewrite length_take. lia.
Qed.

(** X12: for a batch size of at least one there are
    [ceil(len(y_darray) / n_batch)] batches, and the [k]-th one is the slice
    of [n_batch] targets that starts at [k * n_batch], paired with that start
    position. *)
Theorem batch_generator_slices y n :
  1 ≤ n →
  ∃ bs, batch_generator y n = inr bs
        ∧ length bs = (length y + n - 1) / n
        ∧ ∀ k b, bs !! k = Some b → b = (take n (drop (k * n) y), k * n).
Proof.
  intros Hn. exists (batches y n).
  split; [by apply batch_generator_pos|].
  split; [by apply batches_count|by apply batches_lookup].
Qed.
End BatchGenerator.

Lemma batch_generator_covers_witness :
  ∃ bs, batch_generator [0%Q; 5%Q; 6%Q; 1%Q; 4%Q] 2 = inr bs
        ∧ concat bs.*1 = [0%Q; 5%Q; 6%Q; 1%Q; 4%Q]
        ∧ Forall (λ b, b.1 ≠ [] ∧ length b.1 ≤ 2) bs.
Proof. apply (batch_generator_covers [0%Q; 5%Q; 6%Q; 1%Q; 4%Q] 2). lia. Defined.

Lemma batch_generator_slices_witness :
  ∃ bs, batch_generator [0%Q; 5%Q; 6%Q; 1%Q; 4%Q] 2 = inr bs
        ∧ length bs = (5 + 2 - 1) / 2
        ∧ ∀ k b, bs !! k = Some b →
                 b = (take 2 (drop (k * 2) [0%Q; 5%Q; 6%Q; 1%Q; 4%Q]), k * 2).
Proof. apply (batch_generator_slices [0%Q; 5%Q; 6%Q; 1%Q; 4%Q] 2). lia. Defined.

(** * [_get_embeddings] *)

Section GetEmbeddingsFacts.
Context {B : Type}.
Implicit Types (self : list (dense B)) (d : dense B).

Lemma get_embeddings_loop (ds : list (dense B)) (a : list B) (n : nat) :
  foldl (λ acc d, (acc.1 ++ buffer d, acc.2 + 1)) (a, n) ds
  = (a ++ concat (buffer <$> ds), n + length ds).
Proof.
  revert a n. induction ds as [|d ds IH]; intros a n; csimpl.
  - by rewrite app_nil_r, Nat.add_0_r.
  - rewrite IH. cbn [fst snd]. f_equal; [by rewrite <-app_assoc|lia].
Qed.

Lemma np_reshape_concat (rows : matrix B) w :
  Forall (λ r, length r = w) rows →
  np_reshape (length rows) w (concat rows) = rows.
Proof.
  induction 1 as [|r rows Hr _ IH]; csimpl; [done|].
  rewrite take_app_length', drop_app_length' by done. by rewrite IH.
Qed.

Lemma np_reshape_shape rows cols (flat : list B) :
  length flat = rows * cols →
  length (np_reshape rows cols flat) = rows
  ∧ Forall (λ r, length r = cols) (np_reshape rows cols flat)
  ∧ concat (np_reshape rows cols flat) = flat.
Proof.
  revert flat. induction rows as [|rows IH]; intros flat Hlen; csimpl.
  - split; [done|]. split; [constructor|]. by destruct flat.
  - destruct (IH (drop cols flat)) as (H1 & H2 & H3).
    { rewrite length_drop. simpl in Hlen. lia. }
    split; [by rewrite H1|]. split.
    + constructor; [|done]. rewrite length_take. simpl in Hlen. lia.
    + rewrite H3. apply take_drop.
Qed.

(** X13: when every document of the slice has a buffer as long as the
    first dimension recorded for the first document of the array,
    [_get_embeddings] returns the buffers of the slice as rows, in array
    order; without [indices] these are the buffers of the whole array. *)
Theorem _get_embeddings_rows self indices d0 :
  let s := match indices with
           | None => (0, length self)
           | Some s => s
           end in
  self !! 0 = Some d0 →
  Forall (λ d, length (buffer d) = shape0 d0) (py_slice s.1 s.2 self) →
  _get_embeddings self indices
  = inr match indices with
        | None => buffer <$> self
        | Some s => py_slice s.1 s.2 (buffer <$> self)
        end.
Proof.
  intros s H0 Hall.
  assert (Hget : _get_embeddings self indices
                 = inr (py_slice s.1 s.2 (buffer <$> self))).
  { unfold _get_embeddings. fold s. rewrite get_embeddings_loop.
    destruct self as [|d self']; [done|]. injection H0 as ->.
    set (docs := py_slice s.1 s.2 (d0 :: self')) in *.
    rewrite app_nil_l, Nat.add_0_l.
    assert (Hw : Forall (λ r, length r = shape0 d0) (buffer <$> docs)).
    { by apply Forall_fmap. }
    assert (Hlen : length (concat (buffer <$> docs)) = length docs * shape0 d0).
    { clear -Hw. induction docs as [|d docs IH]; csimpl; [done|].
      inversion Hw; subst. rewrite length_app, IH by done. lia. }
    rewrite bool_decide_eq_true_2 by done. f_equal.
    rewrite <-(length_fmap buffer docs), np_reshape_concat by done.
    unfold docs, py_slice. by rewrite fmap_take, fmap_drop. }
  rewrite Hget. f_equal. subst s. destruct indices as [s|]; [done|].
  unfold py_slice. simpl. rewrite Nat.sub_0_r, <-(length_fmap buffer self).
  apply firstn_all.
Qed.

(** X14: whenever [_get_embeddings] returns, the result has one row per
    document of the slice, every row has as many columns as the first
    dimension recorded for the first document of the array, and the rows,
    put one after the other, are the buffers of the slice in array order. *)
Theorem _get_embeddings_shape self indices (m : matrix B) :
  _get_embeddings self indices = inr m →
  let s := match indices with
           | None => (0, length self)
           | Some s => s
           end in
  ∃ d0, self !! 0 = Some d0
        ∧ length m = length (py_slice s.1 s.2 self)
        ∧ Forall (λ r, length r = shape0 d0) m
        ∧ concat m = concat (buffer <$> py_slice s.1 s.2 self).
Proof.
  intros Hm s. unfold _get_embeddings in Hm. fold s in Hm.
  rewrite get_embeddings_loop in Hm.
  destruct self as [|d0 self']; [done|]. exists d0. split; [done|].
  set (docs := py_slice s.1 s.2 (d0 :: self')) in *.
  rewrite app_nil_l, Nat.add_0_l in Hm.
  case_bool_decide as Hlen; [|done]. injection Hm as <-.
  apply (np_reshape_shape _ _ _ Hlen).
Qed.
End GetEmbeddingsFacts.

Lemma _get_embeddings_rows_witness :
  _get_embeddings [mkDense [1; 2] 2; mkDense [3; 4] 2; mkDense [5; 6] 2] (Some (1, 3))
  = inr (py_slice 1 3 (buffer <$> [mkDense [1; 2] 2; mkDense [3; 4] 2; mkDense [5; 6] 2])).
Proof.
  apply (_get_embeddings_rows [mkDense [1; 2] 2; mkDense [3; 4] 2; mkDense [5; 6] 2]
           (Some (1, 3)) (mkDense [1; 2] 2) eq_refl).
  by repeat constructor.
Defined.

Lemma _get_embeddings_shape_witness :
  ∃ d0, [mkDense [1; 2; 3] 2; mkDense [4; 5] 9; mkDense [6] 9] !! 0 = Some d0
        ∧ length [[1; 2]; [3; 4]; [5; 6]]
          = length (py_slice 0 3 [mkDense [1; 2; 3] 2; mkDense [4; 5] 9; mkDense [6] 9])
        ∧ Forall (λ r, length r = shape0 d0) [[1; 2]; [3; 4]; [5; 6]]
        ∧ concat [[1; 2]; [3; 4]; [5; 6]]
          = concat (buffer <$> py_slice 0 3
                      [mkDense [1; 2; 3] 2; mkDense [4; 5] 9; mkDense [6] 9]).
Proof.
  apply (_get_embeddings_shape [mkDense [1; 2; 3] 2; mkDense [4; 5] 9; mkDense [6] 9]
           None [[1; 2]; [3; 4]; [5; 6]] eq_refl).
Defined.

(** * The layout of [plot_image_sprites] *)

Section SpriteFacts.
Context {D : Type}.
Implicit Types (self : list D) (s : sprite D).
Local Open Scope Z_scope.

Lemma ceil_sqrt_spec n :
  0 < n →
  1 ≤ ceil_sqrt n ∧ n ≤ ceil_sqrt n * ceil_sqrt n
  ∧ (ceil_sqrt n - 1) * (ceil_sqrt n - 1) < n.
Proof.
  intros Hn. unfold ceil_sqrt.
  pose proof (Z.sqrt_spec n ltac:(lia)) as Hs. cbv zeta in Hs.
  pose proof (Z.sqrt_nonneg n).
  destruct (Z.eqb_spec (Z.sqrt n * Z.sqrt n) n); nia.
Qed.

Lemma place_spec ipr max_num (ds : list D) i :
  0 < ipr → i < max_num →
  ∃ cs, place ipr max_num ds i = inr cs
        ∧ cs.*1 = take (Z.to_nat (max_num - i)) ds
        ∧ ∀ (j : nat) c, cs !! j = Some c →
            c.2 = ((i + Z.of_nat j) / ipr, (i + Z.of_nat j) mod ipr)
            ∧ i + Z.of_nat j < max_num.
Proof.
  intros Hipr. revert i. induction ds as [|d rest IH]; intros i Hi.
  - exists []. split; [done|]. split; [by rewrite take_nil|].
    intros j c Hj. by rewrite lookup_nil in Hj.
  - simpl. destruct (Z.eqb_spec ipr 0) as [|_]; [lia|].
    replace (Z.to_nat (max_num - i)) with (S (Z.to_nat (max_num - (i + 1)))) by lia.
    destruct (Z.leb_spec max_num (i + 1)) as [Hle|Hgt].
    + eexists. split; [done|]. split.
      { replace (Z.to_nat (max_num - (i + 1))) with 0%nat by lia. done. }
      intros [|j] c Hj; simplify_eq/=.
      rewrite Z.add_0_r. split; [done|lia].
    + destruct (IH (i + 1) Hgt) as (cs & -> & Hfst & Hcs).
      eexists. split; [done|]. split; [csimpl; by rewrite Hfst|].
      intros [|j] c Hj; simplify_eq/=.
      * rewrite Z.add_0_r. split; [done|lia].
      * destruct (Hcs j c Hj) as [-> Hlt].
        replace (i + 1 + Z.of_nat j) with (i + Z.pos (Pos.of_succ_nat j)) by lia.
        split; [done|lia].
Qed.

(** The sprite a drawable call lays out. *)
Lemma plot_image_sprites_spec self canvas_size min_size :
  self ≠ [] → 0 < min_size → min_size ≤ canvas_size →
  ∃ size ipr cs,
    plot_image_sprites self canvas_size min_size
    = inr (mkSprite size ipr (Z.min (Z.of_nat (length self)) (ipr ^ 2)) cs)
    ∧ 1 ≤ ipr ∧ min_size ≤ size ∧ size * ipr ≤ canvas_size
    ∧ (min_size ≤ canvas_size ÷ ceil_sqrt (Z.of_nat (length self)) →
       ipr = ceil_sqrt (Z.of_nat (length self)))
    ∧ cs.*1 = take (Z.to_nat (ipr ^ 2)) self
    ∧ ∀ (j : nat) c, cs !! j = Some c →
        c.2 = (Z.of_nat j / ipr, Z.of_nat j mod ipr) ∧ Z.of_nat j < ipr ^ 2.
Proof.
  intros Hne Hmin Hcanvas.
  set (k := ceil_sqrt (Z.of_nat (length self))).
  set (shrunk := canvas_size ÷ k <? min_size).
  set (size := if shrunk then min_size else canvas_size ÷ k).
  set (ipr := if shrunk then canvas_size ÷ min_size else k).
  assert (Hlen : 0 < Z.of_nat (length self)) by (destruct self; simpl; [done|lia]).
  destruct (ceil_sqrt_spec _ Hlen) as (Hk1 & _ & _). fold k in Hk1.
  assert (Hq : canvas_size ÷ k = canvas_size / k)
    by (apply Z.quot_div_nonneg; lia).
  assert (Hq' : canvas_size ÷ min_size = canvas_size / min_size)
    by (apply Z.quot_div_nonneg; lia).
  assert (Hipr : 1 ≤ ipr).
  { unfold ipr. destruct shrunk; [|done]. rewrite Hq'.
    pose proof (Z.div_str_pos canvas_size min_size). lia. }
  assert (Hsize : min_size ≤ size).
  { unfold size, shrunk. destruct (Z.ltb_spec (canvas_size ÷ k) min_size); lia. }
  assert (Hfit : size * ipr ≤ canvas_size).
  { unfold size, ipr. destruct shrunk.
    - rewrite Hq'. apply Z.mul_div_le. lia.
    - rewrite Hq, Z.mul_comm. apply Z.mul_div_le. lia. }
  destruct (place_spec ipr (ipr ^ 2) self 0 ltac:(lia) ltac:(nia))
    as (cs & Hplace & Hfst & Hcs).
  exists size, ipr, cs. split; [|repeat split; try done].
  - unfold plot_image_sprites. destruct self as [|d self']; [done|].
    fold k. fold shrunk.
    assert (Hsizes :
      (if shrunk
       then if min_size =? 0 then inl ZeroDivision
            else inr (min_size, canvas_size ÷ min_size)
       else inr (canvas_size ÷ k, k)) = (inr (size, ipr) : sprite_exn + Z * Z)).
    { unfold size, ipr. destruct shrunk; [|done].
      by destruct (Z.eqb_spec min_size 0); [lia|]. }
    rewrite Hsizes.
    destruct (Z.ltb_spec (size * ipr) 0) as [|_]; [nia|].
    by rewrite Hplace.
  - intros Hbig. unfold ipr, shrunk.
    by destruct (Z.ltb_spec (canvas_size ÷ k) min_size); [lia|].
  - by rewrite Z.sub_0_r in Hfst.
  - by destruct (Hcs j c H) as [-> _].
  - destruct (Hcs j c H) as [_ Hlt]. lia.
Qed.

(** X15: with a positive minimum size that is at most the canvas size, a
    call on a non-empty array lays the sprite out without an error: the
    images are at least [min_size] wide, the sprite fits the canvas, and
    every image is written to a cell inside the grid. *)
Theorem plot_image_sprites_fits self canvas_size min_size :
  self ≠ [] → 0 < min_size → min_size ≤ canvas_size →
  ∃ s, plot_image_sprites self canvas_size min_size = inr s
       ∧ min_size ≤ img_size s ∧ 1 ≤ img_per_row s
       ∧ img_size s * img_per_row s ≤ canvas_size
       ∧ Forall (λ c, 0 ≤ c.2.1 < img_per_row s ∧ 0 ≤ c.2.2 < img_per_row s)
           (cells s).
Proof.
  intros Hne Hmin Hcanvas.
  destruct (plot_image_sprites_spec self canvas_size min_size Hne Hmin Hcanvas)
    as (size & ipr & cs & Hplot & Hipr & Hsize & Hfit & _ & _ & Hcs).
  eexists. split; [exact Hplot|]. cbn [img_size img_per_row cells].
  split; [done|]. split; [done|]. split; [done|].
  apply Forall_forall. intros c Hc.
  apply list_elem_of_lookup in Hc as [j Hj].
  destruct (Hcs j c Hj) as [-> Hlt]. cbn [fst snd].
  split.
  - split; [apply Z.div_pos; lia|]. apply Z.div_lt_upper_bound; lia.
  - apply Z.mod_pos_bound. lia.
Qed.

(** X16: in the same situation no two images are written to the same cell,
    the images are those of the first [img_per_row ** 2] documents in array
    order, laid out row by row, and their number is the total announced to
    the progress bar. *)
Theorem plot_image_sprites_cells self canvas_size min_size :
  self ≠ [] → 0 < min_size → min_size ≤ canvas_size →
  ∃ s, plot_image_sprites self canvas_size min_size = inr s
       ∧ NoDup (cells s).*2
       ∧ (cells s).*1 = take (Z.to_nat (img_per_row s ^ 2)) self
       ∧ Z.of_nat (length (cells s)) = actual_num_img s
       ∧ ∀ (j : nat) c, cells s !! j = Some c →
           c.2 = (Z.of_nat j / img_per_row s, Z.of_nat j mod img_per_row s).
Proof.
  intros Hne Hmin Hcanvas.
  destruct (plot_image_sprites_spec self canvas_size min_size Hne Hmin Hcanvas)
    as (size & ipr & cs & Hplot & Hipr & _ & _ & _ & Hfst & Hcs).
  eexists. split; [exact Hplot|]. cbn [img_per_row cells actual_num_img].
  split; [|split; [done|split]].
  - apply NoDup_alt. intros i j x Hi Hj.
    rewrite list_lookup_fmap in Hi, Hj.
    destruct (cs !! i) as [ci|] eqn:Hci; [|done].
    destruct (cs !! j) as [cj|] eqn:Hcj; [|done].
    simpl in Hi, Hj. injection Hi as Hi. injection Hj as Hj.
    destruct (Hcs i ci Hci) as [Hi' _], (Hcs j cj Hcj) as [Hj' _].
    rewrite Hi in Hi'. rewrite Hj, Hi' in Hj'. injection Hj' as Hdiv Hmod.
    pose proof (Z.div_mod (Z.of_nat i) ipr ltac:(lia)).
    pose proof (Z.div_mod (Z.of_nat j) ipr ltac:(lia)).
    apply Nat2Z.inj. congruence.
  - rewrite <-(length_fmap fst), Hfst, length_take. lia.
  - intros j c Hj. by destruct (Hcs j c Hj).
Qed.

(** X17: when the images need not be shrunk to [min_size], the grid is the
    smallest square grid with room for all documents, and every document
    gets a cell. *)
Theorem plot_image_sprites_all_placed self canvas_size min_size :
  self ≠ [] → 0 < min_size →
  min_size ≤ canvas_size ÷ ceil_sqrt (Z.of_nat (length self)) →
  ∃ s, plot_image_sprites self canvas_size min_size = inr s
       ∧ (cells s).*1 = self
       ∧ Z.of_nat (length self) ≤ img_per_row s ^ 2
       ∧ (img_per_row s - 1) ^ 2 < Z.of_nat (length self).
Proof.
  intros Hne Hmin Hbig.
  assert (Hlen : 0 < Z.of_nat (length self)) by (destruct self; simpl; [done|lia]).
  destruct (ceil_sqrt_spec _ Hlen) as (Hk1 & Hk2 & Hk3).
  assert (Hcanvas : min_size ≤ canvas_size).
  { destruct (Z.le_gt_cases min_size canvas_size) as [|Hlt]; [done|].
    destruct (Z.le_gt_cases 0 canvas_size).
    - pose proof (Z.quot_le_upper_bound canvas_size
                    (ceil_sqrt (Z.of_nat (length self))) canvas_size). nia.
    - pose proof (Z.quot_opp_l canvas_size (ceil_sqrt (Z.of_nat (length self)))
                    ltac:(lia)).
      pose proof (Z.quot_pos (- canvas_size) (ceil_sqrt (Z.of_nat (length self)))).
      lia. }
  destruct (plot_image_sprites_spec self canvas_size min_size Hne Hmin Hcanvas)
    as (size & ipr & cs & Hplot & Hipr & _ & _ & Hk & Hfst & _).
  eexists. split; [exact Hplot|]. cbn [img_per_row cells].
  rewrite (Hk Hbig) in *.
  split; [|split; lia].
  rewrite Hfst. apply take_ge. lia.
Qed.

(** X18: a non-negative canvas size below a positive [min_size] makes the
    call fail with a division by zero in the loop. *)
Theorem plot_image_sprites_small_canvas self canvas_size min_size :
  self ≠ [] → 0 ≤ canvas_size → canvas_size < min_size →
  plot_image_sprites self canvas_size min_size = inl ZeroDivision.
Proof.
  intros Hne Hc Hmin.
  assert (Hlen : 0 < Z.of_nat (length self)) by (destruct self; simpl; [done|lia]).
  destruct (ceil_sqrt_spec _ Hlen) as (Hk1 & _ & _).
  unfold plot_image_sprites. destruct self as [|d self']; [done|].
  set (k := ceil_sqrt _) in *.
  assert (Hq : canvas_size ÷ k = canvas_size / k)
    by (apply Z.quot_div_nonneg; lia).
  assert (canvas_size / k ≤ canvas_size)
    by (apply Z.div_le_upper_bound; nia).
  destruct (Z.ltb_spec (canvas_size ÷ k) min_size) as [_|]; [|lia].
  destruct (Z.eqb_spec min_size 0) as [|_]; [lia|].
  rewrite Z.quot_small, Z.mul_0_r by lia. done.
Qed.
End SpriteFacts.

Lemma plot_image_sprites_fits_witness :
  ∃ s, plot_image_sprites [1; 2; 3; 4; 5] 512 16 = inr s
       ∧ (16 ≤ img_size s)%Z ∧ (1 ≤ img_per_row s)%Z
       ∧ (img_size s * img_per_row s ≤ 512)%Z
       ∧ Forall (λ c, (0 ≤ c.2.1 < img_per_row s)%Z ∧ (0 ≤ c.2.2 < img_per_row s)%Z)
           (cells s).
Proof.
  apply (plot_image_sprites_fits [1; 2; 3; 4; 5] 512 16); [done|lia|lia].
Defined.

Lemma plot_image_sprites_cells_witness :
  ∃ s, plot_image_sprites [1; 2; 3; 4; 5] 40 16 = inr s
       ∧ NoDup (cells s).*2
       ∧ (cells s).*1 = take (Z.to_nat (img_per_row s ^ 2)) [1; 2; 3; 4; 5]
       ∧ Z.of_nat (length (cells s)) = actual_num_img s
       ∧ ∀ (j : nat) c, cells s !! j = Some c →
           c.2 = ((Z.of_nat j / img_per_row s)%Z, (Z.of_nat j mod img_per_row s)%Z).
Proof.
  apply (plot_image_sprites_cells [1; 2; 3; 4; 5] 40 16); [done|lia|lia].
Defined.

Lemma plot_image_sprites_all_placed_witness :
  ∃ s, plot_image_sprites [1; 2; 3; 4; 5] 512 16 = inr s
       ∧ (cells s).*1 = [1; 2; 3; 4; 5]
       ∧ (Z.of_nat (length [1; 2; 3; 4; 5]) ≤ img_per_row s ^ 2)%Z
       ∧ ((img_per_row s - 1) ^ 2 < Z.of_nat (length [1; 2; 3; 4; 5]))%Z.
Proof.
  apply (plot_image_sprites_all_placed [1; 2; 3; 4; 5] 512 16); [done|lia|].
  vm_compute. discriminate.
Defined.

Lemma plot_image_sprites_small_canvas_witness :
  plot_image_sprites [1; 2; 3] 10 16 = inl ZeroDivision.
Proof.
  apply (plot_image_sprites_small_canvas [1; 2; 3] 10 16); [done|lia|lia].
Defined.

(** * The colour numbers of [plot_embeddings] *)

Section ColourFacts.
Context {T : Type} `{EqDecision T}.
Implicit Types (order tags : list T) (d : list (T * nat)).

Lemma dict_get_foldl_other (t : T) (l : list (T * nat)) d :
  t ∉ l.*1 →
  dict_get t (foldl (λ d p, dict_set p.1 p.2 d) d l) = dict_get t d.
Proof.
  revert d. induction l as [|[k v] l IH]; intros d Ht; csimpl; [done|].
  csimpl in Ht. apply not_elem_of_cons in Ht as [Hk Ht].
  rewrite IH by done. simpl.
  by destruct (decide (t = k)).
Qed.

Lemma dict_get_foldl (t : T) (n : nat) (l : list (T * nat)) d :
  NoDup l.*1 → (t, n) ∈ l →
  dict_get t (foldl (λ d p, dict_set p.1 p.2 d) d l) = Some n.
Proof.
  revert d. induction l as [|[k v] l IH]; intros d Hnd Hin; csimpl.
  - by apply elem_of_nil in Hin.
  - csimpl in Hnd. apply NoDup_cons in Hnd as [Hk Hnd].
    apply elem_of_cons in Hin as [Heq|Hin]; [|by apply IH].
    injection Heq as -> ->.
    rewrite dict_get_foldl_other by done. simpl.
    by destruct (decide (k = k)).
Qed.

Lemma tag_to_num_lookup order (t : T) (n : nat) :
  NoDup order → order !! n = Some t →
  dict_get t (tag_to_num order) = Some n.
Proof.
  intros Hnd Hn. unfold tag_to_num.
  apply dict_get_foldl; [by rewrite fst_enumerate|].
  unfold enumerate. apply list_elem_of_lookup. exists n.
  apply lookup_zip_with_Some. exists t, n. split; [done|]. split; [done|].
  apply lookup_seq. split; [done|]. by eapply lookup_lt_Some.
Qed.

(** X19: when [set(tags)] is iterated without repetition, no lookup in
    [tag_to_num] fails, every document gets a number below the number of
    distinct values, and two documents get the same number exactly when
    their values are equal. *)
Theorem colours_spec order tags :
  NoDup order → (∀ t, t ∈ order ↔ t ∈ tags) →
  ∃ cs, colours order tags = Some cs
        ∧ length cs = length tags
        ∧ Forall (λ c, c < length order) cs
        ∧ ∀ i j ti tj ci cj,
            tags !! i = Some ti → tags !! j = Some tj →
            cs !! i = Some ci → cs !! j = Some cj →
            (ci = cj ↔ ti = tj).
Proof.
  intros Hnd Hset.
  assert (Hall : Forall (λ t, ∃ n, order !! n = Some t
                              ∧ dict_get t (tag_to_num order) = Some n) tags).
  { apply Forall_forall. intros t Ht.
    apply Hset, list_elem_of_lookup in Ht as [n Hn].
    exists n. split; [done|]. by apply tag_to_num_lookup. }
  assert (Hcs : ∃ cs, Forall2 (λ t c, dict_get t (tag_to_num order) = Some c) tags cs).
  { clear -Hall. induction Hall as [|t tags (n & _ & Hn) _ [cs IH]].
    - by exists [].
    - exists (n :: cs). by constructor. }
  destruct Hcs as [cs Hcs]. exists cs.
  split; [by apply mapM_Some|].
  split; [symmetry; by eapply Forall2_length|].
  assert (Hpos : ∀ i t c, tags !! i = Some t → cs !! i = Some c →
                          order !! c = Some t).
  { intros i t c Ht Hc.
    destruct (Forall2_lookup_l _ _ _ _ _ Hcs Ht) as (c' & Hc' & Hget).
    assert (c' = c) as -> by congruence.
    eapply Forall_forall in Hall as (n & Hn & Hget');
      [|apply list_elem_of_lookup; by exists i].
    congruence. }
  split.
  - apply Forall_forall. intros c Hc.
    apply list_elem_of_lookup in Hc as [i Hi].
    destruct (Forall2_lookup_r _ _ _ _ _ Hcs Hi) as (t & Ht & _).
    eapply lookup_lt_Some, Hpos; done.
  - intros i j ti tj ci cj Hti Htj Hci Hcj.
    pose proof (Hpos i ti ci Hti Hci) as Hi.
    pose proof (Hpos j tj cj Htj Hcj) as Hj.
    split; [intros ->; congruence|]. intros ->.
    by eapply NoDup_lookup.
Qed.
End ColourFacts.

Lemma colours_spec_witness :
  ∃ cs, colours [None; Some 7; Some 3] [Some 3; None; Some 3; Some 7] = Some cs
        ∧ length cs = length [Some 3; None; Some 3; Some 7]
        ∧ Forall (λ c, c < length [None; Some 7; Some 3]) cs
        ∧ ∀ i j ti tj ci cj,
            [Some 3; None; Some 3; Some 7] !! i = Some ti →
            [Some 3; None; Some 3; Some 7] !! j = Some tj →
            cs !! i = Some ci → cs !! j = Some cj →
            (ci = cj ↔ ti = tj).
Proof.
  apply (colours_spec [None; Some 7; Some 3] [Some 3; None; Some 3; Some 7]).
  - apply (bool_decide_unpack _). vm_compute. exact I.
  - intros t. rewrite !elem_of_cons, !elem_of_nil. tauto.
Defined.

(** * Errors come before any change; the limit bounds every match list *)

Section MatchBounds.
Context {E : Type} (library_dist : string → E → E → Q).
Implicit Types (h : heap E) (metric : Metric E).

(** X20: a call that raises has not touched the store: all checks,
    including the one on the embeddings, come before the first match list
    is emptied. *)
Theorem match_raise_keeps_store lhv rhv metric limit normalization metric_name
    batch_size exclude_self only_id h e :
  (match_ library_dist lhv rhv metric limit normalization metric_name batch_size
     exclude_self only_id h).1 = Raised e →
  (match_ library_dist lhv rhv metric limit normalization metric_name batch_size
     exclude_self only_id h).2 = h.
Proof.
  intros Hraise.
  destruct (match_path library_dist lhv rhv metric limit normalization metric_name
              batch_size exclude_self only_id h)
    as [Hsame|(x_mat & y_mat & Hlim & Hbat & Hl & Hr & Hm & Hx & Hy)]; [done|].
  destruct (match_spec library_dist lhv rhv metric limit normalization metric_name
              batch_size exclude_self only_id h x_mat y_mat Hlim Hbat Hl Hr Hm Hx Hy)
    as (h' & Hm' & _).
  by rewrite Hm' in Hraise.
Qed.

(** X21: no match list is ever longer than the limit after [int], or than
    the target array when there is no limit; a limit below 1 is cut to 0,
    and then there is at most one match with [exclude_self] and none without.
    So a limit of at least 1 is never exceeded. *)
Theorem match_at_most_limit lhv rhv metric limit normalization metric_name
    batch_size exclude_self only_id h h' :
  match_ library_dist lhv rhv metric limit normalization metric_name batch_size
    exclude_self only_id h = (Returned, h') →
  lhv ≠ [] → rhv ≠ [] →
  ∀ q, q ∈ lhv →
    length (matches (h' q))
    ≤ match limit with
      | Some L =>
          if (py_int L =? 0)%Z then (if exclude_self then 1 else 0)
          else Z.to_nat (py_int L)
      | None => length rhv
      end
    ∧ ∀ L, limit = Some L → (1 <= L)%Q →
           (inject_Z (Z.of_nat (length (matches (h' q)))) <= L)%Q.
Proof.
  intros Hm Hl Hr q Hq.
  destruct (match_returned library_dist _ _ _ _ _ _ _ _ _ _ _ Hm Hl Hr)
    as (Hlim & _ & _ & y_mat & _ & Hrank).
  destruct (Hrank q Hq) as (x & _ & ->).
  set (ms := ranked _ _ _ _ _ _ _ _ _).
  assert (Hlen : length ms ≤ stop_of (py_int <$> limit) exclude_self rhv)
    by apply length_ranked.
  destruct limit as [L|]; [|split; [done|by intros L]].
  change (py_int <$> Some L) with (Some (py_int L)) in Hlen.
  rewrite stop_of_bound in Hlen. split; [done|].
  intros ? [= <-] HL.
  pose proof (py_int_pos L HL) as Hpos.
  apply nonpositive_limit_false in Hlim.
  destruct (Z.eqb_spec (py_int L) 0) as [|_]; [lia|].
  eapply Qle_trans; [|by apply py_int_le].
  rewrite <-Zle_Qle. lia.
Qed.
End MatchBounds.

Lemma match_raise_keeps_store_witness :
  (match_ ex_dist [0; 1] [2; 3] (MetricOther (E:=Q)) (Some 2%Q) None None None
     false false ex_h).2 = ex_h.
Proof.
  apply (match_raise_keeps_store ex_dist [0; 1] [2; 3] MetricOther (Some 2%Q) None
           None None false false ex_h TypeError eq_refl).
Defined.

Lemma match_at_most_limit_witness :
  length (matches
            ((match_ ex_dist [0; 1] [0; 1; 2; 3; 4] (MetricName "euclidean")
                (Some (5 # 2)%Q) (Some (0, 1)%Q) None (Some 2%Z) true false ex_h).2 1))
  ≤ (if (py_int (5 # 2) =? 0)%Z then (if true then 1 else 0)
     else Z.to_nat (py_int (5 # 2)))
  ∧ ∀ L, Some (5 # 2)%Q = Some L → (1 <= L)%Q →
         Qle (inject_Z (Z.of_nat (length (matches
            ((match_ ex_dist [0; 1] [0; 1; 2; 3; 4] (MetricName "euclidean")
                (Some (5 # 2)%Q) (Some (0, 1)%Q) None (Some 2%Z) true false
                ex_h).2 1))))) L.
Proof.
  apply (match_at_most_limit ex_dist [0; 1] [0; 1; 2; 3; 4] (MetricName "euclidean")
           (Some (5 # 2)%Q) (Some (0, 1)%Q) None (Some 2%Z) true false ex_h _ eq_refl
           ltac:(discriminate) ltac:(discriminate) 1).
  by right; left.
Defined.
